(** * A shallow embedding of [spectrogram_lines.cpp]

    The waterfall spectrogram pipeline: playback clock, latency-compensated
    analysis window, log-frequency mapping, line builder, history ring and
    colormaps.  Machine integers are [Z] with the wrap-around of their C++
    type written out, [float] is IEEE binary32 ([SpecFloat] at precision 24),
    [std::vector] is [list] with stdpp's lookup and insert.  The globals of
    the translation unit are passed explicitly.  The C library's [log10] and
    [pow] are parameters.  The real numbers serve only in the proofs about
    rounding, as the values floats stand for. *)

From Stdlib Require Import ZArith Lia Bool Reals Lra.
From Stdlib Require Import Floats.SpecFloat.
From stdpp Require Import base option list.

Local Open Scope Z_scope.

(** ** Machine integers *)

Module Int.

Definition wrap_unsigned (w z : Z) : Z := z mod 2 ^ w.

Definition wrap_signed (w z : Z) : Z :=
  (z + 2 ^ (w - 1)) mod 2 ^ w - 2 ^ (w - 1).

(** [int], [int64_t], [uint64_t]; [size_t] is 64 bits wide. *)
Definition to_int : Z -> Z := wrap_signed 32.
Definition to_int64 : Z -> Z := wrap_signed 64.
Definition to_uint64 : Z -> Z := wrap_unsigned 64.
Definition to_size_t : Z -> Z := wrap_unsigned 64.
Definition to_uint32 : Z -> Z := wrap_unsigned 32.
Definition to_uint16 : Z -> Z := wrap_unsigned 16.

Definition in_int (z : Z) : Prop := - 2 ^ 31 <= z < 2 ^ 31.
Definition in_int64 (z : Z) : Prop := - 2 ^ 63 <= z < 2 ^ 63.
Definition in_size_t (z : Z) : Prop := 0 <= z < 2 ^ 64.

Definition INT64_MAX : Z := 2 ^ 63 - 1.

(** [std::vector<float>::max_size()]: [PTRDIFF_MAX / sizeof(float)]. *)
Definition vector_max_size : Z := INT64_MAX / 4.

End Int.

(** ** Helper functions *)

(** [static inline size_t wrapIndex(int64_t idx, size_t size)].  [%] on
    [int64_t] truncates towards zero ([Z.rem]). *)
Definition wrapIndex (idx size : Z) : Z :=
  if size =? 0 then 0
  else
    let m := Z.rem idx (Int.to_int64 size) in
    let m := if m <? 0 then Int.to_int64 (m + Int.to_int64 size) else m in
    Int.to_size_t m.

(** ** binary32 arithmetic *)

Definition float : Type := spec_float.

Module F32.

Definition prec : Z := 24.
Definition emax : Z := 128.

Definition add : float -> float -> float := SFadd prec emax.
Definition sub : float -> float -> float := SFsub prec emax.
Definition mul : float -> float -> float := SFmul prec emax.
Definition div : float -> float -> float := SFdiv prec emax.

(** [a < b], [a <= b], [a >= b] on floats; all false on NaN. *)
Definition ltb : float -> float -> bool := SFltb.
Definition leb : float -> float -> bool := SFleb.
Definition geb (a b : float) : bool := SFleb b a.

(** [(float)z] for an integer [z]. *)
Definition of_Z (z : Z) : float := binary_normalize prec emax z 0 false.

(** The literal [n/d] written in decimal with an [f] suffix: the binary32
    number nearest to the quotient. *)
Definition lit (n d : Z) : float := div (of_Z n) (of_Z d).

Definition zero : float := S754_zero false.
Definition one : float := of_Z 1.

(** [std::floor] on a float: the result is again a float. *)
Definition floor (x : float) : float :=
  match x with
  | S754_finite s m e =>
      if 0 <=? e then x
      else binary_normalize prec emax
             ((if s then Z.neg m else Z.pos m) / 2 ^ (- e)) 0 s
  | _ => x
  end.

(** [(int)x]: truncation towards zero; not defined on NaN, infinities and
    values outside the range of [int]. *)
Definition to_int (x : float) : option Z :=
  match x with
  | S754_zero _ => Some 0
  | S754_finite s m e =>
      let z := if 0 <=? e then (if s then Z.neg m else Z.pos m) * 2 ^ e
               else Z.quot (if s then Z.neg m else Z.pos m) (2 ^ (- e)) in
      if (- 2 ^ 31 <=? z) && (z <? 2 ^ 31) then Some z else None
  | _ => None
  end.

(** [std::max(a, b)] is [(a < b) ? b : a]; [std::min(a, b)] is
    [(b < a) ? b : a]. *)
Definition max (a b : float) : float := if ltb a b then b else a.
Definition min (a b : float) : float := if ltb b a then b else a.

End F32.

Definition clamp01 (v : float) : float :=
  F32.max F32.zero (F32.min F32.one v).

Definition clampf (v lo hi : float) : float :=
  F32.max lo (F32.min hi v).

(** ** Configuration constants *)

Definition MAG_GAIN : float := F32.lit 140 1.
Definition FRAMES_PER_BUFFER : Z := 256.
Definition MAX_HISTORY_LINES : Z := 560.

Definition getNumFrequencies (FFT_SIZE : Z) : Z := Z.quot FFT_SIZE 2.

(** ** Audio file reading *)

(** [struct WAVFile]: [audioData] holds mono samples, one per frame. *)
Record WAVFile : Type := mkWAVFile {
  audioData : list float;
  sampleRate : Z;
  sourceChannels : Z;
  numChannels : Z;
  bitsPerSample : Z
}.

(** What libsndfile fills into [SF_INFO] when a file opens. *)
Record SF_INFO : Type := mkSF_INFO {
  frames : Z;
  samplerate : Z;
  channels : Z
}.

(** What the decoder does with the file on disk: [sf_open] fails, or it
    succeeds with [sfinfo] and [sf_readf_float] then returns [framesRead]
    after filling the interleaved [buffer]. *)
Inductive sndfile : Type :=
  | sf_open_failed
  | sf_opened (sfinfo : SF_INFO) (framesRead : Z) (buffer : list float).

(** A read whose index the code keeps in range, by a bounds test or by the
    size it gave the vector, so that the default is never returned. *)
Definition at_index (v : list float) (i : Z) : float :=
  default F32.zero (v !! Z.to_nat i).

(** The downmix loop of [load]: frame [i] becomes the mean over its
    [sourceChannels] interleaved samples. *)
Definition downmix_frame (buffer : list float) (sourceChannels : Z) (i : nat) : float :=
  let sum :=
    foldl
      (fun sum ch => F32.add sum (at_index buffer (Z.of_nat i * sourceChannels + Z.of_nat ch)))
      F32.zero (seq 0 (Z.to_nat (Int.to_int sourceChannels))) in
  F32.div sum (F32.of_Z sourceChannels).

(** [bool WAVFile::load(const std::string& filename)]: the result and the
    object afterwards. *)
Definition load (w : WAVFile) (file : sndfile) : bool * WAVFile :=
  match file with
  | sf_open_failed => (false, w)
  | sf_opened sfinfo framesRead buffer =>
      let sampleRate' := Int.to_uint32 (samplerate sfinfo) in
      let sourceChannels' := Int.to_uint16 (channels sfinfo) in
      let w1 := mkWAVFile (audioData w) sampleRate' sourceChannels' 1 (bitsPerSample w) in
      if framesRead <=? 0 then (false, w1)
      else
        let mono := map (downmix_frame buffer sourceChannels') (seq 0 (Z.to_nat framesRead)) in
        (true, mkWAVFile mono sampleRate' sourceChannels' 1 (bitsPerSample w))
  end.

(** ** Colormaps *)

Inductive ColormapType : Type :=
  | COLORMAP_VIRIDIS | COLORMAP_PLASMA | COLORMAP_INFERNO | COLORMAP_MAGMA
  | COLORMAP_HOT | COLORMAP_COOL | COLORMAP_JET | COLORMAP_TURBO
  | COLORMAP_OCEAN | COLORMAP_RAINBOW | COLORMAP_GRAYSCALE | COLORMAP_ICE
  | COLORMAP_FIRE | COLORMAP_SEISMIC | COLORMAP_TWILIGHT | COLORMAP_CIVIDIS.

Record ColormapPoint : Type := mkPoint {
  position : float;
  r : float;
  g : float;
  b : float
}.

(** The three outputs [r], [g], [b] passed by reference. *)
Definition RGB : Type := (float * float * float)%type.

Definition rgb_of (p : ColormapPoint) : RGB := (r p, g p, b p).

(** [a + t * (b - a)] *)
Definition lerp (a b t : float) : float := F32.add a (F32.mul t (F32.sub b a)).

(** The search loop of [getColormapColor], [n] iterations left from index
    [i].  [&&] evaluates its right operand only when the left one holds. *)
Fixpoint colormap_search (points : list ColormapPoint) (n i : nat)
    (value : float) (rgb : RGB) : option RGB :=
  match n with
  | O => Some rgb
  | S n' =>
      p0 ← points !! i;
      if F32.geb value (position p0) then
        p1 ← points !! S i;
        if F32.leb value (position p1) then
          let t := F32.div (F32.sub value (position p0))
                           (F32.sub (position p1) (position p0)) in
          Some (lerp (r p0) (r p1) t, lerp (g p0) (g p1) t, lerp (b p0) (b p1) t)
        else colormap_search points n' (S i) value rgb
      else colormap_search points n' (S i) value rgb
  end.

(** [getColormapColor(points, numPoints, value, r, g, b)]: the outputs
    afterwards, given what they held before; [None] when an index falls
    outside the table. *)
Definition getColormapColor (points : list ColormapPoint) (numPoints : Z)
    (value : float) (rgb : RGB) : option RGB :=
  let value := clamp01 value in
  p0 ← points !! 0%nat;
  if F32.leb value (position p0) then Some (rgb_of p0)
  else
    (if 0 <=? numPoints - 1 then Some tt else None) ;;
    pl ← points !! Z.to_nat (numPoints - 1);
    if F32.geb value (position pl) then Some (rgb_of pl)
    else colormap_search points (Z.to_nat (numPoints - 1)) 0 value rgb.

(** A control point with its four components in thousandths. *)
Definition cp (pos r1000 g1000 b1000 : Z) : ColormapPoint :=
  mkPoint (F32.lit pos 1000) (F32.lit r1000 1000) (F32.lit g1000 1000)
          (F32.lit b1000 1000).

Definition viridisMap : list ColormapPoint :=
  [cp 0 267 5 329; cp 250 283 141 458; cp 500 128 567 551;
   cp 750 369 788 383; cp 1000 993 906 144].

Definition plasmaMap : list ColormapPoint :=
  [cp 0 51 29 528; cp 250 507 6 658; cp 500 849 203 478;
   cp 750 966 544 235; cp 1000 940 976 131].

Definition infernoMap : list ColormapPoint :=
  [cp 0 1 0 14; cp 250 258 39 407; cp 500 610 157 379;
   cp 750 941 459 153; cp 1000 988 998 645].

Definition magmaMap : list ColormapPoint :=
  [cp 0 1 0 14; cp 250 282 88 472; cp 500 717 215 475;
   cp 750 989 527 384; cp 1000 987 991 750].

Definition hotMap : list ColormapPoint :=
  [cp 0 0 0 0; cp 375 1000 0 0; cp 750 1000 1000 0; cp 1000 1000 1000 1000].

Definition coolMap : list ColormapPoint :=
  [cp 0 0 1000 1000; cp 500 500 500 1000; cp 1000 1000 0 1000].

Definition jetMap : list ColormapPoint :=
  [cp 0 0 0 500; cp 125 0 0 1000; cp 375 0 1000 1000;
   cp 625 1000 1000 0; cp 875 1000 0 0; cp 1000 500 0 0].

Definition turboMap : list ColormapPoint :=
  [cp 0 190 70 230; cp 130 90 440 710; cp 250 110 640 850;
   cp 380 250 830 780; cp 500 520 900 520; cp 630 830 890 210;
   cp 750 990 720 150; cp 880 990 380 120; cp 1000 900 150 120].

Definition oceanMap : list ColormapPoint :=
  [cp 0 0 500 0; cp 500 0 500 1000; cp 1000 1000 1000 1000].

Definition rainbowMap : list ColormapPoint :=
  [cp 0 500 0 1000; cp 160 0 0 1000; cp 330 0 1000 1000; cp 500 0 1000 0;
   cp 660 1000 1000 0; cp 830 1000 500 0; cp 1000 1000 0 0].

Definition grayscaleMap : list ColormapPoint :=
  [cp 0 0 0 0; cp 1000 1000 1000 1000].

Definition iceMap : list ColormapPoint :=
  [cp 0 0 0 200; cp 500 0 500 1000; cp 1000 1000 1000 1000].

Definition fireMap : list ColormapPoint :=
  [cp 0 0 0 0; cp 330 500 0 0; cp 660 1000 500 0; cp 1000 1000 1000 500].

Definition seismicMap : list ColormapPoint :=
  [cp 0 0 0 300; cp 250 0 0 1000; cp 500 1000 1000 1000;
   cp 750 1000 0 0; cp 1000 500 0 0].

Definition twilightMap : list ColormapPoint :=
  [cp 0 886 859 937; cp 250 329 153 533; cp 500 51 39 90;
   cp 750 345 537 686; cp 1000 886 859 937].

Definition cividisMap : list ColormapPoint :=
  [cp 0 0 135 304; cp 250 184 310 424; cp 500 467 479 408;
   cp 750 796 674 424; cp 1000 992 906 574].

(** The table and the point count each [case] of [getCurrentColormapColor]
    passes on. *)
Definition colormap_table (c : ColormapType) : list ColormapPoint * Z :=
  match c with
  | COLORMAP_VIRIDIS => (viridisMap, 5)
  | COLORMAP_PLASMA => (plasmaMap, 5)
  | COLORMAP_INFERNO => (infernoMap, 5)
  | COLORMAP_MAGMA => (magmaMap, 5)
  | COLORMAP_HOT => (hotMap, 4)
  | COLORMAP_COOL => (coolMap, 3)
  | COLORMAP_JET => (jetMap, 6)
  | COLORMAP_TURBO => (turboMap, 9)
  | COLORMAP_OCEAN => (oceanMap, 3)
  | COLORMAP_RAINBOW => (rainbowMap, 7)
  | COLORMAP_GRAYSCALE => (grayscaleMap, 2)
  | COLORMAP_ICE => (iceMap, 3)
  | COLORMAP_FIRE => (fireMap, 4)
  | COLORMAP_SEISMIC => (seismicMap, 5)
  | COLORMAP_TWILIGHT => (twilightMap, 5)
  | COLORMAP_CIVIDIS => (cividisMap, 5)
  end.

(** [getCurrentColormapColor(value, r, g, b)] with [currentColormap] passed
    in. *)
Definition getCurrentColormapColor (currentColormap : ColormapType)
    (value : float) (rgb : RGB) : option RGB :=
  let '(points, numPoints) := colormap_table currentColormap in
  getColormapColor points numPoints value rgb.

(** ** Audio callback *)

(** The globals the audio thread reads, and the one it writes. *)
Record Playback : Type := mkPlayback {
  wavFile : WAVFile;
  playbackPosition : Z;
  isPaused : bool;
  loopAudio : bool;
  volume : float;
  gOutputChannels : Z
}.

(** [for (int ch = 0; ch < outCh; ch++) out[i * outCh + ch] = s;] *)
Definition write_frame (out : list float) (i outCh : nat) (s : float) : list float :=
  foldl (fun out ch => <[(i * outCh + ch)%nat := s]> out) out (seq 0 outCh).

(** One iteration of the frame loop of [audioCallback], on the output
    buffer and the local [pos]. *)
Definition audio_frame (G : Playback) (N : Z) (outCh : nat)
    (st : list float * Z) (i : nat) : list float * Z :=
  let '(out, pos) := st in
  if isPaused G || (N =? 0) then (write_frame out i outCh F32.zero, pos)
  else if pos <? N then
    let s := F32.mul (at_index (audioData (wavFile G)) pos) (volume G) in
    (write_frame out i outCh s, Int.to_uint64 (pos + 1))
  else if loopAudio G then
    let pos := 0 in
    let s := F32.mul (at_index (audioData (wavFile G)) 0) (volume G) in
    (write_frame out i outCh s, Int.to_uint64 (pos + 1))
  else (write_frame out i outCh F32.zero, pos).

(** [audioCallback(inputBuffer, outputBuffer, framesPerBuffer, ...)]: the
    output buffer and the globals afterwards (the return value is always
    [paContinue]). *)
Definition audioCallback (G : Playback) (outputBuffer : list float)
    (framesPerBuffer : Z) : list float * Playback :=
  let N := Z.of_nat (length (audioData (wavFile G))) in
  let outCh := Z.to_nat (Z.max 1 (gOutputChannels G)) in
  let '(out, pos) :=
    foldl (audio_frame G N outCh) (outputBuffer, playbackPosition G)
          (seq 0 (Z.to_nat framesPerBuffer)) in
  (out, mkPlayback (wavFile G) pos (isPaused G) (loopAudio G) (volume G)
                   (gOutputChannels G)).

(** ** Latency-compensated analysis window *)

(** [gLatencySamplesBase = outLatencySamples + FRAMES_PER_BUFFER;] in
    [startAudio], from the latency the driver reports, in samples. *)
Definition startAudio_gLatencySamplesBase (outLatencySamples : Z) : Z :=
  Int.to_int (outLatencySamples + FRAMES_PER_BUFFER).

(** Where [processAudioFrameSynced] takes the FFT input from. *)
Inductive fft_source : Type :=
  | NoSource
  | ZeroPadded (N : Z)
  | Circular (start : Z) (idx : list Z).

(** [processAudioFrameSynced()] up to the choice of the samples that enter
    the transform, [samples] being [wavFile.audioData]: nothing on an empty
    buffer, samples [0 .. N-1] followed by zeros on a short one, else slot
    [i] reads sample [idx !! i].  The Hann window and the transform that
    follow work on these samples. *)
Definition processAudioFrameSynced (samples : list float)
    (playbackPosition gLatencySamplesBase gLatencyAdjust FFT_SIZE : Z) : fft_source :=
  let N := Z.of_nat (length samples) in
  if N =? 0 then NoSource
  else
    let writeHead := Int.to_int64 playbackPosition in
    let latencySamples := Int.to_int64 (Int.to_int (gLatencySamplesBase + gLatencyAdjust)) in
    let fftWindowCenter := Int.to_int64 (Z.quot FFT_SIZE 2) in
    let playHeadEstimate :=
      Int.to_int64 (Int.to_int64 (writeHead - latencySamples) - fftWindowCenter) in
    if N <? Int.to_size_t FFT_SIZE then ZeroPadded N
    else
      let start := wrapIndex playHeadEstimate N in
      Circular start
        (map (fun i => Int.to_size_t (start + Z.of_nat i) mod N)
             (seq 0 (Z.to_nat FFT_SIZE))).

(** ** Line builder *)

Section LineBuilder.

(** [std::log10] on floats, from the C library. *)
Variable log10f : float -> float.

(** The body of the bar loop of [buildCurrentLine]: the value stored in
    [currentLine[i]]; [None] when a conversion or an index is undefined. *)
Definition bar_value (FFT_SIZE : Z) (magnitudes : list float) (binF : float) : option float :=
  let logDen := log10f (F32.add F32.one MAG_GAIN) in
  bin0 ← F32.to_int (F32.floor binF);
  let frac := F32.sub binF (F32.of_Z bin0) in
  let bin0 := Z.max 0 (Z.min (Int.to_int (getNumFrequencies FFT_SIZE - 2)) bin0) in
  let bin1 := Int.to_int (bin0 + 1) in
  (if 0 <=? bin1 then Some tt else None) ;;
  m0 ← magnitudes !! Z.to_nat bin0;
  m1 ← magnitudes !! Z.to_nat bin1;
  let m := F32.add (F32.mul m0 (F32.sub F32.one frac)) (F32.mul m1 frac) in
  let v := F32.div (log10f (F32.add F32.one (F32.mul m MAG_GAIN))) logDen in
  Some (clamp01 v).

(** [buildCurrentLine()]: [currentLine] afterwards. *)
Definition buildCurrentLine (NUM_BARS FFT_SIZE : Z)
    (magnitudes gBarBinF currentLine : list float) : option (list float) :=
  foldl
    (fun line i =>
       line ← line;
       binF ← gBarBinF !! i;
       v ← bar_value FFT_SIZE magnitudes binF;
       if decide (i < length line)%nat then Some (<[i := v]> line) else None)
    (Some currentLine) (seq 0 (Z.to_nat NUM_BARS)).

End LineBuilder.

(** ** History ring *)

Record History : Type := mkHistory {
  lineHistory : list float;
  historyFillCount : Z;
  HISTORY_LINES : Z
}.

(** [memmove]/[memcpy] of [n] floats from [src + s] to [dst + d]; the source
    is read as it was before the call. *)
Definition copy_floats (dst : list float) (d : nat) (src : list float) (s n : nat) : list float :=
  take d dst ++ take n (drop s src) ++ drop (d + n) dst.

(** [pushLineToHistory()].  The byte count of the [memmove] is computed in
    [size_t]. *)
Definition pushLineToHistory (NUM_BARS : Z) (currentLine : list float) (h : History) : History :=
  let bytes := Int.to_size_t (4 * Int.to_size_t (HISTORY_LINES h - 1) * Int.to_size_t NUM_BARS) in
  let moved :=
    copy_floats (lineHistory h) (Z.to_nat NUM_BARS) (lineHistory h) 0 (Z.to_nat (bytes / 4)) in
  let stored := copy_floats moved 0 currentLine 0 (Z.to_nat NUM_BARS) in
  mkHistory stored
    (if historyFillCount h <? HISTORY_LINES h
     then Int.to_int (historyFillCount h + 1) else historyFillCount h)
    (HISTORY_LINES h).

(** The "Clear Visualization" button, on the history. *)
Definition clearHistory (h : History) : History :=
  mkHistory (replicate (length (lineHistory h)) F32.zero) 0 (HISTORY_LINES h).

(** The "Number of Lines" input: [HISTORY_LINES] receives the typed value
    [n], then
    [HISTORY_LINES = (int)clampf((float)HISTORY_LINES, 10.0f, (float)MAX_HISTORY_LINES)]. *)
Definition setHistoryLines (n : Z) (h : History) : option History :=
  lines ← F32.to_int (clampf (F32.of_Z n) (F32.lit 10 1) (F32.of_Z MAX_HISTORY_LINES));
  Some (mkHistory (lineHistory h) (historyFillCount h) lines).

(** [effectiveHistory] as [renderTraditionalSpectrogram] derives it from the
    fill counter. *)
Definition effectiveHistory (h : History) : Z :=
  let e := historyFillCount h in
  let e := if e <=? 0 then 1 else e in
  if HISTORY_LINES h <? e then HISTORY_LINES h else e.

(** Row [k] of the ring: [lineHistory[k * NUM_BARS .. (k + 1) * NUM_BARS)]. *)
Definition history_row (NUM_BARS : Z) (h : History) (k : nat) : list float :=
  take (Z.to_nat NUM_BARS) (drop (k * Z.to_nat NUM_BARS) (lineHistory h)).

(** One analysis cycle per line: [currentLine] is set, then pushed. *)
Definition push_lines (NUM_BARS : Z) (lines : list (list float)) (h : History) : History :=
  foldl (fun h line => pushLineToHistory NUM_BARS line h) h lines.

(** ** Notions the statements and their proofs use *)

(** [outCh] copies of each sample in turn: the interleaved layout of the
    output buffer. *)
Definition interleave (outCh : nat) (samples : list float) : list float :=
  flat_map (replicate outCh) samples.

(** The sample one frame carries and the position after it, as the
    branches of [audio_frame] choose them. *)
Definition frame_sample (G : Playback) (pos : Z) : float * Z :=
  let N := Z.of_nat (length (audioData (wavFile G))) in
  if isPaused G || (N =? 0) then (F32.zero, pos)
  else if pos <? N then
    (F32.mul (at_index (audioData (wavFile G)) pos) (volume G), Int.to_uint64 (pos + 1))
  else if loopAudio G then
    (F32.mul (at_index (audioData (wavFile G)) 0) (volume G), Int.to_uint64 (0 + 1))
  else (F32.zero, pos).

(** The samples of [k] successive frames from position [pos], and the
    position after them. *)
Fixpoint frames_from (G : Playback) (k : nat) (pos : Z) : list float * Z :=
  match k with
  | O => ([], pos)
  | S k' =>
      let '(s, pos1) := frame_sample G pos in
      let '(rest, pos2) := frames_from G k' pos1 in
      (s :: rest, pos2)
  end.

Definition seek (G : Playback) (pos : Z) : Playback :=
  mkPlayback (wavFile G) pos (isPaused G) (loopAudio G) (volume G) (gOutputChannels G).

(** [stored] is [v] clamped to [0, 1]: [v] itself when it lies strictly
    between the bounds, 0 when [v <= 0] and 1 when [1 <= v].  A NaN, which
    compares with nothing, is stored as 1. *)
Definition clamped_to_unit (v stored : float) : Prop :=
  (F32.ltb F32.zero v = true -> F32.ltb v F32.one = true -> stored = v) /\
  (F32.leb v F32.zero = true -> stored = F32.zero) /\
  (F32.leb F32.one v = true -> stored = F32.one) /\
  (v = S754_nan -> stored = F32.one).

(** The ring is well formed: the depth is a positive [int] and the backing
    store holds at least [HISTORY_LINES] rows of [NUM_BARS] floats. *)
Definition ring_fits (NUM_BARS : Z) (h : History) : Prop :=
  1 <= HISTORY_LINES h < 2 ^ 31 /\
  (Z.to_nat (HISTORY_LINES h) * Z.to_nat NUM_BARS <= length (lineHistory h))%nat.

(** The fill counter does not exceed the depth. *)
Definition fill_bounded (h : History) : Prop :=
  historyFillCount h <= HISTORY_LINES h.

(** The history globals as initialised: [MAX_HISTORY_LINES * NUM_BARS]
    zeros, no line pushed, 140 lines deep. *)
Definition initial_history (NUM_BARS : Z) : History :=
  mkHistory (replicate (Z.to_nat (MAX_HISTORY_LINES * NUM_BARS)) F32.zero) 0 140.

(** What the main loop does to the history: an analysis cycle pushes a
    line, "Clear Visualization" resets it, "Number of Lines" changes the
    depth. *)
Inductive ring_op : Type :=
  | OpPush (line : list float)
  | OpClear
  | OpSetLines (n : Z).

Definition ring_step (NUM_BARS : Z) (op : ring_op) (h : History) : option History :=
  match op with
  | OpPush line => Some (pushLineToHistory NUM_BARS line h)
  | OpClear => Some (clearHistory h)
  | OpSetLines n => setHistoryLines n h
  end.

Fixpoint ring_run (NUM_BARS : Z) (ops : list ring_op) (h : History) : option History :=
  match ops with
  | [] => Some h
  | op :: ops' => h' ← ring_step NUM_BARS op h; ring_run NUM_BARS ops' h'
  end.

(** ** Sample data *)

(** A three-sample buffer played in stereo from position 1. *)
Definition demo_playback : Playback :=
  mkPlayback (mkWAVFile [F32.lit 1 2; F32.lit 1 4; F32.lit 1 8] 44100 2 1 16)
             1 false true F32.one 2.

(** A ring of depth 2 over two bars, backed by three rows of zeros, and
    three distinct lines. *)
Definition demo_history : History := mkHistory (replicate 6 F32.zero) 0 2.

Definition demo_lines : list (list float) :=
  [[F32.lit 1 4; F32.lit 1 4]; [F32.lit 1 2; F32.lit 1 2]; [F32.one; F32.one]].

(** A mono file at 44100 Hz already loaded, and a stereo file at 48000 Hz
    that opens but yields no frame. *)
Definition loaded_wav : WAVFile :=
  mkWAVFile [F32.lit 1 2; F32.lit 1 4] 44100 1 1 16.

Definition empty_stereo_file : sndfile :=
  sf_opened (mkSF_INFO 0 48000 2) 0 [].

(** A four-bin magnitude array (FFT size 8), a two-bar table and a line to
    overwrite.  [log10f] is external: any function can stand for it, here
    the identity. *)
Definition demo_magnitudes : list float :=
  [F32.lit 1 10; F32.lit 2 10; F32.lit 3 10; F32.lit 4 10].

Definition demo_table : list float := [F32.lit 3 2; F32.lit 5 2].

Definition demo_log10 (x : float) : float := x.

(** * Further code *)

(** ** Kinds of floats *)

Definition is_nan (x : float) : bool :=
  match x with S754_nan => true | _ => false end.

(** Zero of either sign; a float that is a number. *)
Definition is_zero (x : float) : bool :=
  match x with S754_zero _ => true | _ => false end.

Definition is_number (x : float) : bool :=
  match x with S754_zero _ | S754_finite _ _ _ => true | _ => false end.

(** A float between 0 and 1, bounds included (so not NaN). *)
Definition unit_float (v : float) : Prop :=
  F32.leb F32.zero v = true /\ F32.leb v F32.one = true.

(** ** Sliders *)

(** [SliderFloatWithWheel(label, v, v_min, v_max, format, wheel_speed)]:
    the result, [*v] afterwards and [sliderConsumedScroll] afterwards.
    [dragged] is what [ImGui::SliderFloat] wrote into [*v] if it changed it,
    [wheel] is [io.MouseWheel] if the item is hovered. *)
Definition SliderFloatWithWheel (dragged wheel : option float)
    (v v_min v_max wheel_speed : float) (sliderConsumedScroll : bool)
    : bool * float * bool :=
  let changed := match dragged with Some _ => true | None => false end in
  let v := match dragged with Some d => d | None => v end in
  match wheel with
  | Some wheel =>
      if negb (SFeqb wheel F32.zero) then
        let range := F32.sub v_max v_min in
        let v := F32.add v (F32.mul (F32.mul wheel range) wheel_speed) in
        (true, clampf v v_min v_max, true)
      else (changed, v, sliderConsumedScroll)
  | None => (changed, v, sliderConsumedScroll)
  end.

(** ** Volume *)

Module Mixer.

(** [volume], [isMuted], [volumeBeforeMute]. *)
Record Mixer : Type := mkMixer {
  volume : float;
  isMuted : bool;
  volumeBeforeMute : float
}.

(** The body of the [M] key handler. *)
Definition toggleMute (m : Mixer) : Mixer :=
  if negb (isMuted m) then mkMixer F32.zero true (volume m)
  else mkMixer (volumeBeforeMute m) false (volumeBeforeMute m).

(** The body of the [+] key handler. *)
Definition volumeUp (m : Mixer) : Mixer :=
  let volume' := clampf (F32.add (volume m) (F32.lit 5 100)) F32.zero F32.one in
  mkMixer volume'
    (if isMuted m && F32.ltb F32.zero volume' then false else isMuted m)
    (volumeBeforeMute m).

(** The body of the [-] key handler. *)
Definition volumeDown (m : Mixer) : Mixer :=
  mkMixer (clampf (F32.sub (volume m) (F32.lit 5 100)) F32.zero F32.one)
    (isMuted m) (volumeBeforeMute m).

(** The volume slider of the full sidebar, with its unmute. *)
Definition volumeSlider (dragged wheel : option float) (m : Mixer) : Mixer :=
  let '(changed, volume', _) :=
    SliderFloatWithWheel dragged wheel (volume m) F32.zero F32.one (F32.lit 5 100) false in
  mkMixer volume'
    (if changed && (isMuted m && F32.ltb F32.zero volume') then false else isMuted m)
    (volumeBeforeMute m).

(** While the mute flag is set the volume is a zero. *)
Definition muted_silent (m : Mixer) : Prop :=
  isMuted m = true -> is_zero (volume m) = true.

End Mixer.

(** ** Camera *)

Module Camera.

(** [gPitch += (float)dy * 0.25f; gPitch = clampf(gPitch, -89.0f, 89.0f);]
    of the drag handler, [dy] already converted to [float]. *)
Definition dragPitch (gPitch dy : float) : float :=
  clampf (F32.add gPitch (F32.mul dy (F32.lit 25 100))) (F32.lit (-89) 1) (F32.lit 89 1).

(** [gDist -= io.MouseWheel * 0.18f; gDist = clampf(gDist, 1.4f, 12.0f);] *)
Definition scrollZoom (gDist wheel : float) : float :=
  clampf (F32.sub gDist (F32.mul wheel (F32.lit 18 100))) (F32.lit 14 10) (F32.lit 12 1).

End Camera.

(** ** Transport *)

Module Transport.

(** The playback globals with [isPlaying], whether [audioStream] is open,
    and [gLatencySamplesBase]. *)
Record Transport : Type := mkTransport {
  playback : Playback;
  isPlaying : bool;
  audioStream : bool;
  gLatencySamplesBase : Z
}.

Definition with_clock (G : Playback) (pos : Z) (paused : bool) : Playback :=
  mkPlayback (wavFile G) pos paused (loopAudio G) (volume G) (gOutputChannels G).

(** [stopAudio()] *)
Definition stopAudio (t : Transport) : Transport :=
  mkTransport (with_clock (playback t) 0 false) false false (gLatencySamplesBase t).

(** What PortAudio answers to [startAudio]: the stream does not open
    ([stream_left] tells whether the call left [audioStream] non-null), it
    opens and does not start, or it starts and reports its output latency,
    here already rounded to samples and converted to [int]. *)
Inductive pa_outcome : Type :=
  | PaOpenFails (stream_left : bool)
  | PaStartFails
  | PaStarted (outLatencySamples : Z).

(** [startAudio()] *)
Definition startAudio (pa : pa_outcome) (t : Transport) : Transport :=
  let G := playback t in
  if (Z.of_nat (length (audioData (wavFile G))) =? 0) then t
  else if audioStream t then t
  else
    let channels := if 2 <=? sourceChannels (wavFile G) then 2 else 1 in
    let G1 := mkPlayback (wavFile G) (playbackPosition G) (isPaused G) (loopAudio G)
                         (volume G) channels in
    match pa with
    | PaOpenFails stream_left =>
        mkTransport G1 (isPlaying t) stream_left (gLatencySamplesBase t)
    | PaStartFails => mkTransport G1 (isPlaying t) true (gLatencySamplesBase t)
    | PaStarted outLatencySamples =>
        mkTransport (with_clock G1 (playbackPosition G1) false) true true
                    (startAudio_gLatencySamplesBase outLatencySamples)
    end.

(** The "Refresh Audio Device" button. *)
Definition refreshAudioDevice (pa : pa_outcome) (t : Transport) : Transport :=
  let wasPlaying := isPlaying t in
  let wasPaused := isPaused (playback t) in
  let currentPos := playbackPosition (playback t) in
  let t1 := stopAudio t in
  if wasPlaying && negb (Z.of_nat (length (audioData (wavFile (playback t1)))) =? 0) then
    let t2 := mkTransport (with_clock (playback t1) currentPos (isPaused (playback t1)))
                          (isPlaying t1) (audioStream t1) (gLatencySamplesBase t1) in
    let t3 := startAudio pa t2 in
    if wasPaused then
      mkTransport (with_clock (playback t3) (playbackPosition (playback t3)) true)
                  (isPlaying t3) (audioStream t3) (gLatencySamplesBase t3)
    else t3
  else t1.

(** The body of the left-arrow handler: five seconds back. *)
Definition seekBackward (G : Playback) : Playback :=
  if Z.of_nat (length (audioData (wavFile G))) =? 0 then G
  else
    let currentPos := Int.to_int64 (playbackPosition G) in
    let seekAmount := Int.to_int64 (Int.to_int64 (sampleRate (wavFile G)) * 5) in
    let newPos := Z.max 0 (Int.to_int64 (currentPos - seekAmount)) in
    with_clock G (Int.to_uint64 newPos) (isPaused G).

(** The body of the right-arrow handler: five seconds on. *)
Definition seekForward (G : Playback) : Playback :=
  if Z.of_nat (length (audioData (wavFile G))) =? 0 then G
  else
    let currentPos := Int.to_int64 (playbackPosition G) in
    let seekAmount := Int.to_int64 (Int.to_int64 (sampleRate (wavFile G)) * 5) in
    let newPos := Z.min (Int.to_int64 (Z.of_nat (length (audioData (wavFile G)))))
                        (Int.to_int64 (currentPos + seekAmount)) in
    with_clock G (Int.to_uint64 newPos) (isPaused G).

(** *** The transport as a whole *)

(** The globals as the program starts: nothing loaded. *)
Definition initial : Transport :=
  mkTransport (mkPlayback (mkWAVFile [] 0 0 1 16) 0 false true F32.one 1) false false 0.

Definition on_playback (f : Playback -> Playback) (t : Transport) : Transport :=
  mkTransport (f (playback t)) (isPlaying t) (audioStream t) (gLatencySamplesBase t).

Definition loaded (t : Transport) : bool :=
  negb (Z.of_nat (length (audioData (wavFile (playback t)))) =? 0).

(** What happens to the transport: the audio thread runs the callback, or
    the user presses a key or a button or opens a file ([pa] is what
    PortAudio would answer to a start, [file] what libsndfile finds). *)
Inductive event : Type :=
  | Callback (outputBuffer : list float) (framesPerBuffer : Z)
  | KeySpace (pa : pa_outcome)
  | KeyR
  | KeyLeft
  | KeyRight
  | ButtonPlayPause (pa : pa_outcome)
  | ButtonStop
  | ButtonRefresh (pa : pa_outcome)
  | ButtonRestart (pa : pa_outcome)
  | OpenFile (file : sndfile).

(** The handler of each event.  The callback runs only on a started stream.
    Opening a file, by drop, by "Browse..." or from the recent list, is
    [stopAudio(); wavFile.load(...)]; what follows a successful load does
    not touch the transport. *)
Definition step (e : event) (t : Transport) : Transport :=
  match e with
  | Callback outputBuffer framesPerBuffer =>
      if isPlaying t
      then on_playback (fun G => snd (audioCallback G outputBuffer framesPerBuffer)) t
      else t
  | KeySpace pa =>
      if isPlaying t
      then on_playback (fun G => with_clock G (playbackPosition G) (negb (isPaused G))) t
      else if loaded t then startAudio pa t else t
  | KeyR =>
      if isPlaying t then on_playback (fun G => with_clock G 0 (isPaused G)) t else t
  | KeyLeft => on_playback seekBackward t
  | KeyRight => on_playback seekForward t
  | ButtonPlayPause pa =>
      if negb (isPlaying t) then startAudio pa t
      else on_playback (fun G => with_clock G (playbackPosition G) (negb (isPaused G))) t
  | ButtonStop => stopAudio t
  | ButtonRefresh pa => refreshAudioDevice pa t
  | ButtonRestart pa =>
      let t1 := on_playback (fun G => with_clock G 0 (isPaused G)) t in
      if loaded t1 && negb (isPlaying t1) then startAudio pa t1 else t1
  | OpenFile file =>
      on_playback
        (fun G => mkPlayback (snd (load (wavFile G) file)) (playbackPosition G) (isPaused G)
                             (loopAudio G) (volume G) (gOutputChannels G))
        (stopAudio t)
  end.

Definition run (es : list event) (t : Transport) : Transport :=
  foldl (fun t e => step e t) t es.

(** A file whose frames a [std::vector<float>] can hold. *)
Definition fits_vector (e : event) : Prop :=
  match e with
  | OpenFile (sf_opened _ framesRead _) => framesRead <= Int.vector_max_size
  | _ => True
  end.

(** The clock is inside the buffer, and playback is on only with an open
    stream and a loaded file. *)
Definition sound (t : Transport) : Prop :=
  let w := wavFile (playback t) in
  let N := Z.of_nat (length (audioData w)) in
  0 <= playbackPosition (playback t) <= N /\
  N <= Int.vector_max_size /\
  0 <= sampleRate w < 2 ^ 32 /\
  (isPlaying t = true -> audioStream t = true /\ N <> 0).

End Transport.

(** A clip of twelve samples at one sample per second, with the clock on
    sample 6, and the transport playing it, paused. *)
Definition slow_clip : Playback :=
  mkPlayback (mkWAVFile (replicate 12 F32.zero) 1 1 1 16) 6 false false F32.one 1.

Definition paused_transport : Transport.Transport :=
  Transport.mkTransport
    (mkPlayback (mkWAVFile (replicate 12 F32.zero) 1 1 1 16) 6 true false F32.one 1)
    true true 300.

(** [G] with the volume at [+0.0]. *)
Definition at_volume_zero (G : Playback) : Playback :=
  mkPlayback (wavFile G) (playbackPosition G) (isPaused G) (loopAudio G) F32.zero
             (gOutputChannels G).

(** The same clip loaded, with no stream open. *)
Definition stopped_transport : Transport.Transport :=
  Transport.mkTransport slow_clip false false 0.

(** ** Looping playback *)

(** The clock after [k] frames of looping playback from [pos]. *)
Definition loop_clock (N pos : Z) (k : nat) : Z :=
  match k with O => pos | S _ => (pos + Z.of_nat k - 1) mod N + 1 end.

(** ** Analysis cycle *)

(** What the main loop does each frame while playing, after the transform
    has filled [magnitudes]: [buildCurrentLine(); pushLineToHistory();], on
    [currentLine] and the history. *)
Definition analysisCycle (log10f : float -> float) (NUM_BARS FFT_SIZE : Z)
    (magnitudes gBarBinF : list float) (st : list float * History)
    : option (list float * History) :=
  line ← buildCurrentLine log10f NUM_BARS FFT_SIZE magnitudes gBarBinF st.1;
  Some (line, pushLineToHistory NUM_BARS line st.2).

(** ** Frequency mapping in binary32

    [buildFrequencyMapping] and [reinitializeFFT] as the machine runs them:
    every operation rounds to binary32.  [std::pow] is external. *)

Module Rounded.

Section Mapping.

(** [std::pow] on floats, from the C library. *)
Variable powf : float -> float -> float.

Definition MIN_FREQ : float := F32.lit 20 1.
Definition PLANE_SPAN : float := F32.mul (F32.lit 26 10) (F32.of_Z 2).
Definition X_SPAN : float := PLANE_SPAN.

(** [t] of bar [i]. *)
Definition bar_t (NUM_BARS i : Z) : float :=
  if NUM_BARS =? 1 then F32.zero
  else F32.div (F32.of_Z i) (F32.of_Z (Int.to_int (NUM_BARS - 1))).

(** [binF] as stored in [gBarBinF[i]]; [sampleRate] is the [uint32_t] of
    the loaded file. *)
Definition bar_bin (NUM_BARS FFT_SIZE sampleRate i : Z) : float :=
  let sr := F32.of_Z sampleRate in
  let maxFreq := F32.mul sr (F32.lit 5 10) in
  let minF := F32.max MIN_FREQ F32.one in
  let maxF := F32.max (F32.mul minF (F32.lit 1001 1000)) maxFreq in
  let ratio := F32.div maxF minF in
  let t := bar_t NUM_BARS i in
  let freq := F32.mul minF (powf ratio t) in
  let binF := F32.div (F32.mul freq (F32.of_Z FFT_SIZE)) sr in
  F32.max F32.one
    (F32.min binF (F32.of_Z (Int.to_int (getNumFrequencies FFT_SIZE - 2)))).

Record FrequencyMap : Type := mkFrequencyMap {
  gBarBinF : list float;
  gBarX : list float;
  gBarHue : list float
}.

(** [buildFrequencyMapping()]: the first [NUM_BARS] entries of the three
    tables. *)
Definition buildFrequencyMapping (NUM_BARS FFT_SIZE sampleRate : Z) : FrequencyMap :=
  let bars := map Z.of_nat (seq 0 (Z.to_nat NUM_BARS)) in
  mkFrequencyMap
    (map (bar_bin NUM_BARS FFT_SIZE sampleRate) bars)
    (map (fun i => F32.add (F32.mul (SFopp X_SPAN) (F32.lit 5 10))
                           (F32.mul (bar_t NUM_BARS i) X_SPAN)) bars)
    (map (fun i => F32.mul (bar_t NUM_BARS i) (F32.lit 66 100)) bars).

(** [std::vector<float>::resize(n, x)] *)
Definition resize (n : nat) (x : float) (v : list float) : list float :=
  take n v ++ replicate (n - length v) x.

(** The analyzer's buffers that [reinitializeFFT] touches: [magnitudes] and
    the mapping tables.  The FFTW plan and its two buffers are allocated for
    [FFT_SIZE] inputs and [FFT_SIZE / 2 + 1] outputs and hold no data yet. *)
Record Analyzer : Type := mkAnalyzer {
  magnitudes : list float;
  tables : FrequencyMap
}.

(** [reinitializeFFT()] with the new [FFT_SIZE] already stored; [loaded]
    tells whether [wavFile.audioData] is non-empty. *)
Definition reinitializeFFT (NUM_BARS FFT_SIZE sampleRate : Z) (loaded : bool)
    (a : Analyzer) : Analyzer :=
  let magnitudes' := resize (Z.to_nat (getNumFrequencies FFT_SIZE)) F32.zero (magnitudes a) in
  mkAnalyzer magnitudes'
    (if loaded then buildFrequencyMapping NUM_BARS FFT_SIZE sampleRate else tables a).

End Mapping.

End Rounded.

(** The six entries of the "FFT Size" combo. *)
Definition fftSizes : list Z := [512; 1024; 2048; 4096; 8192; 16384].

(** ** View and colour settings

    The settings that the 2D/3D toggle saves and restores, and the sidebar
    handlers that write them. *)

Module View.

(** The ten settings: the globals of these names, and with the prefix
    [saved3D_] their saved copies. *)
Record Look : Type := mkLook {
  FFT_SIZE : Z;
  HISTORY_LINES : Z;
  lineWidth : float;
  yScale : float;
  yOffset : float;
  showGrid : bool;
  autoRotate : bool;
  useCustomLineColor : bool;
  useColormap : bool;
  currentColormap : ColormapType
}.

Record Settings : Type := mkSettings {
  useTraditionalView : bool;
  live : Look;
  saved3D : Look;
  colorLUTDirty : bool
}.

(** The static initialisers. *)
Definition initial : Settings :=
  mkSettings false
    (mkLook 4096 140 F32.one (F32.lit 120 100) F32.zero false false true false COLORMAP_INFERNO)
    (mkLook 4096 140 F32.one (F32.lit 120 100) F32.zero true false true false COLORMAP_VIRIDIS)
    true.

(** Assignments to the first seven settings, and to the three colour
    settings. *)
Definition set_seven (fft lines : Z) (lw ys yo : float) (grid rot : bool) (l : Look) : Look :=
  mkLook fft lines lw ys yo grid rot (useCustomLineColor l) (useColormap l) (currentColormap l).

Definition set_colours (custom cmap : bool) (c : ColormapType) (l : Look) : Look :=
  mkLook (FFT_SIZE l) (HISTORY_LINES l) (lineWidth l) (yScale l) (yOffset l)
         (showGrid l) (autoRotate l) custom cmap c.

(** [saved3D_FFT_SIZE = FFT_SIZE; ... saved3D_autoRotate = autoRotate;] *)
Definition save_seven (from to : Look) : Look :=
  set_seven (FFT_SIZE from) (HISTORY_LINES from) (lineWidth from) (yScale from)
            (yOffset from) (showGrid from) (autoRotate from) to.

(** [saved3D_useCustomLineColor = useCustomLineColor; ...] *)
Definition save_colours (from to : Look) : Look :=
  set_colours (useCustomLineColor from) (useColormap from) (currentColormap from) to.

(** [FFT_SIZE = 16384; HISTORY_LINES = 560; lineWidth = 1.0f; yScale = 1.0f;
    yOffset = 0.0f; showGrid = false; autoRotate = false;] *)
Definition lock_seven (l : Look) : Look :=
  set_seven 16384 560 F32.one F32.one F32.zero false false l.

(** The "2D Heat Map" checkbox of the full sidebar, after ImGui has flipped
    [useTraditionalView]. *)
Definition toggleView (s : Settings) : Settings :=
  if negb (useTraditionalView s) then
    let saved1 := save_seven (live s) (saved3D s) in
    let live1 := lock_seven (live s) in
    let saved2 := save_colours live1 saved1 in
    let live2 := set_colours false true (currentColormap live1) live1 in
    mkSettings true live2 saved2 true
  else
    mkSettings false
      (mkLook (FFT_SIZE (saved3D s)) (HISTORY_LINES (saved3D s)) (lineWidth (saved3D s))
              (yScale (saved3D s)) (yOffset (saved3D s)) (showGrid (saved3D s))
              (autoRotate (saved3D s)) (useCustomLineColor (saved3D s))
              (useColormap (saved3D s)) (currentColormap (saved3D s)))
      (saved3D s) true.

(** The 2D/3D checkbox of the compact sidebar: the same assignments in
    another order. *)
Definition toggleViewCompact (s : Settings) : Settings :=
  let temp2D := negb (useTraditionalView s) in
  if temp2D then
    let saved1 := save_seven (live s) (saved3D s) in
    let saved2 := save_colours (live s) saved1 in
    let live1 := set_colours false true (currentColormap (live s)) (live s) in
    let live2 := lock_seven live1 in
    mkSettings temp2D live2 saved2 true
  else
    mkSettings temp2D
      (mkLook (FFT_SIZE (saved3D s)) (HISTORY_LINES (saved3D s)) (lineWidth (saved3D s))
              (yScale (saved3D s)) (yOffset (saved3D s)) (showGrid (saved3D s))
              (autoRotate (saved3D s)) (useCustomLineColor (saved3D s))
              (useColormap (saved3D s)) (currentColormap (saved3D s)))
      (saved3D s) true.

(** *** The "FFT Size" combo *)

Definition currentFFTIndex (fft : Z) : Z :=
  if fft =? 512 then 0
  else if fft =? 1024 then 1
  else if fft =? 2048 then 2
  else if fft =? 4096 then 3
  else if fft =? 8192 then 4
  else if fft =? 16384 then 5
  else 0.

(** The [switch] on the index: no case, no assignment. *)
Definition switchFFT (index fft : Z) : Z :=
  match index with
  | 0 => 512 | 1 => 1024 | 2 => 2048 | 3 => 4096 | 4 => 8192 | 5 => 16384
  | _ => fft
  end.

(** [FFT_SIZE = ...; reinitializeFFT(); saved3D_FFT_SIZE = FFT_SIZE;] on
    the settings. *)
Definition chooseFFT (index : Z) (s : Settings) : Settings :=
  let fft := switchFFT index (FFT_SIZE (live s)) in
  let l := live s in
  let sv := saved3D s in
  mkSettings (useTraditionalView s)
    (set_seven fft (HISTORY_LINES l) (lineWidth l) (yScale l) (yOffset l)
               (showGrid l) (autoRotate l) l)
    (set_seven fft (HISTORY_LINES sv) (lineWidth sv) (yScale sv) (yOffset sv)
               (showGrid sv) (autoRotate sv) sv)
    (colorLUTDirty s).

(** [index--; if (index < 0) index = n - 1;] and
    [index++; if (index >= n) index = 0;] on an [int]. *)
Definition prevIndex (n index : Z) : Z :=
  let index := Int.to_int (index - 1) in
  if index <? 0 then n - 1 else index.

Definition nextIndex (n index : Z) : Z :=
  let index := Int.to_int (index + 1) in
  if n <=? index then 0 else index.

Definition fftUp (s : Settings) : Settings :=
  chooseFFT (prevIndex 6 (currentFFTIndex (FFT_SIZE (live s)))) s.

Definition fftDown (s : Settings) : Settings :=
  chooseFFT (nextIndex 6 (currentFFTIndex (FFT_SIZE (live s)))) s.

(** The wheel over the combo: [wheel != 0.0f], then [wheel > 0.0f]. *)
Definition fftWheel (wheel : float) (s : Settings) : Settings :=
  if negb (SFeqb wheel F32.zero) then
    if F32.ltb F32.zero wheel then fftUp s else fftDown s
  else s.

(** *** View controls of the 3D mode *)

Definition gridBox (s : Settings) : Settings :=
  let l := live s in
  let sv := saved3D s in
  let grid := negb (showGrid l) in
  mkSettings (useTraditionalView s)
    (set_seven (FFT_SIZE l) (HISTORY_LINES l) (lineWidth l) (yScale l) (yOffset l)
               grid (autoRotate l) l)
    (set_seven (FFT_SIZE sv) (HISTORY_LINES sv) (lineWidth sv) (yScale sv) (yOffset sv)
               grid (autoRotate sv) sv)
    (colorLUTDirty s).

Definition rotateBox (s : Settings) : Settings :=
  let l := live s in
  let sv := saved3D s in
  let rot := negb (autoRotate l) in
  mkSettings (useTraditionalView s)
    (set_seven (FFT_SIZE l) (HISTORY_LINES l) (lineWidth l) (yScale l) (yOffset l)
               (showGrid l) rot l)
    (set_seven (FFT_SIZE sv) (HISTORY_LINES sv) (lineWidth sv) (yScale sv) (yOffset sv)
               (showGrid sv) rot sv)
    (colorLUTDirty s).

(** "Number of Lines": the typed [int], then
    [HISTORY_LINES = (int)clampf((float)HISTORY_LINES, 10.0f, (float)MAX_HISTORY_LINES)]. *)
Definition linesInput (typed : Z) (s : Settings) : option Settings :=
  lines ← F32.to_int (clampf (F32.of_Z typed) (F32.lit 10 1) (F32.of_Z MAX_HISTORY_LINES));
  let l := live s in
  let sv := saved3D s in
  Some (mkSettings (useTraditionalView s)
    (set_seven (FFT_SIZE l) lines (lineWidth l) (yScale l) (yOffset l)
               (showGrid l) (autoRotate l) l)
    (set_seven (FFT_SIZE sv) lines (lineWidth sv) (yScale sv) (yOffset sv)
               (showGrid sv) (autoRotate sv) sv)
    (colorLUTDirty s)).

(** "Line Width": the typed float, clamped to [0.1, 10]. *)
Definition lineWidthInput (typed : float) (s : Settings) : Settings :=
  let l := live s in
  let sv := saved3D s in
  let lw := clampf typed (F32.lit 1 10) (F32.lit 10 1) in
  mkSettings (useTraditionalView s)
    (set_seven (FFT_SIZE l) (HISTORY_LINES l) lw (yScale l) (yOffset l)
               (showGrid l) (autoRotate l) l)
    (set_seven (FFT_SIZE sv) (HISTORY_LINES sv) lw (yScale sv) (yOffset sv)
               (showGrid sv) (autoRotate sv) sv)
    (colorLUTDirty s).

(** The two Y sliders: [v] is what the slider left in the variable. *)
Definition yScaleSlider (v : float) (s : Settings) : Settings :=
  let l := live s in
  let sv := saved3D s in
  mkSettings (useTraditionalView s)
    (set_seven (FFT_SIZE l) (HISTORY_LINES l) (lineWidth l) v (yOffset l)
               (showGrid l) (autoRotate l) l)
    (set_seven (FFT_SIZE sv) (HISTORY_LINES sv) (lineWidth sv) v (yOffset sv)
               (showGrid sv) (autoRotate sv) sv)
    (colorLUTDirty s).

Definition yOffsetSlider (v : float) (s : Settings) : Settings :=
  let l := live s in
  let sv := saved3D s in
  mkSettings (useTraditionalView s)
    (set_seven (FFT_SIZE l) (HISTORY_LINES l) (lineWidth l) (yScale l) v
               (showGrid l) (autoRotate l) l)
    (set_seven (FFT_SIZE sv) (HISTORY_LINES sv) (lineWidth sv) (yScale sv) v
               (showGrid sv) (autoRotate sv) sv)
    (colorLUTDirty s).

(** *** Colours *)

(** "Use Custom Line Color", after ImGui has flipped the flag. *)
Definition customColorBox (s : Settings) : Settings :=
  let l := live s in
  if negb (useCustomLineColor l) then
    mkSettings (useTraditionalView s) (set_colours true false (currentColormap l) l)
               (saved3D s) (colorLUTDirty s)
  else
    mkSettings (useTraditionalView s) (set_colours false true COLORMAP_VIRIDIS l)
               (saved3D s) true.

(** "Use Colormap", after ImGui has flipped the flag. *)
Definition colormapBox (s : Settings) : Settings :=
  let l := live s in
  if negb (useColormap l) then
    mkSettings (useTraditionalView s) (set_colours false true COLORMAP_VIRIDIS l)
               (saved3D s) true
  else
    mkSettings (useTraditionalView s) (set_colours true false (currentColormap l) l)
               (saved3D s) (colorLUTDirty s).

(** [(int)currentColormap] and [(ColormapType)index]. *)
Definition colormaps : list ColormapType :=
  [COLORMAP_VIRIDIS; COLORMAP_PLASMA; COLORMAP_INFERNO; COLORMAP_MAGMA;
   COLORMAP_HOT; COLORMAP_COOL; COLORMAP_JET; COLORMAP_TURBO;
   COLORMAP_OCEAN; COLORMAP_RAINBOW; COLORMAP_GRAYSCALE; COLORMAP_ICE;
   COLORMAP_FIRE; COLORMAP_SEISMIC; COLORMAP_TWILIGHT; COLORMAP_CIVIDIS].

Definition presetIndex (c : ColormapType) : Z :=
  match c with
  | COLORMAP_VIRIDIS => 0 | COLORMAP_PLASMA => 1 | COLORMAP_INFERNO => 2
  | COLORMAP_MAGMA => 3 | COLORMAP_HOT => 4 | COLORMAP_COOL => 5
  | COLORMAP_JET => 6 | COLORMAP_TURBO => 7 | COLORMAP_OCEAN => 8
  | COLORMAP_RAINBOW => 9 | COLORMAP_GRAYSCALE => 10 | COLORMAP_ICE => 11
  | COLORMAP_FIRE => 12 | COLORMAP_SEISMIC => 13 | COLORMAP_TWILIGHT => 14
  | COLORMAP_CIVIDIS => 15
  end.

(** [currentColormap = (ColormapType)currentPresetIndex; colorLUTDirty = true;]
    [None] when the index names no colormap. *)
Definition choosePreset (index : Z) (s : Settings) : option Settings :=
  (if 0 <=? index then Some tt else None) ;;
  c ← colormaps !! Z.to_nat index;
  let l := live s in
  Some (mkSettings (useTraditionalView s)
          (set_colours (useCustomLineColor l) (useColormap l) c l) (saved3D s) true).

Definition presetUp (s : Settings) : option Settings :=
  choosePreset (prevIndex 16 (presetIndex (currentColormap (live s)))) s.

Definition presetDown (s : Settings) : option Settings :=
  choosePreset (nextIndex 16 (presetIndex (currentColormap (live s)))) s.

Definition presetWheel (wheel : float) (s : Settings) : option Settings :=
  if negb (SFeqb wheel F32.zero) then
    if F32.ltb F32.zero wheel then presetUp s else presetDown s
  else Some s.

(** "Reset Colors", on the settings ([lineColor] and [bgColor] are not part
    of them). *)
Definition resetColors (s : Settings) : Settings :=
  mkSettings (useTraditionalView s) (set_colours true false COLORMAP_VIRIDIS (live s))
             (saved3D s) true.

(** "Reset All", on the settings (the camera is not part of them). *)
Definition resetAll (s : Settings) : Settings :=
  let l := live s in
  if useTraditionalView s then
    mkSettings true
      (set_colours (useCustomLineColor l) (useColormap l) COLORMAP_RAINBOW (lock_seven l))
      (saved3D s) true
  else
    let l1 := set_seven 4096 140 F32.one (F32.lit 120 100) F32.zero true false l in
    mkSettings false
      (set_colours (useCustomLineColor l1) (useColormap l1) COLORMAP_RAINBOW l1)
      (save_seven l1 (saved3D s)) true.

(** *** The sidebar as a whole *)

(** What the user can do to the settings in one frame. *)
Inductive event : Type :=
  | ViewBox | ViewBoxCompact
  | FftUp | FftDown | FftSelect (n : nat) | FftWheel (wheel : float)
  | GridBox | RotateBox
  | LinesInput (typed : Z) | LineWidthInput (typed : float)
  | YScaleSlider (v : float) | YOffsetSlider (v : float)
  | CustomColorBox | ColormapBox
  | PresetUp | PresetDown | PresetSelect (n : nat) | PresetWheel (wheel : float)
  | ResetColors | ResetAll.

(** The handler of an event.  The 3D controls are drawn in 3D mode only, the
    preset combo only while the colormap is in use, and a combo offers its
    own rows only; elsewhere the event does not occur and nothing changes.
    [None] where a conversion is not defined. *)
Definition step (e : event) (s : Settings) : option Settings :=
  let in3D := negb (useTraditionalView s) in
  let cmap := useColormap (live s) in
  match e with
  | ViewBox => Some (toggleView s)
  | ViewBoxCompact => Some (toggleViewCompact s)
  | FftUp => Some (if in3D then fftUp s else s)
  | FftDown => Some (if in3D then fftDown s else s)
  | FftSelect n => Some (if in3D && (n <? 6)%nat then chooseFFT (Z.of_nat n) s else s)
  | FftWheel wheel => Some (if in3D then fftWheel wheel s else s)
  | GridBox => Some (if in3D then gridBox s else s)
  | RotateBox => Some (if in3D then rotateBox s else s)
  | LinesInput typed => if in3D then linesInput typed s else Some s
  | LineWidthInput typed => Some (if in3D then lineWidthInput typed s else s)
  | YScaleSlider v => Some (if in3D then yScaleSlider v s else s)
  | YOffsetSlider v => Some (if in3D then yOffsetSlider v s else s)
  | CustomColorBox => Some (customColorBox s)
  | ColormapBox => Some (colormapBox s)
  | PresetUp => if cmap then presetUp s else Some s
  | PresetDown => if cmap then presetDown s else Some s
  | PresetSelect n => if cmap && (n <? 16)%nat then choosePreset (Z.of_nat n) s else Some s
  | PresetWheel wheel => if cmap then presetWheel wheel s else Some s
  | ResetColors => Some (resetColors s)
  | ResetAll => Some (resetAll s)
  end.

Fixpoint run (es : list event) (s : Settings) : option Settings :=
  match es with
  | [] => Some s
  | e :: es' => s' ← step e s; run es' s'
  end.

(** Exactly one of the two colour sources is on. *)
Definition one_colour_source (l : Look) : Prop :=
  useCustomLineColor l = negb (useColormap l).

(** What holds of the settings at every moment. *)
Definition consistent (s : Settings) : Prop :=
  In (FFT_SIZE (live s)) fftSizes /\ In (FFT_SIZE (saved3D s)) fftSizes /\
  one_colour_source (live s) /\ one_colour_source (saved3D s) /\
  (useTraditionalView s = true ->
     FFT_SIZE (live s) = 16384 /\ HISTORY_LINES (live s) = MAX_HISTORY_LINES /\
     lineWidth (live s) = F32.one /\ yScale (live s) = F32.one /\
     yOffset (live s) = F32.zero /\ showGrid (live s) = false /\
     autoRotate (live s) = false).

End View.

(** ** Heat map columns *)

(** [std::lround] on a float: the nearest integer, halves away from zero,
    as a 64-bit [long]; not defined on NaN, infinities and values outside
    the range of [long]. *)
Definition lround (x : float) : option Z :=
  match x with
  | S754_zero _ => Some 0
  | S754_finite s m e =>
      let magnitude :=
        if 0 <=? e then Z.pos m * 2 ^ e
        else (2 * Z.pos m + 2 ^ (- e)) / (2 * 2 ^ (- e)) in
      let z := if s then - magnitude else magnitude in
      if (- 2 ^ 63 <=? z) && (z <? 2 ^ 63) then Some z else None
  | _ => None
  end.

(** [texW] of [renderTraditionalSpectrogram] for a viewport [vpW] wide. *)
Definition textureWidth (vpW : Z) : Z := Z.min vpW 2048.

(** The history row that column [px] of the texture shows: [histIdx] of
    the column loop of [renderTraditionalSpectrogram]. *)
Definition columnHistIdx (texW HISTORY_LINES px : Z) : option Z :=
  let historyToUse := HISTORY_LINES in
  let t := if texW <=? 1 then F32.zero
           else F32.div (F32.of_Z px) (F32.of_Z (Int.to_int (texW - 1))) in
  histIdx ← (if historyToUse <=? 1 then Some 0
             else Int.to_int <$>
                    lround (F32.mul t (F32.of_Z (Int.to_int (historyToUse - 1)))));
  Some (Z.max 0 (Z.min histIdx (Int.to_int (HISTORY_LINES - 1)))).

(** The index of [lineHistory[histIdx * NUM_BARS + i]]. *)
Definition historyCell (NUM_BARS histIdx i : Z) : Z :=
  Int.to_int (Int.to_int (histIdx * NUM_BARS) + i).

#[global] Instance spec_float_eq_dec : EqDecision spec_float.
Proof. solve_decision. Defined.

(** Checked by evaluation for the texture widths and the history depths
    that occur: an integer divided by itself is 1 and zero divided by it is
    zero; 1 and 0 times a depth round to the depth and to 0. *)
Definition width_ok (k : nat) : bool :=
  let x := F32.of_Z (Z.of_nat k) in
  bool_decide (F32.div x x = F32.one) && bool_decide (F32.div (F32.of_Z 0) x = F32.zero).

Definition depth_ok (k : nat) : bool :=
  let y := F32.of_Z (Z.of_nat k) in
  bool_decide (lround (F32.mul F32.one y) = Some (Z.of_nat k)) &&
  bool_decide (lround (F32.mul F32.zero y) = Some 0).

(** ** Waveform cache *)

Module Waveform.

(** [(size_t)x] for a float [x]: truncation towards zero; not defined on
    NaN, infinities and values outside the range of [size_t]. *)
Definition to_size_t (x : float) : option Z :=
  match x with
  | S754_zero _ => Some 0
  | S754_finite s m e =>
      let z := if 0 <=? e then (if s then Z.neg m else Z.pos m) * 2 ^ e
               else Z.quot (if s then Z.neg m else Z.pos m) (2 ^ (- e)) in
      if (0 <=? z) && (z <? 2 ^ 64) then Some z else None
  | _ => None
  end.

Record Cache : Type := mkCache {
  waveformMinCache : list float;
  waveformMaxCache : list float;
  waveformCacheWidth : Z;
  waveformCacheDirty : bool
}.

(** The inner loop of [updateWaveformCache] with [k] iterations left before
    [i] reaches [downsample]: it ends as soon as [sampleIdx + i] leaves the
    buffer.  [None] on a read outside the buffer. *)
Fixpoint scan (data : list float) (sampleIdx : Z) (k : nat) (i : Z)
    (minVal maxVal : float) : option (float * float) :=
  match k with
  | O => Some (minVal, maxVal)
  | S k' =>
      let idx := Int.to_size_t (sampleIdx + Int.to_size_t i) in
      if idx <? Z.of_nat (length data) then
        sample ← data !! Z.to_nat idx;
        scan data sampleIdx k' (Int.to_int (i + 1))
             (F32.min minVal sample) (F32.max maxVal sample)
      else Some (minVal, maxVal)
  end.

(** [sampleIdx] of pixel column [x], before the test against the length. *)
Definition column_start (width : Z) (data : list float) (x : Z) : option Z :=
  to_size_t
    (F32.mul (F32.div (F32.of_Z x) (F32.of_Z (Z.max 1 width)))
             (F32.of_Z (Z.of_nat (length data)))).

(** One turn of the column loop: [minVal] and [maxVal] of column [x]. *)
Definition column (width : Z) (data : list float) (x : Z) : option (float * float) :=
  let totalSamples := Z.of_nat (length data) in
  let downsample :=
    Z.max 1 (Int.to_int (totalSamples / Int.to_size_t (Z.max 1 width))) in
  sampleIdx ← column_start width data x;
  let sampleIdx :=
    if totalSamples <=? sampleIdx then Int.to_size_t (totalSamples - 1) else sampleIdx in
  scan data sampleIdx (Z.to_nat downsample) 0 F32.zero F32.zero.

(** [updateWaveformCache(width)] on the cache, [data] being
    [wavFile.audioData]; [None] where a conversion or a read is not defined
    or the new size is negative. *)
Definition updateWaveformCache (width : Z) (data : list float) (c : Cache) : option Cache :=
  if Z.of_nat (length data) =? 0 then Some c
  else if (waveformCacheWidth c =? width) && negb (waveformCacheDirty c) then Some c
  else
    (if 0 <=? Int.to_int (width + 1) then Some tt else None) ;;
    columns ← mapM (column width data)
                   (map Z.of_nat (seq 0 (Z.to_nat (Int.to_int (width + 1)))));
    Some (mkCache (map fst columns) (map snd columns) width false).

(** [waveformWidth] of [renderWaveform] in a viewport [vpW] wide, the width
    it passes to [updateWaveformCache]. *)
Definition waveformWidth (vpW : Z) : Z := Z.min 800 (Int.to_int (vpW - 40)).

(** A cached minimum or maximum: zero, or one of the samples. *)
Definition from_data (data : list float) (v : float) : Prop :=
  v = F32.zero \/ v ∈ data.

End Waveform.

(** ** Recent files *)

From Stdlib Require Strings.String Strings.Ascii.

Module Recent.

#[global] Instance string_eq_dec : EqDecision String.string := String.string_dec.

Definition MAX_RECENT_FILES : nat := 10.

(** The character ['\n']. *)
Definition newline : Ascii.ascii :=
  Ascii.Ascii false true false true false false false false.

(** What the parameter [const std::string& filepath] is bound to: a string
    of the caller's (the drop callback and "Browse..." pass a temporary), or
    element [i] of [recentFiles] itself (the "Recent Files" list passes
    [recentFiles[i]]).  A reference is read when it is used: bound to an
    element, it yields what slot [i] of the vector holds at that moment, and
    nothing once the vector is shorter. *)
Inductive path_ref : Type :=
  | Copy (p : String.string)
  | Element (i : nat).

Definition read (filepath : path_ref) (recentFiles : list String.string) : option String.string :=
  match filepath with
  | Copy p => Some p
  | Element i => recentFiles !! i
  end.

(** What the save loop writes to [recent_files.txt]: each entry followed by
    a newline. *)
Definition saved_text (recentFiles : list String.string) : String.string :=
  foldr (fun file rest => String.append file (String.String newline rest))
        String.EmptyString recentFiles.

(** [addToRecentFiles(filepath)]: the vector afterwards and the text of the
    file written; [None] when the reference is read outside the vector.
    [std::find] stops at the first equal entry, [erase] moves the entries
    behind it down by one, [insert] puts a copy of [filepath] in front. *)
Definition addToRecentFiles (filepath : path_ref) (recentFiles : list String.string)
    : option (list String.string * String.string) :=
  p ← read filepath recentFiles;
  let erased :=
    match list_find (fun file => file = p) recentFiles with
    | Some (it, _) => delete it recentFiles
    | None => recentFiles
    end in
  q ← read filepath erased;
  let inserted := q :: erased in
  let resized :=
    if decide (MAX_RECENT_FILES < length inserted)%nat
    then take MAX_RECENT_FILES inserted else inserted in
  Some (resized, saved_text resized).

(** The read loop of [loadRecentFiles] over the text of the file, one
    character at a time: [line] holds what [std::getline] has extracted so
    far.  At a newline [getline] returns; the loop goes on only while fewer
    than [MAX_RECENT_FILES] entries are held, and keeps the line unless it
    is empty.  At the end of the text a line that is not empty is returned
    as well; on an empty one [getline] fails and the loop ends. *)
Fixpoint read_lines (text line : String.string) (recentFiles : list String.string) : list String.string :=
  match text with
  | String.EmptyString =>
      match line with
      | String.EmptyString => recentFiles
      | _ => if decide (length recentFiles < MAX_RECENT_FILES)%nat
             then recentFiles ++ [line] else recentFiles
      end
  | String.String c text' =>
      if Ascii.eqb c newline then
        if decide (length recentFiles < MAX_RECENT_FILES)%nat then
          read_lines text' String.EmptyString
            (match line with
             | String.EmptyString => recentFiles
             | _ => recentFiles ++ [line]
             end)
        else recentFiles
      else read_lines text' (String.append line (String.String c String.EmptyString)) recentFiles
  end.

(** [loadRecentFiles()] on the text of [recent_files.txt] (empty when the
    file is missing). *)
Definition loadRecentFiles (text : String.string) (recentFiles : list String.string) : list String.string :=
  read_lines text String.EmptyString recentFiles.

Fixpoint has_newline (s : String.string) : bool :=
  match s with
  | String.EmptyString => false
  | String.String c s' => Ascii.eqb c newline || has_newline s'
  end.

(** A path that a line of the file can hold: not empty, no newline. *)
Definition storable (s : String.string) : Prop :=
  s <> String.EmptyString /\ has_newline s = false.

(** Sample paths: the one-letter names [a], [b], [c], ... *)
Definition sample_path (n : nat) : String.string :=
  String.String (Ascii.ascii_of_nat (97 + n)) String.EmptyString.

End Recent.

(** ** Binary32 rounding

    What the proofs about the rounding of [SpecFloat] speak of: the real
    number a mantissa and an exponent stand for, where a real lies between
    two integers, and the order [SFcompare] puts on floats. *)

(** [2 ^ e] as a real number, for any integer [e]. *)
Definition bpow (e : Z) : R := powerRZ 2 e.

(** The real number a mantissa [m] stands for at exponent [e]. *)
Definition F2R (m e : Z) : R := (IZR m * bpow e)%R.

(** Where a real [u] lies between the integers [m] and [m + 1], as the
    [location] of [SpecFloat] records it: on [m], below the middle, on the
    middle, above it. *)
Definition inbetween_int (m : Z) (u : R) (l : location) : Prop :=
  match l with
  | loc_Exact => u = IZR m
  | loc_Inexact Lt => (IZR m < u < IZR m + / 2)%R
  | loc_Inexact Eq => u = (IZR m + / 2)%R
  | loc_Inexact Gt => (IZR m + / 2 < u < IZR m + 1)%R
  end.

(** A shift record describes [u]: its mantissa is the integer part and its
    two flags locate [u] above it. *)
Definition shr_inv (mrs : shr_record) (u : R) : Prop :=
  0 <= shr_m mrs /\ inbetween_int (shr_m mrs) u (loc_of_shr_record mrs).

(** The second half of [binary_round_aux]: the rounded mantissa [M] at
    exponent [E] is brought back to a canonical mantissa and packed. *)
Definition round_finish (s : bool) (M E : Z) : float :=
  let '(mrs, e) := shr_fexp F32.prec F32.emax M E loc_Exact in
  match shr_m mrs with
  | 0 => S754_zero s
  | Z.pos m => if e <=? F32.emax - F32.prec then S754_finite s m e else S754_infinity s
  | Z.neg _ => S754_nan
  end.

(** [M] at exponent [E] is what a number of magnitude [k] rounds to: [E] is
    the exponent binary32 gives that magnitude, and [M * 2 ^ E], when not
    zero, is still within [2 ^ (k - 1)] and [2 ^ k]. *)
Definition rounded_at (k M E : Z) : Prop :=
  E = fexp F32.prec F32.emax k /\ 0 <= M /\
  (M <> 0 -> (bpow (k - 1) <= F2R M E <= bpow k)%R).

(** A mantissa that binary32 keeps at exponent [e] as it is. *)
Definition canonical (m e : Z) : Prop :=
  fexp F32.prec F32.emax (Zdigits2 m + e) = e.

(** The place of a float in the order of [SFcompare]: its class (negative
    infinity, negative, zero, positive, positive infinity), then its
    exponent, then its mantissa. *)
Definition rank (x : float) : Z * Z * Z :=
  match x with
  | S754_zero _ | S754_nan => (0, 0, 0)
  | S754_infinity s => (if s then -2 else 2, 0, 0)
  | S754_finite s m e => if s then (-1, - e, - Z.pos m) else (1, e, Z.pos m)
  end.

Definition rank_le (a b : Z * Z * Z) : Prop :=
  a.1.1 < b.1.1 \/
  (a.1.1 = b.1.1 /\ (a.1.2 < b.1.2 \/ (a.1.2 = b.1.2 /\ a.2 <= b.2))).

Definition rank_lt (a b : Z * Z * Z) : Prop :=
  a.1.1 < b.1.1 \/
  (a.1.1 = b.1.1 /\ (a.1.2 < b.1.2 \/ (a.1.2 = b.1.2 /\ a.2 < b.2))).

(** A binary32 number: a float whose mantissa and exponent fit the
    format. *)
Definition valid (x : float) : Prop := valid_binary F32.prec F32.emax x = true.

(** ** Frequency mapping: intermediate values *)

(** The two intermediate values of [buildFrequencyMapping] that its law
    names: [ratio], and [binF] of bar [i] before the clamp. *)
Definition mapping_ratio (sampleRate : Z) : float :=
  let sr := F32.of_Z sampleRate in
  let maxFreq := F32.mul sr (F32.lit 5 10) in
  let minF := F32.max Rounded.MIN_FREQ F32.one in
  let maxF := F32.max (F32.mul minF (F32.lit 1001 1000)) maxFreq in
  F32.div maxF minF.

Definition bar_bin_raw (powf : float -> float -> float)
    (NUM_BARS FFT_SIZE sampleRate i : Z) : float :=
  let sr := F32.of_Z sampleRate in
  let minF := F32.max Rounded.MIN_FREQ F32.one in
  let t := Rounded.bar_t NUM_BARS i in
  let freq := F32.mul minF (powf (mapping_ratio sampleRate) t) in
  F32.div (F32.mul freq (F32.of_Z FFT_SIZE)) sr.

(** A staircase under the power function of a base above 1, for where a
    concrete [pow] is needed: 1 below the exponent 1/4, the fourth root
    below 1/2, the square root below 1, the base from there on. *)
Definition stair_pow (r t : float) : float :=
  if F32.ltb t (F32.lit 1 4) then F32.one
  else if F32.ltb t (F32.lit 1 2) then SFsqrt F32.prec F32.emax (SFsqrt F32.prec F32.emax r)
  else if F32.ltb t F32.one then SFsqrt F32.prec F32.emax r
  else r.

(** * Properties *)

(** ** Casts that keep the value *)

Lemma wrap_signed_id (w z : Z) :
  0 < w -> - 2 ^ (w - 1) <= z < 2 ^ (w - 1) -> Int.wrap_signed w z = z.
Proof.
  intros Hw Hz. unfold Int.wrap_signed.
  assert (Hp : 2 ^ w = 2 * 2 ^ (w - 1)).
  { replace w with (Z.succ (w - 1)) at 1 by lia. apply Z.pow_succ_r. lia. }
  rewrite Z.mod_small; lia.
Qed.

Lemma to_int64_id (z : Z) : Int.in_int64 z -> Int.to_int64 z = z.
Proof. intros Hz. apply wrap_signed_id; [lia | exact Hz]. Qed.

Lemma to_int_id (z : Z) : Int.in_int z -> Int.to_int z = z.
Proof. intros Hz. apply wrap_signed_id; [lia | exact Hz]. Qed.

Lemma to_size_t_id (z : Z) : Int.in_size_t z -> Int.to_size_t z = z.
Proof. intros Hz. apply Z.mod_small. exact Hz. Qed.

Lemma to_uint64_id (z : Z) : Int.in_size_t z -> Int.to_uint64 z = z.
Proof. intros Hz. apply Z.mod_small. exact Hz. Qed.

(** ** [wrapIndex] *)

Example wrapIndex_negative : wrapIndex (-1) 5 = 4.
Proof. reflexivity. Qed.

Example wrapIndex_past_end : wrapIndex 7 5 = 2.
Proof. reflexivity. Qed.

Example wrapIndex_empty : wrapIndex 3 0 = 0.
Proof. reflexivity. Qed.

Example wrapIndex_most_negative : wrapIndex (- 2 ^ 63) 7 = 6.
Proof. vm_compute. reflexivity. Qed.

(** On a length that [int64_t] can hold, the truncating remainder with its
    correction is the mathematical modulo. *)
Lemma wrapIndex_mod (idx size : Z) :
  Int.in_int64 idx -> 0 < size <= Int.INT64_MAX ->
  wrapIndex idx size = idx mod size.
Proof.
  unfold Int.in_int64, Int.INT64_MAX. intros Hidx Hsize. unfold wrapIndex.
  destruct (Z.eqb_spec size 0) as [-> | _]; [lia |].
  rewrite to_int64_id by (unfold Int.in_int64; lia).
  pose proof (Z.quot_rem' idx size) as Hqr.
  set (q := Z.quot idx size) in *. set (m := Z.rem idx size) in *.
  assert (Hm : - size < m < size).
  { destruct (Z_le_gt_dec 0 idx) as [Hpos | Hneg].
    - pose proof (Z.rem_bound_pos idx size Hpos ltac:(lia)). lia.
    - pose proof (Z.rem_bound_pos_neg idx size ltac:(lia) ltac:(lia)). lia. }
  destruct (Z.ltb_spec m 0) as [Hlt | Hge].
  - rewrite to_int64_id by (unfold Int.in_int64; lia).
    rewrite to_size_t_id by (unfold Int.in_size_t; lia).
    apply (Z.mod_unique_pos idx size (q - 1) (m + size)); lia.
  - rewrite to_size_t_id by (unfold Int.in_size_t; lia).
    apply (Z.mod_unique_pos idx size q m); lia.
Qed.

(** C3.  For every offset [idx] an [int64_t] can hold, negative ones included,
    and every positive buffer length, [wrapIndex] returns a value in
    [0, size), and adding any multiple of the length to the offset does not
    change the result. *)
Theorem wrapIndex_range_periodic (idx size k : Z) :
  Int.in_int64 idx -> Int.in_int64 (idx + k * size) ->
  0 < size <= Int.INT64_MAX ->
  0 <= wrapIndex idx size < size /\
  wrapIndex (idx + k * size) size = wrapIndex idx size.
Proof.
  intros Hidx Hshift Hsize.
  rewrite !wrapIndex_mod by assumption.
  split.
  - apply Z.mod_pos_bound. lia.
  - apply Z_mod_plus_full.
Qed.

Lemma wrapIndex_range_periodic_witness :
  (0 <= wrapIndex (-7) 5 < 5) /\ wrapIndex (-7 + 3 * 5) 5 = wrapIndex (-7) 5.
Proof.
  apply (wrapIndex_range_periodic (-7) 5 3);
    unfold Int.in_int64, Int.INT64_MAX; lia.
Defined.

(** C10.  [wrapIndex] needs no positive length: on length 0 it returns 0
    without taking a remainder, and on every other length it returns a
    value below the length. *)
Theorem wrapIndex_total (idx size : Z) :
  Int.in_int64 idx -> 0 <= size <= Int.INT64_MAX ->
  (0 < size -> 0 <= wrapIndex idx size < size) /\
  (size = 0 -> wrapIndex idx size = 0).
Proof.
  intros Hidx Hsize. split.
  - intros Hpos. rewrite wrapIndex_mod by (assumption || lia).
    apply Z.mod_pos_bound. exact Hpos.
  - intros ->. reflexivity.
Qed.

Lemma wrapIndex_total_witness :
  (0 < 0 -> 0 <= wrapIndex (-3) 0 < 0) /\ (0 = 0 -> wrapIndex (-3) 0 = 0).
Proof.
  apply (wrapIndex_total (-3) 0); unfold Int.in_int64, Int.INT64_MAX; lia.
Defined.

(** ** Latency-adjusted sync *)

Example short_buffer_is_zero_padded :
  processAudioFrameSynced (replicate 3 F32.zero) 2 (startAudio_gLatencySamplesBase 1) (-250) 4
  = ZeroPadded 3.
Proof. vm_compute. reflexivity. Qed.

Example window_wraps_backwards :
  processAudioFrameSynced (replicate 8 F32.zero) 2 (startAudio_gLatencySamplesBase 1) (-250) 4
  = Circular 1 [1; 2; 3; 4].
Proof. vm_compute. reflexivity. Qed.

Lemma vector_max_size_val : Int.vector_max_size = 2 ^ 61 - 1.
Proof. reflexivity. Qed.

(** C1.  With clock position [P], the latency [La] made of the driver's
    latency in samples [L], one buffer period and the user adjustment, FFT
    size [F] and a sample buffer of length [N >= F], the analyzer starts its
    window at [wrapIndex (P - La - F/2) N], which is [(P - La - F/2) mod N]
    and lies in [0, N); slot [i] of the transform input then reads the
    sample [i] places further on, circularly. *)
Theorem analysis_window_start (samples : list float) (P L adj F : Z) :
  let N := Z.of_nat (length samples) in
  let La := L + FRAMES_PER_BUFFER + adj in
  0 <= P <= Int.vector_max_size -> 0 < N <= Int.vector_max_size ->
  Int.in_int L -> Int.in_int (L + FRAMES_PER_BUFFER) ->
  Int.in_int adj -> Int.in_int La ->
  0 <= F -> Int.in_int F -> F <= N ->
  exists idx,
    processAudioFrameSynced samples P (startAudio_gLatencySamplesBase L) adj F
      = Circular (wrapIndex (P - La - F / 2) N) idx /\
    wrapIndex (P - La - F / 2) N = (P - La - F / 2) mod N /\
    0 <= wrapIndex (P - La - F / 2) N < N /\
    length idx = Z.to_nat F /\
    forall i : nat, (i < Z.to_nat F)%nat ->
      idx !! i = Some ((wrapIndex (P - La - F / 2) N + Z.of_nat i) mod N).
Proof.
  intros N La HP HN HL HLb Hadj HLa HF0 HF HFN.
  rewrite vector_max_size_val in HP, HN.
  unfold Int.in_int in *. subst La. unfold FRAMES_PER_BUFFER in *.
  assert (Hhalf : 0 <= F / 2 <= F) by (split; [apply Z.div_pos | apply Z.div_le_upper_bound]; lia).
  assert (Hmod : wrapIndex (P - (L + 256 + adj) - F / 2) N
                 = (P - (L + 256 + adj) - F / 2) mod N).
  { apply wrapIndex_mod; unfold Int.in_int64, Int.INT64_MAX; lia. }
  assert (Hrange : 0 <= wrapIndex (P - (L + 256 + adj) - F / 2) N < N).
  { rewrite Hmod. apply Z.mod_pos_bound. lia. }
  eexists. split; [| split; [exact Hmod | split; [exact Hrange |]]].
  - unfold processAudioFrameSynced, startAudio_gLatencySamplesBase, FRAMES_PER_BUFFER.
    fold N. destruct (Z.eqb_spec N 0) as [? | _]; [lia |].
    rewrite (to_size_t_id F) by (unfold Int.in_size_t; lia).
    destruct (Z.ltb_spec N F) as [? | _]; [lia |].
    rewrite (to_int_id (L + 256)) by (unfold Int.in_int; lia).
    rewrite (to_int_id (L + 256 + adj)) by (unfold Int.in_int; lia).
    rewrite Z.quot_div_nonneg by lia.
    rewrite (to_int64_id P) by (unfold Int.in_int64; lia).
    rewrite (to_int64_id (L + 256 + adj)) by (unfold Int.in_int64; lia).
    rewrite (to_int64_id (F / 2)) by (unfold Int.in_int64; lia).
    rewrite (to_int64_id (P - _)) by (unfold Int.in_int64; lia).
    rewrite (to_int64_id (P - _ - _)) by (unfold Int.in_int64; lia).
    reflexivity.
  - split; [now rewrite length_map, length_seq |].
    intros i Hi. rewrite list_lookup_fmap, lookup_seq_lt by exact Hi. simpl.
    rewrite to_size_t_id by (unfold Int.in_size_t; lia). reflexivity.
Qed.

Lemma analysis_window_start_witness :
  exists idx,
    processAudioFrameSynced (replicate 8 F32.zero) 2
        (startAudio_gLatencySamplesBase 1) (-250) 4
      = Circular (wrapIndex (2 - (1 + 256 + -250) - 4 / 2) 8) idx /\
    wrapIndex (2 - (1 + 256 + -250) - 4 / 2) 8 = (2 - (1 + 256 + -250) - 4 / 2) mod 8 /\
    0 <= wrapIndex (2 - (1 + 256 + -250) - 4 / 2) 8 < 8 /\
    length idx = 4%nat /\
    forall i : nat, (i < 4)%nat ->
      idx !! i = Some ((wrapIndex (2 - (1 + 256 + -250) - 4 / 2) 8 + Z.of_nat i) mod 8).
Proof.
  apply (analysis_window_start (replicate 8 F32.zero) 2 1 (-250) 4);
    unfold Int.in_int; vm_compute; intuition discriminate.
Defined.

(** ** Audio callback *)

Lemma write_channels (out : list float) (a k : nat) (s : float) :
  (a + k <= length out)%nat ->
  foldl (fun out ch => <[(a + ch)%nat := s]> out) out (seq 0 k)
  = take a out ++ replicate k s ++ drop (a + k) out.
Proof.
  induction k as [| k IH]; intros Hlen.
  - simpl. rewrite Nat.add_0_r. symmetry. apply take_drop.
  - rewrite seq_S, foldl_app, replicate_S_end. simpl foldl. rewrite IH by lia.
    rewrite insert_app_r_alt by (rewrite length_take; lia).
    rewrite length_take_le by lia.
    rewrite insert_app_r_alt by (rewrite length_replicate; lia).
    rewrite length_replicate.
    destruct (lookup_lt_is_Some_2 out (a + k)%nat ltac:(lia)) as [x Hx].
    rewrite (drop_S _ _ _ Hx).
    replace (0 + k)%nat with k by lia.
    replace (a + k - a - k)%nat with 0%nat by lia.
    replace (a + S k)%nat with (S (a + k)) by lia.
    rewrite <- app_assoc. reflexivity.
Qed.

Lemma write_frame_spec (out : list float) (i outCh : nat) (s : float) :
  (i * outCh + outCh <= length out)%nat ->
  write_frame out i outCh s
  = take (i * outCh) out ++ replicate outCh s ++ drop (i * outCh + outCh) out.
Proof. apply write_channels. Qed.

Lemma audio_frame_sample (G : Playback) (outCh : nat) (out : list float) (pos : Z) (i : nat) :
  audio_frame G (Z.of_nat (length (audioData (wavFile G)))) outCh (out, pos) i
  = (write_frame out i outCh (fst (frame_sample G pos)), snd (frame_sample G pos)).
Proof.
  unfold audio_frame, frame_sample.
  destruct (isPaused G || _); [reflexivity |].
  destruct (pos <? _); [reflexivity |].
  destruct (loopAudio G); reflexivity.
Qed.

Lemma foldl_step {A B : Type} (f : A -> B -> A) (a : A) (x : B) (l : list B) :
  foldl f a (x :: l) = foldl f (f a x) l.
Proof. reflexivity. Qed.

(** The frame loop from frame [i] on fills the slots of frames
    [i .. i + k - 1] and nothing else. *)
Lemma frame_loop_spec (G : Playback) (outCh k : nat) :
  forall (i : nat) (out : list float) (pos : Z),
  ((i + k) * outCh <= length out)%nat ->
  foldl (audio_frame G (Z.of_nat (length (audioData (wavFile G)))) outCh)
        (out, pos) (seq i k)
  = (take (i * outCh) out ++ interleave outCh (fst (frames_from G k pos))
       ++ drop ((i + k) * outCh) out,
     snd (frames_from G k pos)).
Proof.
  induction k as [| k IH]; intros i out pos Hlen.
  - simpl. rewrite Nat.add_0_r, take_drop. reflexivity.
  - rewrite <- cons_seq, foldl_step, audio_frame_sample.
    simpl frames_from. destruct (frame_sample G pos) as [s pos1]. simpl fst. simpl snd.
    rewrite write_frame_spec by lia.
    rewrite IH by (rewrite !length_app, length_take, length_replicate, length_drop; lia).
    destruct (frames_from G k pos1) as [rest pos2]. simpl.
    f_equal.
    rewrite (take_app_ge (take (i * outCh) out)) by (rewrite length_take; lia).
    rewrite length_take_le by lia.
    rewrite take_app_ge by (rewrite length_replicate; lia).
    rewrite length_replicate.
    replace (outCh + i * outCh - i * outCh - outCh)%nat with 0%nat by lia.
    rewrite take_0, app_nil_r.
    rewrite (drop_app_ge (take (i * outCh) out)) by (rewrite length_take; lia).
    rewrite length_take_le by lia.
    rewrite drop_app_ge by (rewrite length_replicate; lia).
    rewrite length_replicate, drop_drop.
    rewrite <- !app_assoc. do 4 f_equal. nia.
Qed.

Lemma frames_from_length (G : Playback) (k : nat) :
  forall pos, length (fst (frames_from G k pos)) = k.
Proof.
  induction k as [| k IH]; intros pos; [reflexivity |].
  simpl. destruct (frame_sample G pos) as [s pos1].
  specialize (IH pos1). destruct (frames_from G k pos1) as [rest pos2].
  simpl in *. congruence.
Qed.

Lemma frames_from_app (G : Playback) (k1 k2 : nat) :
  forall pos,
  frames_from G (k1 + k2) pos
  = (fst (frames_from G k1 pos) ++ fst (frames_from G k2 (snd (frames_from G k1 pos))),
     snd (frames_from G k2 (snd (frames_from G k1 pos)))).
Proof.
  induction k1 as [| k1 IH]; intros pos.
  - simpl. destruct (frames_from G k2 pos); reflexivity.
  - simpl. destruct (frame_sample G pos) as [s pos1]. rewrite IH.
    destruct (frames_from G k1 pos1) as [rest pos2]. reflexivity.
Qed.

Lemma frames_silent (G : Playback) (k : nat) (pos : Z) :
  frame_sample G pos = (F32.zero, pos) ->
  frames_from G k pos = (replicate k F32.zero, pos).
Proof.
  intros Hs. induction k as [| k IH]; [reflexivity |].
  simpl. rewrite Hs, IH. reflexivity.
Qed.

Lemma frames_consecutive (G : Playback) (k : nat) :
  let data := audioData (wavFile G) in
  forall pos,
  isPaused G = false -> Z.of_nat (length data) < 2 ^ 64 ->
  0 <= pos -> pos + Z.of_nat k <= Z.of_nat (length data) ->
  frames_from G k pos
  = (map (fun x => F32.mul x (volume G)) (take k (drop (Z.to_nat pos) data)),
     pos + Z.of_nat k).
Proof.
  intros data. induction k as [| k IH]; intros pos Hrun HN Hpos Hend.
  - simpl. rewrite Z.add_0_r. reflexivity.
  - simpl frames_from. unfold frame_sample at 1. fold data. rewrite Hrun. simpl orb.
    destruct (Z.eqb_spec (Z.of_nat (length data)) 0) as [? | _]; [lia |].
    destruct (Z.ltb_spec pos (Z.of_nat (length data))) as [Hlt | ?]; [| lia].
    rewrite to_uint64_id by (unfold Int.in_size_t; lia).
    rewrite IH by (assumption || lia).
    destruct (lookup_lt_is_Some_2 data (Z.to_nat pos) ltac:(lia)) as [x Hx].
    unfold at_index. rewrite Hx. simpl default.
    rewrite (drop_S _ _ _ Hx).
    replace (Z.to_nat (pos + 1)) with (S (Z.to_nat pos)) by lia.
    replace (pos + 1 + Z.of_nat k) with (pos + Z.of_nat (S k)) by lia.
    reflexivity.
Qed.

Lemma interleave_silence (outCh k : nat) :
  interleave outCh (replicate k F32.zero) = replicate (k * outCh) F32.zero.
Proof.
  induction k as [| k IH]; [reflexivity |].
  simpl. unfold interleave in *. simpl. rewrite IH, <- replicate_add. reflexivity.
Qed.

Lemma interleave_length (outCh : nat) (samples : list float) :
  length (interleave outCh samples) = (length samples * outCh)%nat.
Proof.
  induction samples as [| s l IH]; [reflexivity |].
  unfold interleave in *. simpl. rewrite length_app, length_replicate, IH. reflexivity.
Qed.

Lemma audioCallback_frames (G : Playback) (out : list float) (f : Z) :
  let outCh := Z.to_nat (Z.max 1 (gOutputChannels G)) in
  let n := Z.to_nat f in
  (n * outCh <= length out)%nat ->
  audioCallback G out f
  = (interleave outCh (fst (frames_from G n (playbackPosition G))) ++ drop (n * outCh) out,
     seek G (snd (frames_from G n (playbackPosition G)))).
Proof.
  intros outCh n Hlen. unfold audioCallback. fold outCh. fold n.
  rewrite frame_loop_spec by (simpl; lia). simpl. reflexivity.
Qed.

Lemma seek_same (G : Playback) : seek G (playbackPosition G) = G.
Proof. destruct G; reflexivity. Qed.

Lemma frame_sample_paused (G : Playback) (pos : Z) :
  isPaused G = true -> frame_sample G pos = (F32.zero, pos).
Proof. intros H. unfold frame_sample. rewrite H. reflexivity. Qed.

Lemma frame_sample_exhausted (G : Playback) (pos : Z) :
  Z.of_nat (length (audioData (wavFile G))) <= pos -> loopAudio G = false ->
  frame_sample G pos = (F32.zero, pos).
Proof.
  intros Hend Hloop. unfold frame_sample. rewrite Hloop.
  destruct (isPaused G || _); [reflexivity |].
  destruct (Z.ltb_spec pos (Z.of_nat (length (audioData (wavFile G))))); [lia | reflexivity].
Qed.

Lemma frame_sample_wrap (G : Playback) (pos : Z) :
  isPaused G = false ->
  0 < Z.of_nat (length (audioData (wavFile G))) <= pos -> loopAudio G = true ->
  frame_sample G pos = frame_sample G 0.
Proof.
  intros Hrun Hend Hloop. unfold frame_sample. rewrite Hrun, Hloop. simpl orb.
  destruct (Z.eqb_spec (Z.of_nat (length (audioData (wavFile G)))) 0); [lia |].
  destruct (Z.ltb_spec pos (Z.of_nat (length (audioData (wavFile G))))); [lia |].
  destruct (Z.ltb_spec 0 (Z.of_nat (length (audioData (wavFile G))))); [reflexivity | lia].
Qed.

Lemma frames_from_seek (G : Playback) (p : Z) (k : nat) :
  forall pos, frames_from (seek G p) k pos = frames_from G k pos.
Proof.
  induction k as [| k IH]; intros pos; [reflexivity |].
  simpl. change (frame_sample (seek G p) pos) with (frame_sample G pos).
  destruct (frame_sample G pos) as [s pos1]. rewrite IH. reflexivity.
Qed.

Lemma frames_wrap (G : Playback) (k : nat) (pos : Z) :
  isPaused G = false ->
  0 < Z.of_nat (length (audioData (wavFile G))) <= pos -> loopAudio G = true ->
  frames_from G (S k) pos = frames_from G (S k) 0.
Proof.
  intros Hrun Hend Hloop. simpl. rewrite (frame_sample_wrap G pos) by assumption.
  reflexivity.
Qed.

(** Three frames from position 1 of the three-sample buffer: samples 1 and
    2, then sample 0 again, and the position ends at 1; the last two slots
    of the buffer keep what they held. *)
Example audioCallback_wraps :
  audioCallback demo_playback (replicate 8 S754_nan) 3
  = ([F32.lit 1 4; F32.lit 1 4; F32.lit 1 8; F32.lit 1 8; F32.lit 1 2; F32.lit 1 2;
      S754_nan; S754_nan],
     seek demo_playback 1).
Proof. vm_compute. reflexivity. Qed.

(** C2.  One call of the fill callback with [f] frames on a non-empty
    sample buffer writes the first [f * outCh] slots of the output buffer,
    [outCh] equal copies per frame, and no other slot; [outCh] is
    [gOutputChannels] when that is at least 1.  Paused, it writes silence and
    keeps the position.  Playing inside the buffer, frame [i] carries sample
    [pos + i] (times the volume) and the position advances by [f], one per
    frame whatever the channel count.  Running into the end it goes on from
    sample 0 when looping and writes silence, holding the position, when
    not. *)
Theorem audioCallback_spec (G : Playback) (out : list float) (f : Z) :
  let data := audioData (wavFile G) in
  let N := Z.of_nat (length data) in
  let pos := playbackPosition G in
  let outCh := Z.to_nat (Z.max 1 (gOutputChannels G)) in
  let n := Z.to_nat f in
  let scaled := map (fun x => F32.mul x (volume G)) in
  let untouched := drop (n * outCh) out in
  0 < N < 2 ^ 64 -> 0 <= pos -> 0 <= f -> (n * outCh <= length out)%nat ->
  (exists samples,
      length samples = n /\
      length (interleave outCh samples) = (n * outCh)%nat /\
      fst (audioCallback G out f) = interleave outCh samples ++ untouched) /\
  (1 <= gOutputChannels G -> Z.of_nat outCh = gOutputChannels G) /\
  (isPaused G = true ->
     audioCallback G out f = (replicate (n * outCh) F32.zero ++ untouched, G)) /\
  (isPaused G = false -> pos + f <= N ->
     audioCallback G out f
     = (interleave outCh (scaled (take n (drop (Z.to_nat pos) data))) ++ untouched,
        seek G (pos + f))) /\
  (isPaused G = false -> loopAudio G = true -> N <= pos -> 0 < f ->
     audioCallback G out f = audioCallback (seek G 0) out f) /\
  (isPaused G = false -> loopAudio G = true -> pos <= N -> N < pos + f <= N + N ->
     audioCallback G out f
     = (interleave outCh
          (scaled (drop (Z.to_nat pos) data)
             ++ scaled (take (Z.to_nat (pos + f - N)) data)) ++ untouched,
        seek G (pos + f - N))) /\
  (isPaused G = false -> loopAudio G = false -> N <= pos ->
     audioCallback G out f = (replicate (n * outCh) F32.zero ++ untouched, G)) /\
  (isPaused G = false -> loopAudio G = false -> pos <= N -> N < pos + f ->
     audioCallback G out f
     = (interleave outCh
          (scaled (drop (Z.to_nat pos) data)
             ++ replicate (Z.to_nat (pos + f - N)) F32.zero) ++ untouched,
        seek G N)).
Proof.
  intros data N pos outCh n scaled untouched HN Hpos Hf Hlen.
  pose proof (audioCallback_frames G out f Hlen) as Hcall.
  fold outCh n pos untouched in Hcall.
  assert (Hsplit : forall k1 k2 : nat, n = (k1 + k2)%nat -> pos + Z.of_nat k1 = N ->
            isPaused G = false ->
            frames_from G n pos
            = (scaled (drop (Z.to_nat pos) data) ++ fst (frames_from G k2 N),
               snd (frames_from G k2 N))).
  { intros k1 k2 -> Hk1 Hrun. rewrite frames_from_app.
    rewrite (frames_consecutive G k1 pos) by (assumption || fold data; lia).
    simpl fst. simpl snd. fold data. rewrite Hk1.
    rewrite (take_ge (drop _ _)) by (rewrite length_drop; lia). reflexivity. }
  repeat split.
  - exists (fst (frames_from G n pos)).
    rewrite interleave_length, frames_from_length, Hcall. auto.
  - intros Hch. subst outCh. lia.
  - intros Hpaused. rewrite Hcall.
    rewrite frames_silent by (apply frame_sample_paused; exact Hpaused).
    simpl fst. simpl snd. rewrite interleave_silence. unfold pos. rewrite seek_same.
    reflexivity.
  - intros Hrun Hin. rewrite Hcall.
    rewrite (frames_consecutive G n pos) by (assumption || fold data; lia).
    simpl fst. simpl snd. replace (Z.of_nat n) with f by lia. reflexivity.
  - intros Hrun Hloop Hend Hpos0.
    rewrite Hcall, (audioCallback_frames (seek G 0) out f) by exact Hlen.
    simpl gOutputChannels. simpl playbackPosition. fold outCh n untouched.
    rewrite frames_from_seek.
    destruct n as [| k] eqn:En; [lia |].
    rewrite (frames_wrap G k pos) by (assumption || fold data; lia).
    reflexivity.
  - intros Hrun Hloop Hbefore Hcross. rewrite Hcall.
    rewrite (Hsplit (Z.to_nat (N - pos)) (Z.to_nat (pos + f - N))) by (assumption || lia).
    destruct (Z.to_nat (pos + f - N)) as [| k] eqn:Ek; [lia |].
    rewrite (frames_wrap G k N) by (assumption || fold data; lia).
    rewrite (frames_consecutive G (S k) 0) by (assumption || fold data; lia).
    simpl fst. simpl snd. fold data. rewrite drop_0.
    replace (0 + Z.of_nat (S k)) with (pos + f - N) by lia. reflexivity.
  - intros Hrun Hloop Hend. rewrite Hcall.
    rewrite frames_silent by (apply frame_sample_exhausted; [fold data; lia | exact Hloop]).
    simpl fst. simpl snd. rewrite interleave_silence. unfold pos. rewrite seek_same.
    reflexivity.
  - intros Hrun Hloop Hbefore Hcross. rewrite Hcall.
    rewrite (Hsplit (Z.to_nat (N - pos)) (Z.to_nat (pos + f - N))) by (assumption || lia).
    rewrite frames_silent by (apply frame_sample_exhausted; [fold data; lia | exact Hloop]).
    reflexivity.
Qed.

Lemma audioCallback_spec_witness :
  audioCallback demo_playback (replicate 6 F32.zero) 2
  = ([F32.lit 1 4; F32.lit 1 4; F32.lit 1 8; F32.lit 1 8; F32.zero; F32.zero],
     seek demo_playback 3).
Proof.
  destruct (audioCallback_spec demo_playback (replicate 6 F32.zero) 2)
    as (_ & _ & _ & Hplay & _).
  - vm_compute. intuition discriminate.
  - vm_compute. discriminate.
  - vm_compute. discriminate.
  - vm_compute. lia.
  - apply Hplay; [reflexivity | vm_compute; discriminate].
Defined.

(** ** History ring *)

Section HistoryRing.

Variable NUM_BARS : Z.
Hypothesis bars_range : 0 <= NUM_BARS < 2 ^ 31.

Let n : nat := Z.to_nat NUM_BARS.

Lemma push_lineHistory (h : History) (line : list float) :
  let d := Z.to_nat (HISTORY_LINES h) in
  ring_fits NUM_BARS h -> length line = n ->
  lineHistory (pushLineToHistory NUM_BARS line h)
  = line ++ take ((d - 1) * n) (lineHistory h) ++ drop (d * n) (lineHistory h).
Proof.
  intros d [Hd Hfit] Hline. fold n d in Hfit.
  unfold pushLineToHistory. simpl lineHistory.
  rewrite (to_size_t_id (HISTORY_LINES h - 1)) by (unfold Int.in_size_t; nia).
  rewrite (to_size_t_id NUM_BARS) by (unfold Int.in_size_t; nia).
  rewrite to_size_t_id by (unfold Int.in_size_t; nia).
  replace (4 * (HISTORY_LINES h - 1) * NUM_BARS)
    with ((HISTORY_LINES h - 1) * NUM_BARS * 4) by lia.
  rewrite Z.div_mul by lia.
  replace (Z.to_nat ((HISTORY_LINES h - 1) * NUM_BARS)) with ((d - 1) * n)%nat
    by (subst d n; nia).
  fold n. unfold copy_floats. rewrite !drop_0. simpl take at 1. simpl app.
  rewrite (take_ge line) by lia.
  assert (Hn : (n <= length (lineHistory h))%nat) by (subst d; nia).
  rewrite drop_app_length' by (rewrite length_take_le; lia).
  do 3 f_equal. subst d. nia.
Qed.

Lemma push_keeps_depth (h : History) (line : list float) :
  HISTORY_LINES (pushLineToHistory NUM_BARS line h) = HISTORY_LINES h.
Proof. reflexivity. Qed.

Lemma push_keeps_fit (h : History) (line : list float) :
  ring_fits NUM_BARS h -> length line = n ->
  ring_fits NUM_BARS (pushLineToHistory NUM_BARS line h) /\
  length (lineHistory (pushLineToHistory NUM_BARS line h)) = length (lineHistory h).
Proof.
  intros Hfit Hline. pose proof Hfit as [Hd Hlen]. fold n in Hlen.
  assert (Hsame : length (lineHistory (pushLineToHistory NUM_BARS line h))
                  = length (lineHistory h)).
  { rewrite push_lineHistory by assumption.
    rewrite !length_app, length_take, length_drop. nia. }
  split; [| exact Hsame].
  split; [exact Hd |]. rewrite Hsame. exact Hlen.
Qed.

Lemma push_row_0 (h : History) (line : list float) :
  ring_fits NUM_BARS h -> length line = n ->
  history_row NUM_BARS (pushLineToHistory NUM_BARS line h) 0 = line.
Proof.
  intros Hfit Hline. unfold history_row. rewrite push_lineHistory by assumption.
  simpl Nat.mul. rewrite drop_0. fold n. apply take_app_length'. lia.
Qed.

(** Row [k] moves to row [k + 1] as long as that stays within the depth. *)
Lemma push_row_S (h : History) (line : list float) (k : nat) :
  ring_fits NUM_BARS h -> length line = n ->
  (S k < Z.to_nat (HISTORY_LINES h))%nat ->
  history_row NUM_BARS (pushLineToHistory NUM_BARS line h) (S k)
  = history_row NUM_BARS h k.
Proof.
  intros Hfit Hline Hk. pose proof Hfit as [Hd Hlen]. fold n in Hlen.
  unfold history_row. rewrite push_lineHistory by assumption. fold n.
  set (d := Z.to_nat (HISTORY_LINES h)) in *.
  rewrite drop_app_ge by nia. rewrite Hline.
  replace (S k * n - n)%nat with (k * n)%nat by nia.
  rewrite drop_app_le by (rewrite length_take; nia).
  rewrite take_app_le by (rewrite length_drop, length_take; nia).
  rewrite !take_drop_commute, take_take. do 2 f_equal. nia.
Qed.

Lemma push_lines_snoc (lines : list (list float)) (x : list float) (h : History) :
  push_lines NUM_BARS (lines ++ [x]) h
  = pushLineToHistory NUM_BARS x (push_lines NUM_BARS lines h).
Proof. unfold push_lines. rewrite foldl_app. reflexivity. Qed.

Lemma push_lines_keep_fit (lines : list (list float)) (h : History) :
  ring_fits NUM_BARS h -> Forall (fun L => length L = n) lines ->
  ring_fits NUM_BARS (push_lines NUM_BARS lines h) /\
  HISTORY_LINES (push_lines NUM_BARS lines h) = HISTORY_LINES h.
Proof.
  intros Hfit. induction lines as [| x lines IH] using rev_ind; intros Hall; [auto |].
  apply Forall_app in Hall as [Hall Hx]. rewrite Forall_singleton in Hx.
  rewrite push_lines_snoc. destruct (IH Hall) as [Hf Hd].
  split; [apply push_keeps_fit; assumption | exact Hd].
Qed.

(** After any number of pushes, row [k] within the depth holds the line
    pushed [k] pushes before the last one. *)
Lemma push_lines_rows (lines : list (list float)) :
  forall (h : History) (k : nat) (L : list float),
  ring_fits NUM_BARS h -> Forall (fun L => length L = n) lines ->
  (k < Z.to_nat (HISTORY_LINES h))%nat ->
  reverse lines !! k = Some L ->
  history_row NUM_BARS (push_lines NUM_BARS lines h) k = L.
Proof.
  induction lines as [| x lines IH] using rev_ind; intros h k L Hfit Hall Hk Hrev.
  - discriminate.
  - apply Forall_app in Hall as [Hall Hx]. rewrite Forall_singleton in Hx.
    rewrite push_lines_snoc.
    destruct (push_lines_keep_fit lines h Hfit Hall) as [Hfit' Hdepth].
    rewrite reverse_snoc in Hrev.
    destruct k as [| k].
    + injection Hrev as <-. apply push_row_0; assumption.
    + simpl in Hrev. rewrite push_row_S by (assumption || rewrite Hdepth; lia).
      apply IH; (assumption || lia).
Qed.

End HistoryRing.

(** C4.  One push on an all-zero ring leaves the pushed line in row 0 and
    zeros in every other row within the depth.  After [depth + 1] pushes of
    distinct lines [L1 .. L(depth+1)], row [k] (for [k < depth]) holds
    [L(depth+1-k)]: row 0 the last line, and no row within the depth holds
    [L1]. *)
Theorem history_shift_law (NUM_BARS : Z) (h : History) :
  let n := Z.to_nat NUM_BARS in
  let depth := Z.to_nat (HISTORY_LINES h) in
  0 <= NUM_BARS < 2 ^ 31 -> ring_fits NUM_BARS h ->
  (forall L : list float,
     length L = n ->
     lineHistory h = replicate (length (lineHistory h)) F32.zero ->
     history_row NUM_BARS (pushLineToHistory NUM_BARS L h) 0 = L /\
     forall k : nat, (0 < k < depth)%nat ->
       history_row NUM_BARS (pushLineToHistory NUM_BARS L h) k = replicate n F32.zero) /\
  (forall lines : list (list float),
     length lines = S depth ->
     Forall (fun L => length L = n) lines -> NoDup lines ->
     (forall k : nat, (k < depth)%nat ->
        lines !! (depth - k)%nat
        = Some (history_row NUM_BARS (push_lines NUM_BARS lines h) k)) /\
     (forall (k : nat) (L1 : list float), (k < depth)%nat ->
        lines !! 0%nat = Some L1 ->
        history_row NUM_BARS (push_lines NUM_BARS lines h) k <> L1)).
Proof.
  intros n depth Hbars Hfit. pose proof Hfit as [Hd Hlen]. fold n depth in Hlen.
  assert (Hrows : forall lines : list (list float),
            length lines = S depth -> Forall (fun L => length L = n) lines ->
            forall k : nat, (k < depth)%nat ->
            lines !! (depth - k)%nat
            = Some (history_row NUM_BARS (push_lines NUM_BARS lines h) k)).
  { intros lines Hcount Hall k Hk.
    destruct (lookup_lt_is_Some_2 lines (depth - k)%nat ltac:(lia)) as [L HL].
    rewrite HL. f_equal. symmetry.
    apply (push_lines_rows NUM_BARS Hbars lines h k L Hfit Hall Hk).
    rewrite reverse_lookup by lia. rewrite <- HL. f_equal. lia. }
  split.
  - intros L HL Hzero. split; [apply push_row_0; assumption |].
    intros k Hk. destruct k as [| k]; [lia |].
    rewrite push_row_S by (assumption || fold depth; lia).
    unfold history_row. fold n. rewrite Hzero.
    rewrite drop_replicate, take_replicate. f_equal. nia.
  - intros lines Hcount Hall Hnodup. split; [apply Hrows; assumption |].
    intros k L1 Hk HL1 Heq.
    pose proof (Hrows lines Hcount Hall k Hk) as Hrow. rewrite Heq in Hrow.
    pose proof (NoDup_lookup lines _ _ L1 Hnodup Hrow HL1). lia.
Qed.

Lemma history_shift_law_witness :
  history_row 2 (push_lines 2 demo_lines demo_history) 0 = [F32.one; F32.one] /\
  history_row 2 (push_lines 2 demo_lines demo_history) 1 = [F32.lit 1 2; F32.lit 1 2].
Proof.
  destruct (history_shift_law 2 demo_history) as [_ Hmany].
  - lia.
  - split; [vm_compute; intuition discriminate | simpl; lia].
  - destruct (Hmany demo_lines) as [Hrows _].
    + reflexivity.
    + repeat constructor.
    + unfold demo_lines. rewrite !NoDup_cons, !elem_of_cons, !elem_of_nil.
      repeat split; try apply NoDup_nil_2;
        intros H; vm_compute in H; decompose [or] H; (discriminate || contradiction).
    + pose proof (Hrows 0%nat ltac:(simpl; lia)) as H0.
      pose proof (Hrows 1%nat ltac:(simpl; lia)) as H1.
      split; apply (inj Some); symmetry; [exact H0 | exact H1].
Defined.

(** ** Fill counter *)

(** Case analysis on the integer comparisons in the goal. *)
Ltac case_ltb :=
  match goal with
  | |- context [?x <? ?y] => destruct (Z.ltb_spec x y) as [?Hlt | ?Hge]
  end.

Ltac case_leb :=
  match goal with
  | |- context [?x <=? ?y] => destruct (Z.leb_spec x y) as [?Hle | ?Hgt]
  end.

Ltac case_cmp := repeat (case_ltb || case_leb).

(** The depth input clamps what is typed into [10, 560]. *)
Example setHistoryLines_clamps :
  HISTORY_LINES <$> setHistoryLines 5 demo_history = Some 10 /\
  HISTORY_LINES <$> setHistoryLines 300 demo_history = Some 300 /\
  HISTORY_LINES <$> setHistoryLines 1000 demo_history = Some 560.
Proof. vm_compute. repeat split; reflexivity. Qed.

Lemma push_fill_bounded (NUM_BARS : Z) (line : list float) (h : History) :
  Int.in_int (historyFillCount h) -> Int.in_int (HISTORY_LINES h) ->
  fill_bounded h -> fill_bounded (pushLineToHistory NUM_BARS line h).
Proof.
  unfold fill_bounded, Int.in_int, pushLineToHistory. simpl. intros Hfill Hdepth Hle.
  destruct (Z.ltb_spec (historyFillCount h) (HISTORY_LINES h)) as [Hlt | _]; [| exact Hle].
  rewrite to_int_id by (unfold Int.in_int; lia). lia.
Qed.

Lemma setHistoryLines_keeps_counter (n : Z) (h h' : History) :
  setHistoryLines n h = Some h' ->
  historyFillCount h' = historyFillCount h /\ lineHistory h' = lineHistory h.
Proof.
  unfold setHistoryLines. intros Hset.
  destruct (F32.to_int _) as [lines |]; [| discriminate].
  injection Hset as <-. split; reflexivity.
Qed.

(** C5, as the code has it.  A push and a clear keep the fill counter at
    most the depth.  A change of the depth leaves the counter as it is, so
    the bound survives exactly when the new depth is not below the counter.
    Whatever the counter, the [effectiveHistory] the 2D renderer derives from
    it lies between 1 and the depth. *)
Theorem fill_counter_preservation (NUM_BARS : Z) (h : History) :
  Int.in_int (historyFillCount h) -> 1 <= HISTORY_LINES h < 2 ^ 31 ->
  (fill_bounded h ->
     forall line : list float, fill_bounded (pushLineToHistory NUM_BARS line h)) /\
  fill_bounded (clearHistory h) /\
  (forall (n : Z) (h' : History), setHistoryLines n h = Some h' ->
     historyFillCount h' = historyFillCount h /\
     (fill_bounded h' <-> historyFillCount h <= HISTORY_LINES h')) /\
  1 <= effectiveHistory h <= HISTORY_LINES h.
Proof.
  intros Hfill Hdepth. split; [| split; [| split]].
  - intros Hle line.
    apply push_fill_bounded; [assumption | unfold Int.in_int; lia | assumption].
  - unfold fill_bounded, clearHistory. simpl. lia.
  - intros n h' Hset. unfold fill_bounded.
    destruct (setHistoryLines_keeps_counter n h h' Hset) as [-> _]. tauto.
  - unfold effectiveHistory. case_cmp; lia.
Qed.

Lemma fill_counter_preservation_witness :
  fill_bounded (pushLineToHistory 2 [F32.one; F32.one] demo_history) /\
  fill_bounded (clearHistory demo_history) /\
  1 <= effectiveHistory demo_history <= HISTORY_LINES demo_history.
Proof.
  destruct (fill_counter_preservation 2 demo_history) as (Hpush & Hclear & _ & Heff).
  - unfold Int.in_int. simpl. lia.
  - simpl. lia.
  - split; [apply Hpush; unfold fill_bounded; simpl; lia | split; assumption].
Defined.

(** [k] analysis cycles that fit below the depth raise the counter by [k]. *)
Lemma ring_run_pushes (NUM_BARS : Z) (line : list float) (k : nat) :
  forall h : History,
  0 <= historyFillCount h ->
  historyFillCount h + Z.of_nat k <= HISTORY_LINES h < 2 ^ 31 ->
  exists h' : History,
    ring_run NUM_BARS (replicate k (OpPush line)) h = Some h' /\
    historyFillCount h' = historyFillCount h + Z.of_nat k /\
    HISTORY_LINES h' = HISTORY_LINES h.
Proof.
  induction k as [| k IH]; intros h Hfill Hroom.
  - exists h. simpl. repeat split; lia.
  - destruct (IH (pushLineToHistory NUM_BARS line h)) as (h' & Hrun & Hcount & Hdepth).
    + simpl. case_cmp; [rewrite to_int_id by (unfold Int.in_int; lia) |]; lia.
    + simpl. case_cmp; [rewrite to_int_id by (unfold Int.in_int; lia) |]; lia.
    + exists h'. split; [exact Hrun |]. rewrite Hcount, Hdepth. simpl.
      case_cmp; [rewrite to_int_id by (unfold Int.in_int; lia) |]; lia.
Qed.

(** C5, as the claim has it, fails: eleven analysis cycles from the initial
    state fill the counter to 11 within the depth of 140; typing 10 into
    "Number of Lines" then sets the depth to 10 and leaves the counter at
    11. *)
Lemma fill_counter_exceeds_depth :
  exists h h' : History,
    ring_run 1000 (replicate 11 (OpPush (replicate 1000 F32.zero))) (initial_history 1000)
      = Some h /\
    fill_bounded h /\
    ring_step 1000 (OpSetLines 10) h = Some h' /\
    historyFillCount h' = 11 /\ HISTORY_LINES h' = 10 /\
    ~ fill_bounded h'.
Proof.
  destruct (ring_run_pushes 1000 (replicate 1000 F32.zero) 11 (initial_history 1000))
    as (h & Hrun & Hcount & Hdepth); [simpl; lia | simpl; lia |].
  simpl in Hcount, Hdepth.
  exists h, (mkHistory (lineHistory h) (historyFillCount h) 10).
  split; [exact Hrun |].
  split; [unfold fill_bounded; lia |].
  split; [reflexivity |].
  split; [exact Hcount |]. split; [reflexivity |].
  unfold fill_bounded. simpl. lia.
Qed.

(** ** Loading *)

(** Two stereo frames are averaged into two mono samples. *)
Example load_downmixes :
  load loaded_wav
       (sf_opened (mkSF_INFO 2 48000 2) 2 [F32.lit 1 2; F32.lit 1 4; F32.one; F32.zero])
  = (true, mkWAVFile [F32.lit 3 8; F32.lit 1 2] 48000 2 1 16).
Proof. vm_compute. reflexivity. Qed.

(** When the file does not open, [load] returns before it touches the
    object. *)
Lemma load_open_failure (w : WAVFile) : load w sf_open_failed = (false, w).
Proof. reflexivity. Qed.

(** When the file opens and no frame can be read, [load] fails after it has
    stored the new sample rate and channel count: the old samples stay. *)
Lemma load_read_failure (w : WAVFile) (sfinfo : SF_INFO) (framesRead : Z) (buffer : list float) :
  framesRead <= 0 ->
  load w (sf_opened sfinfo framesRead buffer)
  = (false, mkWAVFile (audioData w) (Int.to_uint32 (samplerate sfinfo))
                      (Int.to_uint16 (channels sfinfo)) 1 (bitsPerSample w)).
Proof.
  intros Hread. unfold load.
  destruct (Z.leb_spec framesRead 0); [reflexivity | lia].
Qed.

(** C6 at a failing input: with a 44100 Hz mono file loaded, loading a
    48000 Hz stereo file that yields no frame returns [false], keeps the
    samples, and leaves 48000 Hz and two source channels behind. *)
Theorem load_failure_partial_update :
  load loaded_wav empty_stereo_file
  = (false, mkWAVFile (audioData loaded_wav) 48000 2 1 16) /\
  sampleRate (snd (load loaded_wav empty_stereo_file)) <> sampleRate loaded_wav /\
  sourceChannels (snd (load loaded_wav empty_stereo_file)) <> sourceChannels loaded_wav.
Proof. vm_compute. repeat split; discriminate. Qed.

(** ** Clamping *)

Example floor_of_negative_half : F32.to_int (F32.floor (F32.lit (-1) 2)) = Some (-1).
Proof. vm_compute. reflexivity. Qed.

Example clamp01_inside : clamp01 (F32.lit 1 4) = F32.lit 1 4.
Proof. vm_compute. reflexivity. Qed.

Example clamp01_infinity : clamp01 (S754_infinity false) = F32.one.
Proof. vm_compute. reflexivity. Qed.

Lemma ltb_leb (a b : float) : F32.ltb a b = true -> F32.leb a b = true.
Proof.
  unfold F32.ltb, F32.leb, SFltb, SFleb.
  destruct (SFcompare a b) as [[] |]; intros H; (reflexivity || discriminate H).
Qed.

(** [clamp01] returns a number between 0 and 1 on every input, NaN and the
    infinities included. *)
Lemma clamp01_range (v : float) :
  F32.leb F32.zero (clamp01 v) = true /\ F32.leb (clamp01 v) F32.one = true.
Proof.
  unfold clamp01, F32.max, F32.min.
  destruct (F32.ltb v F32.one) eqn:H1.
  - destruct (F32.ltb F32.zero v) eqn:H0.
    + split; apply ltb_leb; assumption.
    + split; reflexivity.
  - split; reflexivity.
Qed.

(** [clamp01] keeps a value strictly inside the range and moves every other
    one to the bound it has reached or passed. *)
Lemma clamp01_clamps (v : float) : clamped_to_unit v (clamp01 v).
Proof.
  unfold clamped_to_unit. repeat split.
  - intros H0 H1. unfold clamp01, F32.max, F32.min. rewrite H1, H0. reflexivity.
  - unfold clamp01, F32.max, F32.min, F32.leb, F32.ltb, SFleb, SFltb.
    change F32.one with (S754_finite false 8388608 (-23)). unfold F32.zero.
    destruct v as [s | s | | s m e]; try destruct s;
      cbv beta iota delta [SFcompare]; intros H; (discriminate H || reflexivity).
  - unfold clamp01, F32.max, F32.min, F32.leb, F32.ltb, SFleb, SFltb.
    change F32.one with (S754_finite false 8388608 (-23)). unfold F32.zero.
    destruct v as [s | s | | s m e]; try destruct s;
      cbv beta iota delta [SFcompare]; intros H;
      try (discriminate H || reflexivity).
    assert (Hflip : forall p q : positive,
              Pos.compare_cont Eq p q = CompOpp (Pos.compare_cont Eq q p))
      by (intros p q; exact (Pos.compare_antisym q p)).
    revert H. rewrite (Z.compare_antisym e), (Hflip _ m).
    destruct (e ?= -23); cbv beta iota delta [CompOpp];
      try (intros H; (discriminate H || reflexivity)).
    destruct (Pos.compare_cont Eq m 8388608); cbv beta iota;
      intros H; (discriminate H || reflexivity).
  - intros ->. vm_compute. reflexivity.
Qed.

(** ** Line builder *)

Section LineBuilderFacts.

Variable log10f : float -> float.
Variables NUM_BARS FFT_SIZE : Z.
Variables magnitudes gBarBinF : list float.

(** The value the loop computes for bar [i]. *)
Let bar (i : nat) : option float :=
  binF ← gBarBinF !! i; bar_value log10f FFT_SIZE magnitudes binF.

Lemma build_loop (k : nat) :
  forall currentLine : list float,
  (k <= length currentLine)%nat ->
  (forall i : nat, (i < k)%nat -> is_Some (bar i)) ->
  exists line : list float,
    foldl
      (fun line i =>
         line ← line;
         binF ← gBarBinF !! i;
         v ← bar_value log10f FFT_SIZE magnitudes binF;
         if decide (i < length line)%nat then Some (<[i := v]> line) else None)
      (Some currentLine) (seq 0 k) = Some line /\
    length line = length currentLine /\
    (forall i : nat, (i < k)%nat -> line !! i = bar i) /\
    (forall i : nat, (k <= i)%nat -> line !! i = currentLine !! i).
Proof.
  induction k as [| k IH]; intros currentLine Hlen Hdef.
  - exists currentLine. simpl. repeat split; intros; (lia || reflexivity).
  - destruct (IH currentLine ltac:(lia) ltac:(intros; apply Hdef; lia))
      as (line & Hrun & Hsame & Hset & Hrest).
    destruct (Hdef k ltac:(lia)) as [v Hv].
    exists (<[k := v]> line).
    rewrite seq_S, foldl_app, Hrun. simpl.
    pose proof Hv as Hv'. unfold bar in Hv'.
    destruct (gBarBinF !! k) as [binF |]; [| discriminate]. simpl in Hv' |- *.
    rewrite Hv'. simpl.
    destruct (decide (k < length line)%nat) as [_ | ?]; [| lia].
    split; [reflexivity |]. split; [rewrite length_insert; exact Hsame |]. split.
    + intros i Hi. destruct (decide (i = k)) as [-> | Hne].
      * rewrite list_lookup_insert_eq by lia. symmetry. exact Hv.
      * rewrite list_lookup_insert_ne by lia. apply Hset. lia.
    + intros i Hi. rewrite list_lookup_insert_ne by lia. apply Hrest. lia.
Qed.

(** Where the floor of the table entry converts to [int], the loop body
    finds both bins inside the magnitude array and stores the compressed,
    clamped interpolation. *)
Lemma bar_value_spec (binF : float) (fl : Z) :
  let nFreq := getNumFrequencies FFT_SIZE in
  let bin0 := Z.max 0 (Z.min (nFreq - 2) fl) in
  let frac := F32.sub binF (F32.of_Z fl) in
  Int.in_int FFT_SIZE -> 2 <= nFreq -> nFreq <= Z.of_nat (length magnitudes) ->
  F32.to_int (F32.floor binF) = Some fl ->
  exists m0 m1 : float,
    magnitudes !! Z.to_nat bin0 = Some m0 /\
    magnitudes !! Z.to_nat (bin0 + 1) = Some m1 /\
    bar_value log10f FFT_SIZE magnitudes binF
    = Some (clamp01
        (F32.div
           (log10f (F32.add F32.one
              (F32.mul (F32.add (F32.mul m0 (F32.sub F32.one frac)) (F32.mul m1 frac))
                       MAG_GAIN)))
           (log10f (F32.add F32.one MAG_GAIN)))).
Proof.
  intros nFreq bin0 frac Hfft Hn Hmag Hfl.
  assert (Hq : - 2 ^ 30 <= nFreq < 2 ^ 30).
  { unfold nFreq, getNumFrequencies, Int.in_int in *.
    pose proof (Z.quot_rem' FFT_SIZE 2).
    destruct (Z_le_gt_dec 0 FFT_SIZE).
    - pose proof (Z.rem_bound_pos FFT_SIZE 2). lia.
    - pose proof (Z.rem_bound_pos_neg FFT_SIZE 2). lia. }
  destruct (lookup_lt_is_Some_2 magnitudes (Z.to_nat bin0) ltac:(lia)) as [m0 Hm0].
  destruct (lookup_lt_is_Some_2 magnitudes (Z.to_nat (bin0 + 1)) ltac:(lia)) as [m1 Hm1].
  exists m0, m1. split; [exact Hm0 |]. split; [exact Hm1 |].
  unfold bar_value. rewrite Hfl. simpl. fold nFreq.
  rewrite (to_int_id (nFreq - 2)) by (unfold Int.in_int; lia). fold bin0.
  rewrite (to_int_id (bin0 + 1)) by (unfold Int.in_int; lia).
  destruct (Z.leb_spec 0 (bin0 + 1)); [| lia]. simpl.
  rewrite Hm0. simpl. rewrite Hm1. reflexivity.
Qed.

End LineBuilderFacts.

(** C7.  Given a magnitude array that covers the [nFreq] bins and a table
    whose first [NUM_BARS] entries have a floor that converts to [int],
    [buildCurrentLine] stores in each bar [i] the value
    [v = log10 (1 + m * MAG_GAIN) / log10 (1 + MAG_GAIN)] clamped to [0, 1]:
    [v] itself when [0 < v < 1], 0 when [v <= 0] and 1 when [1 <= v] (and 1
    for a NaN).  Here [m = mag[bin0] * (1 - frac) + mag[bin0 + 1] * frac],
    [bin0] is the floor of the table entry clamped to [0, nFreq - 2] and
    [frac] the entry minus its floor.  Each stored value lies between 0 and
    1, and the entries past [NUM_BARS] are left as they were. *)
Theorem buildCurrentLine_spec (log10f : float -> float) (NUM_BARS FFT_SIZE : Z)
    (magnitudes gBarBinF currentLine : list float) :
  let nFreq := getNumFrequencies FFT_SIZE in
  let bars := Z.to_nat NUM_BARS in
  Int.in_int FFT_SIZE -> 2 <= nFreq -> nFreq <= Z.of_nat (length magnitudes) ->
  (bars <= length gBarBinF)%nat -> (bars <= length currentLine)%nat ->
  (forall (i : nat) (binF : float), (i < bars)%nat -> gBarBinF !! i = Some binF ->
     is_Some (F32.to_int (F32.floor binF))) ->
  exists line : list float,
    buildCurrentLine log10f NUM_BARS FFT_SIZE magnitudes gBarBinF currentLine = Some line /\
    length line = length currentLine /\
    (forall i : nat, (bars <= i)%nat -> line !! i = currentLine !! i) /\
    forall i : nat, (i < bars)%nat ->
      exists (binF : float) (fl : Z) (m0 m1 stored : float),
        let bin0 := Z.max 0 (Z.min (nFreq - 2) fl) in
        let frac := F32.sub binF (F32.of_Z fl) in
        let m := F32.add (F32.mul m0 (F32.sub F32.one frac)) (F32.mul m1 frac) in
        let v := F32.div (log10f (F32.add F32.one (F32.mul m MAG_GAIN)))
                         (log10f (F32.add F32.one MAG_GAIN)) in
        gBarBinF !! i = Some binF /\
        F32.to_int (F32.floor binF) = Some fl /\
        magnitudes !! Z.to_nat bin0 = Some m0 /\
        magnitudes !! Z.to_nat (bin0 + 1) = Some m1 /\
        line !! i = Some stored /\
        clamped_to_unit v stored /\
        F32.leb F32.zero stored = true /\ F32.leb stored F32.one = true.
Proof.
  intros nFreq bars Hfft Hn Hmag Htable Hline Hfloor.
  assert (Hbar : forall i : nat, (i < bars)%nat ->
            exists (binF : float) (fl : Z) (m0 m1 : float),
              gBarBinF !! i = Some binF /\
              F32.to_int (F32.floor binF) = Some fl /\
              magnitudes !! Z.to_nat (Z.max 0 (Z.min (nFreq - 2) fl)) = Some m0 /\
              magnitudes !! Z.to_nat (Z.max 0 (Z.min (nFreq - 2) fl) + 1) = Some m1 /\
              bar_value log10f FFT_SIZE magnitudes binF
              = Some (clamp01
                  (F32.div
                     (log10f (F32.add F32.one
                        (F32.mul (F32.add (F32.mul m0 (F32.sub F32.one (F32.sub binF (F32.of_Z fl))))
                                          (F32.mul m1 (F32.sub binF (F32.of_Z fl))))
                                 MAG_GAIN)))
                     (log10f (F32.add F32.one MAG_GAIN))))).
  { intros i Hi.
    destruct (lookup_lt_is_Some_2 gBarBinF i ltac:(lia)) as [binF HbinF].
    destruct (Hfloor i binF Hi HbinF) as [fl Hfl].
    destruct (bar_value_spec log10f FFT_SIZE magnitudes binF fl Hfft Hn Hmag Hfl)
      as (m0 & m1 & Hm0 & Hm1 & Hval).
    exists binF, fl, m0, m1. auto. }
  destruct (build_loop log10f FFT_SIZE magnitudes gBarBinF bars currentLine Hline)
    as (line & Hrun & Hsame & Hset & Hrest).
  { intros i Hi. destruct (Hbar i Hi) as (binF & fl & m0 & m1 & HbinF & _ & _ & _ & Hval).
    rewrite HbinF. simpl. rewrite Hval. eauto. }
  exists line. split; [exact Hrun |]. split; [exact Hsame |]. split; [exact Hrest |].
  intros i Hi. destruct (Hbar i Hi) as (binF & fl & m0 & m1 & HbinF & Hfl & Hm0 & Hm1 & Hval).
  eexists binF, fl, m0, m1, (clamp01 _). simpl.
  split; [exact HbinF |]. split; [exact Hfl |]. split; [exact Hm0 |]. split; [exact Hm1 |].
  split; [rewrite (Hset i Hi), HbinF; simpl; exact Hval |].
  split; [apply clamp01_clamps | apply clamp01_range].
Qed.

Lemma buildCurrentLine_spec_witness :
  exists line : list float,
    buildCurrentLine demo_log10 2 8 demo_magnitudes demo_table [F32.zero; F32.zero]
      = Some line /\
    length line = 2%nat.
Proof.
  destruct (buildCurrentLine_spec demo_log10 2 8 demo_magnitudes demo_table
              [F32.zero; F32.zero]) as (line & Hrun & Hlen & _).
  - unfold Int.in_int. lia.
  - vm_compute. discriminate.
  - vm_compute. discriminate.
  - simpl. lia.
  - simpl. lia.
  - intros i binF Hi. destruct i as [| [| i]]; simpl; intros Hb;
      [injection Hb as <- | injection Hb as <- | lia]; vm_compute; eauto.
  - exists line. split; [exact Hrun | exact Hlen].
Defined.

(** ** Colormaps *)

Lemma one_val : F32.one = S754_finite false 8388608 (-23).
Proof. vm_compute. reflexivity. Qed.

(** Unfold the clamp down to the comparison of the two floats. *)
Ltac unfold_clamp01 :=
  unfold clamp01, F32.max, F32.min, F32.ltb, SFltb;
  rewrite one_val; unfold F32.zero.

Lemma clamp01_below (v : float) : F32.ltb v F32.zero = true -> clamp01 v = F32.zero.
Proof.
  unfold_clamp01.
  destruct v as [s | s | | s m e]; try destruct s;
    cbv beta iota delta [SFcompare]; intros H; (discriminate H || reflexivity).
Qed.

Lemma compare_cont_flip (p q : positive) :
  Pos.compare_cont Eq p q = CompOpp (Pos.compare_cont Eq q p).
Proof. exact (Pos.compare_antisym q p). Qed.

Lemma clamp01_above (v : float) : F32.ltb F32.one v = true -> clamp01 v = F32.one.
Proof.
  unfold_clamp01.
  destruct v as [s | s | | s m e]; try destruct s;
    cbv beta iota delta [SFcompare]; intros H;
    try (discriminate H || reflexivity).
  revert H. rewrite (Z.compare_antisym e), (compare_cont_flip _ m).
  destruct (e ?= -23); cbv beta iota delta [CompOpp];
    try (intros H; (discriminate H || reflexivity)).
  destruct (Pos.compare_cont Eq m 8388608); cbv beta iota;
    intros H; (discriminate H || reflexivity).
Qed.

Lemma clamp01_nan : clamp01 S754_nan = F32.one.
Proof. vm_compute. reflexivity. Qed.

(** Half way along the grayscale map. *)
Example grayscale_midpoint (rgb : RGB) :
  getCurrentColormapColor COLORMAP_GRAYSCALE (F32.lit 1 2) rgb
  = Some (F32.lit 1 2, F32.lit 1 2, F32.lit 1 2).
Proof. vm_compute. reflexivity. Qed.

(** The two early returns of [getColormapColor], on a table that starts at
    position 0 and ends at position 1. *)
Lemma getColormapColor_first (points : list ColormapPoint) (numPoints : Z)
    (value : float) (rgb : RGB) :
  position <$> head points = Some F32.zero ->
  clamp01 value = F32.zero ->
  getColormapColor points numPoints value rgb = rgb_of <$> head points.
Proof.
  intros Hpos Hv. unfold getColormapColor. rewrite Hv.
  destruct points as [| p0 rest]; [discriminate |].
  simpl in *. injection Hpos as ->. reflexivity.
Qed.

Lemma getColormapColor_last (points : list ColormapPoint) (numPoints : Z)
    (value : float) (rgb : RGB) :
  position <$> head points = Some F32.zero ->
  numPoints = Z.of_nat (length points) ->
  position <$> last points = Some F32.one ->
  clamp01 value = F32.one ->
  getColormapColor points numPoints value rgb = rgb_of <$> last points.
Proof.
  intros Hpos0 Hn Hposl Hv. unfold getColormapColor. rewrite Hv.
  rewrite last_lookup in Hposl |- *.
  replace (Z.to_nat (numPoints - 1)) with (pred (length points)) by lia.
  destruct (points !! pred (length points)) as [pl |]; [| discriminate].
  destruct points as [| p0 rest]; [discriminate |].
  destruct (Z.leb_spec 0 (numPoints - 1)); [| simpl in Hn; lia].
  simpl in Hpos0, Hposl. injection Hpos0 as Hpos0. injection Hposl as Hposl.
  simpl. rewrite Hpos0, Hposl.
  replace (F32.leb F32.one F32.zero) with false by (vm_compute; reflexivity).
  replace (F32.geb F32.one F32.one) with true by (vm_compute; reflexivity).
  reflexivity.
Qed.

(** Each table starts at position 0 and ends at position 1, and each [case]
    passes the length of its table. *)
Lemma colormap_table_shape (c : ColormapType) :
  position <$> head (colormap_table c).1 = Some F32.zero /\
  position <$> last (colormap_table c).1 = Some F32.one /\
  (colormap_table c).2 = Z.of_nat (length (colormap_table c).1).
Proof. destruct c; vm_compute; repeat split; reflexivity. Qed.

(** C8.  For each of the sixteen colormaps, the colour at 0.0 is the colour
    of the first control point and the colour at 1.0 that of the last one;
    every value below 0 gets the first colour and every value above 1 the
    last. *)
Theorem colormap_endpoints (c : ColormapType) (rgb : RGB) :
  let points := (colormap_table c).1 in
  is_Some (head points) /\ is_Some (last points) /\
  getCurrentColormapColor c F32.zero rgb = rgb_of <$> head points /\
  getCurrentColormapColor c F32.one rgb = rgb_of <$> last points /\
  (forall v : float, F32.ltb v F32.zero = true ->
     getCurrentColormapColor c v rgb = rgb_of <$> head points) /\
  (forall v : float, F32.ltb F32.one v = true ->
     getCurrentColormapColor c v rgb = rgb_of <$> last points).
Proof.
  intros points. destruct (colormap_table_shape c) as (Hhead & Hlast & Hcount).
  fold points in Hhead, Hlast, Hcount.
  assert (Hzero : clamp01 F32.zero = F32.zero) by (vm_compute; reflexivity).
  assert (Hone : clamp01 F32.one = F32.one) by (vm_compute; reflexivity).
  assert (Hcall : forall v, getCurrentColormapColor c v rgb
                            = getColormapColor points (colormap_table c).2 v rgb).
  { intros v. unfold getCurrentColormapColor, points.
    destruct (colormap_table c). reflexivity. }
  split; [destruct (head points); [eauto | discriminate] |].
  split; [destruct (last points); [eauto | discriminate] |].
  rewrite !Hcall. split; [| split; [| split]].
  - apply getColormapColor_first; assumption.
  - apply getColormapColor_last; assumption.
  - intros v Hv. rewrite Hcall. apply getColormapColor_first; [assumption |].
    apply clamp01_below. exact Hv.
  - intros v Hv. rewrite Hcall. apply getColormapColor_last; try assumption.
    apply clamp01_above. exact Hv.
Qed.

Lemma colormap_endpoints_witness :
  getCurrentColormapColor COLORMAP_VIRIDIS (F32.lit (-1) 2) (F32.zero, F32.zero, F32.zero)
    = Some (F32.lit 267 1000, F32.lit 5 1000, F32.lit 329 1000) /\
  getCurrentColormapColor COLORMAP_VIRIDIS (F32.lit 3 2) (F32.zero, F32.zero, F32.zero)
    = Some (F32.lit 993 1000, F32.lit 906 1000, F32.lit 144 1000).
Proof.
  destruct (colormap_endpoints COLORMAP_VIRIDIS (F32.zero, F32.zero, F32.zero))
    as (_ & _ & _ & _ & Hlow & Hhigh).
  split; [apply Hlow | apply Hhigh]; vm_compute; reflexivity.
Defined.

(** * Further properties *)

(** ** The order on floats *)

Lemma SFcompare_antisym (a b : float) :
  SFcompare b a = CompOpp <$> SFcompare a b.
Proof.
  destruct a as [sa | sa | | sa ma ea], b as [sb | sb | | sb mb eb];
    try destruct sa; try destruct sb; try reflexivity;
    cbv beta iota delta [SFcompare fmap option_fmap option_map];
    rewrite (Z.compare_antisym ea eb), (compare_cont_flip mb ma);
    destruct (ea ?= eb); try reflexivity;
    destruct (Pos.compare_cont Eq ma mb); reflexivity.
Qed.

Lemma SFcompare_defined (a b : float) :
  is_nan a = false -> is_nan b = false -> is_Some (SFcompare a b).
Proof.
  destruct a as [sa | sa | | sa ma ea], b as [sb | sb | | sb mb eb];
    intros Ha Hb; try discriminate; cbv beta iota delta [SFcompare]; eauto.
Qed.

Lemma leb_not_nan (a b : float) :
  F32.leb a b = true -> is_nan a = false /\ is_nan b = false.
Proof.
  destruct a as [sa | sa | | sa ma ea], b as [sb | sb | | sb mb eb];
    intros H; try discriminate H; split; reflexivity.
Qed.

Lemma ltb_not_nan (a b : float) :
  F32.ltb a b = true -> is_nan a = false /\ is_nan b = false.
Proof. intros H. apply leb_not_nan, ltb_leb, H. Qed.

Lemma leb_refl (a : float) : is_nan a = false -> F32.leb a a = true.
Proof.
  destruct a as [sa | sa | | sa ma ea]; try destruct sa; intros H;
    try discriminate H; try reflexivity;
    unfold F32.leb, SFleb; cbv beta iota delta [SFcompare];
    rewrite Z.compare_refl;
    change (Pos.compare_cont Eq ma ma) with (Pos.compare ma ma);
    rewrite Pos.compare_refl; reflexivity.
Qed.

(** Two numbers that are not NaN compare one way or the other. *)
Lemma not_ltb_leb (a b : float) :
  is_nan a = false -> is_nan b = false -> F32.ltb a b = false -> F32.leb b a = true.
Proof.
  intros Ha Hb. unfold F32.ltb, F32.leb, SFltb, SFleb.
  rewrite (SFcompare_antisym a b).
  destruct (SFcompare_defined a b Ha Hb) as [c ->]. destruct c; simpl; congruence.
Qed.

Lemma not_leb_ltb (a b : float) :
  is_nan a = false -> is_nan b = false -> F32.leb a b = false -> F32.ltb b a = true.
Proof.
  intros Ha Hb. unfold F32.ltb, F32.leb, SFltb, SFleb.
  rewrite (SFcompare_antisym a b).
  destruct (SFcompare_defined a b Ha Hb) as [c ->]. destruct c; simpl; congruence.
Qed.

(** [clampf] lands between its bounds on every input, as long as the
    bounds are ordered. *)
Lemma clampf_between (v lo hi : float) :
  F32.leb lo hi = true ->
  F32.leb lo (clampf v lo hi) = true /\ F32.leb (clampf v lo hi) hi = true.
Proof.
  intros Hb. destruct (leb_not_nan lo hi Hb) as [Hlo Hhi].
  unfold clampf, F32.max, F32.min.
  destruct (F32.ltb v hi) eqn:Hv.
  - destruct (F32.ltb lo v) eqn:Hl.
    + split; apply ltb_leb; assumption.
    + split; [apply leb_refl; exact Hlo | exact Hb].
  - destruct (F32.ltb lo hi) eqn:Hl.
    + split; [exact Hb | apply leb_refl; exact Hhi].
    + split; [apply leb_refl; exact Hlo | exact Hb].
Qed.

(** X1.  [clampf v lo hi] lies between [lo] and [hi] for every [v], NaN and
    the infinities included, as soon as the bounds are ordered; a value
    strictly between the bounds is returned as it is; and for [lo < hi] a NaN
    is turned into [hi]. *)
Theorem clampf_range (v lo hi : float) :
  F32.leb lo hi = true ->
  (F32.leb lo (clampf v lo hi) = true /\ F32.leb (clampf v lo hi) hi = true) /\
  (F32.ltb lo v = true -> F32.ltb v hi = true -> clampf v lo hi = v) /\
  (F32.ltb lo hi = true -> clampf S754_nan lo hi = hi).
Proof.
  intros Hb. split; [apply clampf_between; exact Hb |]. split.
  - intros Hlo Hhi. unfold clampf, F32.max, F32.min. rewrite Hhi, Hlo. reflexivity.
  - intros Hlt. unfold clampf, F32.max, F32.min.
    replace (F32.ltb S754_nan hi) with false by (destruct hi; reflexivity).
    rewrite Hlt. reflexivity.
Qed.

Lemma clampf_range_witness :
  (F32.leb (F32.lit 14 10) (clampf (F32.lit 5 1) (F32.lit 14 10) (F32.lit 12 1)) = true /\
   F32.leb (clampf (F32.lit 5 1) (F32.lit 14 10) (F32.lit 12 1)) (F32.lit 12 1) = true) /\
  (F32.ltb (F32.lit 14 10) (F32.lit 5 1) = true -> F32.ltb (F32.lit 5 1) (F32.lit 12 1) = true ->
   clampf (F32.lit 5 1) (F32.lit 14 10) (F32.lit 12 1) = F32.lit 5 1) /\
  (F32.ltb (F32.lit 14 10) (F32.lit 12 1) = true ->
   clampf S754_nan (F32.lit 14 10) (F32.lit 12 1) = F32.lit 12 1).
Proof.
  apply (clampf_range (F32.lit 5 1) (F32.lit 14 10) (F32.lit 12 1)). vm_compute. reflexivity.
Defined.

Lemma clampf_unit (v : float) :
  F32.leb F32.zero (clampf v F32.zero F32.one) = true /\
  F32.leb (clampf v F32.zero F32.one) F32.one = true.
Proof. apply clampf_between. vm_compute. reflexivity. Qed.

(** X2.  Whatever the mouse and the keys deliver, the camera pitch stays in
    [-89, 89], the camera distance in [1.4, 12] and the volume set by the
    [+] and [-] keys in [0, 1]. *)
Theorem clamped_controls (gPitch dy gDist wheel : float) (m : Mixer.Mixer) :
  (F32.leb (F32.lit (-89) 1) (Camera.dragPitch gPitch dy) = true /\
   F32.leb (Camera.dragPitch gPitch dy) (F32.lit 89 1) = true) /\
  (F32.leb (F32.lit 14 10) (Camera.scrollZoom gDist wheel) = true /\
   F32.leb (Camera.scrollZoom gDist wheel) (F32.lit 12 1) = true) /\
  (F32.leb F32.zero (Mixer.volume (Mixer.volumeUp m)) = true /\
   F32.leb (Mixer.volume (Mixer.volumeUp m)) F32.one = true) /\
  (F32.leb F32.zero (Mixer.volume (Mixer.volumeDown m)) = true /\
   F32.leb (Mixer.volume (Mixer.volumeDown m)) F32.one = true).
Proof.
  repeat apply conj;
    try (apply clampf_between; vm_compute; reflexivity);
    apply clampf_unit.
Qed.

(** ** Mute *)

Lemma volumeDown_muted (m : Mixer.Mixer) :
  Mixer.isMuted m = true -> Mixer.volume m = F32.zero -> Mixer.volumeDown m = m.
Proof.
  destruct m as [v mu b]. simpl. intros -> ->. vm_compute. reflexivity.
Qed.

Lemma volumeDown_iter_muted (k : nat) (m : Mixer.Mixer) :
  Mixer.isMuted m = true -> Mixer.volume m = F32.zero ->
  Nat.iter k Mixer.volumeDown m = m.
Proof.
  intros Hm Hv. induction k as [| k IH]; [reflexivity |].
  simpl. rewrite IH. apply volumeDown_muted; assumption.
Qed.

(** A number that is at least 0 and not above it is a zero. *)
Lemma not_positive_zero (v : float) :
  F32.leb F32.zero v = true -> F32.ltb F32.zero v = false -> is_zero v = true.
Proof.
  destruct v as [[|] | [|] | | [|] m e];
    cbv beta iota delta [F32.ltb F32.leb SFltb SFleb SFcompare F32.zero];
    intros H1 H2; solve [reflexivity | discriminate H1 | discriminate H2].
Qed.

(** X3.  While the mute flag is set the volume is a zero: the [M], [+]
    and [-] handlers keep this, and so does the volume slider, by its wheel
    step on any input and by dragging as long as the slider delivers a value
    in [[0, 1]]. *)
Theorem muted_means_silent (m : Mixer.Mixer) (dragged wheel : option float) :
  Mixer.muted_silent m ->
  Mixer.muted_silent (Mixer.toggleMute m) /\
  Mixer.muted_silent (Mixer.volumeUp m) /\
  Mixer.muted_silent (Mixer.volumeDown m) /\
  ((forall d : float, dragged = Some d -> unit_float d) ->
   Mixer.muted_silent (Mixer.volumeSlider dragged wheel m)).
Proof.
  unfold Mixer.muted_silent. intros Hinv. repeat apply conj.
  - destruct m as [v [|] b]; intros Hmu; [discriminate Hmu | reflexivity].
  - destruct m as [v [|] b]; intros Hmu; [| discriminate Hmu].
    simpl in Hinv. specialize (Hinv eq_refl). destruct v as [[|] | | |]; try discriminate Hinv;
      vm_compute in Hmu; discriminate Hmu.
  - destruct m as [v [|] b]; intros Hmu; [| discriminate Hmu].
    simpl in Hinv. specialize (Hinv eq_refl). destruct v as [[|] | | |]; try discriminate Hinv;
      vm_compute; reflexivity.
  - intros Hdrag. destruct m as [v [|] b]; simpl in Hinv.
    2:{ unfold Mixer.volumeSlider, SliderFloatWithWheel.
        destruct wheel as [w |]; [destruct (negb _) |]; simpl;
          rewrite ?andb_false_r; discriminate. }
    specialize (Hinv eq_refl).
    unfold Mixer.volumeSlider, SliderFloatWithWheel.
    assert (Hwheel : forall x : float,
              Mixer.isMuted
                (Mixer.mkMixer (clampf x F32.zero F32.one)
                   (if true && (true && F32.ltb F32.zero (clampf x F32.zero F32.one))
                    then false else true) b) = true ->
              is_zero (clampf x F32.zero F32.one) = true).
    { intros x. simpl. destruct (F32.ltb F32.zero (clampf x F32.zero F32.one)) eqn:Hpos;
        [discriminate |]. intros _.
      apply not_positive_zero; [apply clampf_unit | exact Hpos]. }
    assert (Hkeep : forall (changed : bool) (x : float),
              (changed = false -> is_zero x = true) ->
              (changed = true -> unit_float x) ->
              Mixer.isMuted
                (Mixer.mkMixer x (if changed && (true && F32.ltb F32.zero x)
                                  then false else true) b) = true ->
              is_zero x = true).
    { intros [|] x Hold Hnew; simpl; [| intros _; apply Hold; reflexivity].
      destruct (F32.ltb F32.zero x) eqn:Hpos; [discriminate |]. intros _.
      apply not_positive_zero; [apply Hnew; reflexivity | exact Hpos]. }
    assert (Hstay : forall (changed : bool) (x : float),
              changed = (match dragged with Some _ => true | None => false end) ->
              x = (match dragged with Some d => d | None => v end) ->
              Mixer.isMuted
                (Mixer.mkMixer x (if changed && (true && F32.ltb F32.zero x)
                                  then false else true) b) = true ->
              is_zero x = true).
    { intros changed x -> ->. apply Hkeep.
      - destruct dragged; [discriminate | intros _; exact Hinv].
      - destruct dragged as [d |]; [intros _; apply Hdrag; reflexivity | discriminate]. }
    destruct wheel as [w |]; [destruct (negb (SFeqb w F32.zero)) |].
    + apply Hwheel.
    + apply Hstay; reflexivity.
    + apply Hstay; reflexivity.
Qed.

Lemma muted_means_silent_witness :
  Mixer.muted_silent (Mixer.toggleMute (Mixer.mkMixer F32.zero true F32.one)) /\
  Mixer.muted_silent (Mixer.volumeUp (Mixer.mkMixer F32.zero true F32.one)) /\
  Mixer.muted_silent (Mixer.volumeDown (Mixer.mkMixer F32.zero true F32.one)) /\
  ((forall d : float, Some (F32.lit 1 2) = Some d -> unit_float d) ->
   Mixer.muted_silent
     (Mixer.volumeSlider (Some (F32.lit 1 2)) None (Mixer.mkMixer F32.zero true F32.one))).
Proof.
  apply (muted_means_silent (Mixer.mkMixer F32.zero true F32.one) (Some (F32.lit 1 2)) None).
  unfold Mixer.muted_silent. simpl. reflexivity.
Defined.

(** X4.  [SliderFloatWithWheel] with ordered bounds: a wheel step leaves
    the value between the bounds whatever the wheel and the value were,
    reports a change and marks the scroll as used; without a wheel step the
    value is what the slider wrote, or the old one, and the scroll mark is
    left as it was. *)
Theorem slider_wheel_stays_in_range (dragged : option float)
    (w v v_min v_max wheel_speed : float) (mark : bool) :
  F32.leb v_min v_max = true ->
  (SFeqb w F32.zero = false ->
     exists v' : float,
       SliderFloatWithWheel dragged (Some w) v v_min v_max wheel_speed mark
         = (true, v', true) /\
       F32.leb v_min v' = true /\ F32.leb v' v_max = true) /\
  (SFeqb w F32.zero = true ->
     SliderFloatWithWheel dragged (Some w) v v_min v_max wheel_speed mark
     = SliderFloatWithWheel dragged None v v_min v_max wheel_speed mark) /\
  SliderFloatWithWheel None None v v_min v_max wheel_speed mark = (false, v, mark) /\
  (forall d : float,
     SliderFloatWithWheel (Some d) None v v_min v_max wheel_speed mark = (true, d, mark)).
Proof.
  intros Hb. unfold SliderFloatWithWheel. repeat apply conj.
  - intros ->. simpl negb. cbv iota. eexists. split; [reflexivity |].
    apply clampf_between. exact Hb.
  - intros ->. reflexivity.
  - reflexivity.
  - reflexivity.
Qed.

Lemma slider_wheel_stays_in_range_witness :
  exists v' : float,
    SliderFloatWithWheel None (Some S754_nan) F32.one (F32.lit 1 10) (F32.lit 5 1)
      (F32.lit 5 100) false = (true, v', true) /\
    F32.leb (F32.lit 1 10) v' = true /\ F32.leb v' (F32.lit 5 1) = true.
Proof.
  destruct (slider_wheel_stays_in_range None S754_nan F32.one (F32.lit 1 10) (F32.lit 5 1)
              (F32.lit 5 100) false) as [H _].
  - vm_compute. reflexivity.
  - apply H. vm_compute. reflexivity.
Defined.

(** X5.  Muting and unmuting gives back the volume that was set, also with
    any number of [-] presses in between; one [+] press in between instead
    unmutes at volume 0.05 and the earlier volume is not restored. *)
Theorem mute_round_trip (m : Mixer.Mixer) (k : nat) :
  Mixer.isMuted m = false ->
  Mixer.toggleMute (Nat.iter k Mixer.volumeDown (Mixer.toggleMute m))
    = Mixer.mkMixer (Mixer.volume m) false (Mixer.volume m) /\
  Mixer.volumeUp (Mixer.toggleMute m)
    = Mixer.mkMixer (F32.lit 5 100) false (Mixer.volume m).
Proof.
  destruct m as [v mu b]. simpl. intros ->. split.
  - unfold Mixer.toggleMute at 2. simpl.
    rewrite volumeDown_iter_muted by reflexivity. reflexivity.
  - unfold Mixer.toggleMute, Mixer.volumeUp. simpl.
    replace (clampf (F32.add F32.zero (F32.lit 5 100)) F32.zero F32.one)
      with (F32.lit 5 100) by (vm_compute; reflexivity).
    replace (F32.ltb F32.zero (F32.lit 5 100)) with true by (vm_compute; reflexivity).
    reflexivity.
Qed.

Lemma mute_round_trip_witness :
  Mixer.toggleMute (Nat.iter 3 Mixer.volumeDown
      (Mixer.toggleMute (Mixer.mkMixer (F32.lit 7 10) false F32.one)))
    = Mixer.mkMixer (F32.lit 7 10) false (F32.lit 7 10) /\
  Mixer.volumeUp (Mixer.toggleMute (Mixer.mkMixer (F32.lit 7 10) false F32.one))
    = Mixer.mkMixer (F32.lit 5 100) false (F32.lit 7 10).
Proof.
  apply (mute_round_trip (Mixer.mkMixer (F32.lit 7 10) false F32.one) 3). reflexivity.
Defined.

(** ** Seek keys *)

Lemma seekBackward_spec (G : Playback) :
  let N := Z.of_nat (length (audioData (wavFile G))) in
  let pos := playbackPosition G in
  let sr := sampleRate (wavFile G) in
  0 < N -> 0 <= pos < 2 ^ 63 -> 0 <= sr < 2 ^ 32 ->
  Transport.seekBackward G = seek G (Z.max 0 (pos - sr * 5)).
Proof.
  intros N pos sr HN Hpos Hsr. unfold Transport.seekBackward. fold N pos sr.
  destruct (Z.eqb_spec N 0) as [? | _]; [lia |].
  rewrite (to_int64_id pos) by (unfold Int.in_int64; lia).
  rewrite (to_int64_id sr) by (unfold Int.in_int64; lia).
  rewrite (to_int64_id (sr * 5)) by (unfold Int.in_int64; lia).
  rewrite (to_int64_id (pos - sr * 5)) by (unfold Int.in_int64; lia).
  rewrite to_uint64_id by (unfold Int.in_size_t; lia).
  reflexivity.
Qed.

Lemma seekForward_spec (G : Playback) :
  let N := Z.of_nat (length (audioData (wavFile G))) in
  let pos := playbackPosition G in
  let sr := sampleRate (wavFile G) in
  0 < N < 2 ^ 63 -> 0 <= pos < 2 ^ 62 -> 0 <= sr < 2 ^ 32 ->
  Transport.seekForward G = seek G (Z.min N (pos + sr * 5)).
Proof.
  intros N pos sr HN Hpos Hsr. unfold Transport.seekForward. fold N pos sr.
  destruct (Z.eqb_spec N 0) as [? | _]; [lia |].
  rewrite (to_int64_id pos) by (unfold Int.in_int64; lia).
  rewrite (to_int64_id sr) by (unfold Int.in_int64; lia).
  rewrite (to_int64_id (sr * 5)) by (unfold Int.in_int64; lia).
  rewrite (to_int64_id (pos + sr * 5)) by (unfold Int.in_int64; lia).
  rewrite (to_int64_id N) by (unfold Int.in_int64; lia).
  rewrite to_uint64_id by (unfold Int.in_size_t; lia).
  reflexivity.
Qed.

(** X6.  On a loaded file with the clock inside the buffer and a sample
    rate that is not negative, the left-arrow key moves the clock back by
    five seconds of samples and stops at 0, the right-arrow key moves it on
    by as much and stops at the buffer length: the clock stays in [[0, N]],
    never moves the wrong way, and nothing else is changed. *)
Theorem seek_keys_stay_inside (G : Playback) :
  let N := Z.of_nat (length (audioData (wavFile G))) in
  let pos := playbackPosition G in
  let sr := sampleRate (wavFile G) in
  0 < N <= Int.vector_max_size -> 0 <= pos <= N -> 0 <= sr < 2 ^ 32 ->
  Transport.seekBackward G = seek G (Z.max 0 (pos - 5 * sr)) /\
  Transport.seekForward G = seek G (Z.min N (pos + 5 * sr)) /\
  0 <= playbackPosition (Transport.seekBackward G) <= pos /\
  pos <= playbackPosition (Transport.seekForward G) <= N.
Proof.
  intros N pos sr HN Hpos Hsr. rewrite vector_max_size_val in HN.
  rewrite seekBackward_spec by (fold N pos sr; lia).
  rewrite seekForward_spec by (fold N pos sr; lia).
  fold N pos sr. rewrite (Z.mul_comm sr 5). simpl playbackPosition.
  repeat apply conj; (reflexivity || lia).
Qed.

Lemma seek_keys_stay_inside_witness :
  Transport.seekBackward slow_clip = seek slow_clip (Z.max 0 (6 - 5 * 1)) /\
  Transport.seekForward slow_clip = seek slow_clip (Z.min 12 (6 + 5 * 1)) /\
  0 <= playbackPosition (Transport.seekBackward slow_clip) <= 6 /\
  6 <= playbackPosition (Transport.seekForward slow_clip) <= 12.
Proof.
  apply (seek_keys_stay_inside slow_clip); vm_compute; intuition discriminate.
Defined.

(** X7.  Away from the ends the two seek keys undo each other: left then
    right gives back the state when five seconds lie before the clock, right
    then left when five seconds lie after it. *)
Theorem seek_keys_round_trip (G : Playback) :
  let N := Z.of_nat (length (audioData (wavFile G))) in
  let pos := playbackPosition G in
  let sr := sampleRate (wavFile G) in
  0 < N <= Int.vector_max_size -> 0 <= pos <= N -> 0 <= sr < 2 ^ 32 ->
  (5 * sr <= pos -> Transport.seekForward (Transport.seekBackward G) = G) /\
  (pos + 5 * sr <= N -> Transport.seekBackward (Transport.seekForward G) = G).
Proof.
  intros N pos sr HN Hpos Hsr. rewrite vector_max_size_val in HN. split; intros Hroom.
  - rewrite (seekBackward_spec G) by (fold N pos sr; lia). fold pos sr.
    rewrite seekForward_spec by (simpl; fold N pos sr; lia).
    simpl. fold N pos sr.
    replace (Z.min N (Z.max 0 (pos - sr * 5) + sr * 5)) with pos by lia.
    change (seek G pos = G). apply seek_same.
  - rewrite (seekForward_spec G) by (fold N pos sr; lia). fold N pos sr.
    rewrite seekBackward_spec by (simpl; fold N pos sr; lia).
    simpl. fold N pos sr.
    replace (Z.max 0 (Z.min N (pos + sr * 5) - sr * 5)) with pos by lia.
    change (seek G pos = G). apply seek_same.
Qed.

Lemma seek_keys_round_trip_witness :
  Transport.seekForward (Transport.seekBackward slow_clip) = slow_clip /\
  Transport.seekBackward (Transport.seekForward slow_clip) = slow_clip.
Proof.
  destruct (seek_keys_round_trip slow_clip) as [Hl Hr];
    [vm_compute; intuition discriminate ..|].
  split; [apply Hl | apply Hr]; vm_compute; discriminate.
Defined.

(** ** Audio device *)

(** X8.  "Refresh Audio Device" while playing a loaded file, when the new
    stream starts: the clock, the pause flag, the samples, the loop flag and
    the volume are what they were, playback is on, and the latency base is
    taken from the new stream.  Pressed while nothing plays it is
    [stopAudio]: the clock goes back to 0. *)
Theorem refresh_keeps_place (t : Transport.Transport) (pa : Transport.pa_outcome) (L : Z) :
  let G := Transport.playback t in
  let t' := Transport.refreshAudioDevice (Transport.PaStarted L) t in
  audioData (wavFile G) <> [] ->
  (Transport.isPlaying t = true ->
     Transport.playback t'
       = mkPlayback (wavFile G) (playbackPosition G) (isPaused G) (loopAudio G) (volume G)
                    (if 2 <=? sourceChannels (wavFile G) then 2 else 1) /\
     Transport.isPlaying t' = true /\ Transport.audioStream t' = true /\
     Transport.gLatencySamplesBase t' = startAudio_gLatencySamplesBase L) /\
  (Transport.isPlaying t = false ->
     Transport.refreshAudioDevice pa t = Transport.stopAudio t /\
     playbackPosition (Transport.playback (Transport.refreshAudioDevice pa t)) = 0).
Proof.
  intros G t' Hdata. subst t'. destruct t as [[w pos paused lp vol ch] playing stream base].
  simpl in G, Hdata. subst G. split; intros Hplay; simpl in Hplay; subst playing.
  - unfold Transport.refreshAudioDevice, Transport.startAudio, Transport.stopAudio,
      Transport.with_clock. simpl.
    destruct (audioData w) as [| x l]; [congruence |]. simpl.
    destruct paused; simpl; auto.
  - unfold Transport.refreshAudioDevice. simpl. auto.
Qed.

Lemma refresh_keeps_place_witness :
  (Transport.isPlaying paused_transport = true ->
     Transport.playback (Transport.refreshAudioDevice (Transport.PaStarted 44) paused_transport)
       = mkPlayback (wavFile (Transport.playback paused_transport)) 6 true false F32.one 1 /\
     Transport.isPlaying (Transport.refreshAudioDevice (Transport.PaStarted 44) paused_transport)
       = true /\
     Transport.audioStream (Transport.refreshAudioDevice (Transport.PaStarted 44) paused_transport)
       = true /\
     Transport.gLatencySamplesBase
       (Transport.refreshAudioDevice (Transport.PaStarted 44) paused_transport)
       = startAudio_gLatencySamplesBase 44) /\
  (Transport.isPlaying paused_transport = false ->
     Transport.refreshAudioDevice Transport.PaStartFails paused_transport
       = Transport.stopAudio paused_transport /\
     playbackPosition (Transport.playback
       (Transport.refreshAudioDevice Transport.PaStartFails paused_transport)) = 0).
Proof.
  apply (refresh_keeps_place paused_transport Transport.PaStartFails 44). discriminate.
Defined.

(** X9.  When the stream opens but does not start, [startAudio] leaves
    it open and playback off; from then on every further [startAudio] returns
    at once and changes nothing, whatever PortAudio would answer, until
    [stopAudio] has closed the stream, after which a start succeeds again. *)
Theorem failed_start_blocks_play (t : Transport.Transport) (pa : Transport.pa_outcome) (L : Z) :
  let t1 := Transport.startAudio Transport.PaStartFails t in
  audioData (wavFile (Transport.playback t)) <> [] -> Transport.audioStream t = false ->
  Transport.isPlaying t1 = Transport.isPlaying t /\
  Transport.audioStream t1 = true /\
  Transport.startAudio pa t1 = t1 /\
  Transport.isPlaying (Transport.startAudio (Transport.PaStarted L) (Transport.stopAudio t1))
    = true.
Proof.
  intros t1 Hdata Hstream. subst t1.
  destruct t as [[[data sr sc nc bps] pos paused lp vol ch] playing stream base].
  simpl in Hdata, Hstream. subst stream.
  destruct data as [| x l]; [congruence |].
  unfold Transport.startAudio, Transport.stopAudio, Transport.with_clock. simpl.
  repeat split; reflexivity.
Qed.

Lemma failed_start_blocks_play_witness :
  Transport.isPlaying (Transport.startAudio Transport.PaStartFails stopped_transport) = false /\
  Transport.audioStream (Transport.startAudio Transport.PaStartFails stopped_transport) = true /\
  Transport.startAudio (Transport.PaStarted 44)
    (Transport.startAudio Transport.PaStartFails stopped_transport)
    = Transport.startAudio Transport.PaStartFails stopped_transport /\
  Transport.isPlaying (Transport.startAudio (Transport.PaStarted 44)
    (Transport.stopAudio (Transport.startAudio Transport.PaStartFails stopped_transport))) = true.
Proof.
  apply (failed_start_blocks_play stopped_transport (Transport.PaStarted 44) 44).
  - discriminate.
  - reflexivity.
Defined.

(** ** More on the audio callback *)

(** The clock after the frame loop does not depend on the output buffer. *)
Lemma frame_loop_clock (G : Playback) (outCh k : nat) :
  forall (i : nat) (out : list float) (pos : Z),
  snd (foldl (audio_frame G (Z.of_nat (length (audioData (wavFile G)))) outCh)
             (out, pos) (seq i k))
  = snd (frames_from G k pos).
Proof.
  induction k as [| k IH]; intros i out pos; [reflexivity |].
  rewrite <- cons_seq, foldl_step, audio_frame_sample. simpl frames_from.
  destruct (frame_sample G pos) as [s pos1]. simpl fst. simpl snd.
  rewrite IH. destruct (frames_from G k pos1). reflexivity.
Qed.

Lemma audioCallback_clock (G : Playback) (out : list float) (f : Z) :
  snd (audioCallback G out f)
  = seek G (snd (frames_from G (Z.to_nat f) (playbackPosition G))).
Proof.
  unfold audioCallback.
  pose proof (frame_loop_clock G (Z.to_nat (Z.max 1 (gOutputChannels G))) (Z.to_nat f)
                0%nat out (playbackPosition G)) as H.
  destruct (foldl _ _ _) as [o p]. simpl in H. subst p. reflexivity.
Qed.

Lemma frame_sample_inside (G : Playback) (pos : Z) :
  let N := Z.of_nat (length (audioData (wavFile G))) in
  N < 2 ^ 64 -> 0 <= pos <= N -> 0 <= snd (frame_sample G pos) <= N.
Proof.
  intros N HN Hpos. unfold frame_sample. fold N.
  destruct (isPaused G); simpl orb; [simpl; lia |].
  destruct (Z.eqb_spec N 0) as [? | Hne]; [simpl; lia |].
  destruct (Z.ltb_spec pos N) as [Hlt | Hge].
  - simpl. rewrite to_uint64_id by (unfold Int.in_size_t; lia). lia.
  - destruct (loopAudio G); simpl; [| lia].
    rewrite to_uint64_id by (unfold Int.in_size_t; lia). lia.
Qed.

Lemma frames_from_inside (G : Playback) (k : nat) :
  let N := Z.of_nat (length (audioData (wavFile G))) in
  forall pos, N < 2 ^ 64 -> 0 <= pos <= N -> 0 <= snd (frames_from G k pos) <= N.
Proof.
  intros N. induction k as [| k IH]; intros pos HN Hpos; [simpl; lia |].
  simpl. pose proof (frame_sample_inside G pos HN Hpos) as H1.
  destruct (frame_sample G pos) as [s pos1]. simpl in H1.
  specialize (IH pos1 HN H1). destruct (frames_from G k pos1). simpl in *. exact IH.
Qed.

(** X10.  A call of the fill callback, with any number of frames, any flags
    and any output buffer, changes nothing of the playback state but the
    clock, and a clock that is inside [[0, N]] stays there ([N] the number
    of samples, 0 included). *)
Theorem audioCallback_clock_inside (G : Playback) (out : list float) (f : Z) :
  let N := Z.of_nat (length (audioData (wavFile G))) in
  N < 2 ^ 64 -> 0 <= playbackPosition G <= N ->
  exists pos', snd (audioCallback G out f) = seek G pos' /\ 0 <= pos' <= N.
Proof.
  intros N HN Hpos. exists (snd (frames_from G (Z.to_nat f) (playbackPosition G))).
  split; [apply audioCallback_clock | apply frames_from_inside; assumption].
Qed.

Lemma audioCallback_clock_inside_witness :
  exists pos', snd (audioCallback demo_playback (replicate 8 S754_nan) 3) = seek demo_playback pos'
               /\ 0 <= pos' <= 3.
Proof.
  apply (audioCallback_clock_inside demo_playback (replicate 8 S754_nan) 3);
    vm_compute; intuition discriminate.
Defined.

(** X11.  With no samples loaded the callback writes silence to the frames
    it was asked for and changes nothing, whatever the pause and loop
    flags. *)
Theorem audioCallback_nothing_loaded (G : Playback) (out : list float) (f : Z) :
  let outCh := Z.to_nat (Z.max 1 (gOutputChannels G)) in
  let n := Z.to_nat f in
  audioData (wavFile G) = [] -> (n * outCh <= length out)%nat ->
  audioCallback G out f = (replicate (n * outCh) F32.zero ++ drop (n * outCh) out, G).
Proof.
  intros outCh n Hempty Hlen. rewrite audioCallback_frames by exact Hlen.
  fold outCh n. rewrite frames_silent.
  - simpl. rewrite interleave_silence, seek_same. reflexivity.
  - unfold frame_sample. rewrite Hempty. simpl. rewrite orb_true_r. reflexivity.
Qed.

Lemma audioCallback_nothing_loaded_witness :
  audioCallback (mkPlayback (mkWAVFile [] 0 0 1 16) 0 false true F32.one 2)
                (replicate 5 F32.one) 2
  = (replicate 4 F32.zero ++ drop 4 (replicate 5 F32.one),
     mkPlayback (mkWAVFile [] 0 0 1 16) 0 false true F32.one 2).
Proof.
  apply (audioCallback_nothing_loaded
           (mkPlayback (mkWAVFile [] 0 0 1 16) 0 false true F32.one 2)
           (replicate 5 F32.one) 2); [reflexivity | simpl; lia].
Defined.

(** X12.  Two callbacks in a row give what one callback for all the frames
    gives: the same samples in the same order and the same final state. *)
Theorem audioCallback_split (G : Playback) (out1 out2 out : list float) (f1 f2 : Z) :
  let outCh := Z.to_nat (Z.max 1 (gOutputChannels G)) in
  let n1 := Z.to_nat f1 in
  let n2 := Z.to_nat f2 in
  let first := audioCallback G out1 f1 in
  let second := audioCallback (snd first) out2 f2 in
  0 <= f1 -> 0 <= f2 ->
  (n1 * outCh <= length out1)%nat -> (n2 * outCh <= length out2)%nat ->
  ((n1 + n2) * outCh <= length out)%nat ->
  audioCallback G out (f1 + f2)
  = (take (n1 * outCh) (fst first) ++ take (n2 * outCh) (fst second)
       ++ drop ((n1 + n2) * outCh) out,
     snd second).
Proof.
  intros outCh n1 n2 first second Hf1 Hf2 H1 H2 H.
  subst second first.
  rewrite (audioCallback_frames G out1 f1) by exact H1. fold outCh n1. simpl fst. simpl snd.
  rewrite (audioCallback_frames (seek G _) out2 f2) by exact H2.
  simpl gOutputChannels. fold outCh n2. simpl fst. simpl snd.
  rewrite audioCallback_frames by (fold outCh; rewrite Z2Nat.inj_add by lia; exact H).
  fold outCh. rewrite Z2Nat.inj_add by lia. fold n1 n2.
  rewrite frames_from_app, !frames_from_seek. simpl fst. simpl snd.
  simpl playbackPosition.
  rewrite !take_app_length' by (rewrite interleave_length, frames_from_length; reflexivity).
  unfold interleave. rewrite flat_map_app, <- app_assoc. reflexivity.
Qed.

Lemma audioCallback_split_witness :
  audioCallback demo_playback (replicate 8 S754_nan) (1 + 2)
  = (take (1 * 2) (fst (audioCallback demo_playback (replicate 2 F32.one) 1))
       ++ take (2 * 2)
            (fst (audioCallback (snd (audioCallback demo_playback (replicate 2 F32.one) 1))
                                (replicate 4 F32.one) 2))
       ++ drop ((1 + 2) * 2) (replicate 8 S754_nan),
     snd (audioCallback (snd (audioCallback demo_playback (replicate 2 F32.one) 1))
                        (replicate 4 F32.one) 2)).
Proof.
  apply (audioCallback_split demo_playback (replicate 2 F32.one) (replicate 4 F32.one)
           (replicate 8 S754_nan) 1 2); vm_compute; (discriminate || lia).
Defined.

Lemma frames_looping (G : Playback) (k : nat) :
  let data := audioData (wavFile G) in
  let N := Z.of_nat (length data) in
  forall pos,
  isPaused G = false -> loopAudio G = true -> 0 < N < 2 ^ 64 -> 0 <= pos <= N ->
  frames_from G k pos
  = (map (fun i : nat => F32.mul (at_index data ((pos + Z.of_nat i) mod N)) (volume G))
         (seq 0 k),
     loop_clock N pos k).
Proof.
  intros data N. induction k as [| k IH]; intros pos Hrun Hloop HN Hpos; [reflexivity |].
  assert (Hstep : frame_sample G pos
                  = (F32.mul (at_index data (pos mod N)) (volume G), pos mod N + 1)).
  { unfold frame_sample. fold data N. rewrite Hrun, Hloop. simpl orb.
    destruct (Z.eqb_spec N 0) as [? | _]; [lia |].
    destruct (Z.ltb_spec pos N) as [Hlt | Hge].
    - rewrite Z.mod_small by lia.
      rewrite to_uint64_id by (unfold Int.in_size_t; lia). reflexivity.
    - replace pos with N by lia. rewrite Z.mod_same by lia.
      rewrite to_uint64_id by (unfold Int.in_size_t; lia). reflexivity. }
  assert (Hm : 0 <= pos mod N < N) by (apply Z.mod_pos_bound; lia).
  simpl frames_from. rewrite Hstep, IH by (assumption || lia).
  f_equal.
  - simpl seq. simpl map. rewrite Z.add_0_r. f_equal.
    rewrite <- seq_shift, map_map. apply map_ext. intros i. do 2 f_equal.
    assert (Hmod : (pos + Z.of_nat (S i)) mod N = (pos mod N + 1 + Z.of_nat i) mod N).
    { rewrite <- (Z.add_mod_idemp_l pos) by lia. f_equal. lia. }
    first [exact Hmod | symmetry; exact Hmod].
  - unfold loop_clock. destruct k as [| k].
    + replace (pos + Z.of_nat 1 - 1) with pos by lia. reflexivity.
    + f_equal.
      replace (pos mod N + 1 + Z.of_nat (S k) - 1) with (pos mod N + Z.of_nat (S k)) by lia.
      replace (pos + Z.of_nat (S (S k)) - 1) with (pos + Z.of_nat (S k)) by lia.
      rewrite Z.add_mod_idemp_l by lia. reflexivity.
Qed.

(** X13.  Looping playback is periodic over any number of frames: with
    the clock at [pos] in [[0, N]], frame [i] of a callback carries sample
    [(pos + i) mod N] times the volume, and after [f > 0] frames the clock
    is at [(pos + f - 1) mod N + 1], a value in [[1, N]]. *)
Theorem looping_is_periodic (G : Playback) (out : list float) (f : Z) :
  let data := audioData (wavFile G) in
  let N := Z.of_nat (length data) in
  let pos := playbackPosition G in
  let outCh := Z.to_nat (Z.max 1 (gOutputChannels G)) in
  let n := Z.to_nat f in
  isPaused G = false -> loopAudio G = true ->
  0 < N < 2 ^ 64 -> 0 <= pos <= N -> 0 < f -> (n * outCh <= length out)%nat ->
  audioCallback G out f
  = (interleave outCh
       (map (fun i : nat => F32.mul (at_index data ((pos + Z.of_nat i) mod N)) (volume G))
            (seq 0 n))
       ++ drop (n * outCh) out,
     seek G ((pos + f - 1) mod N + 1)) /\
  1 <= (pos + f - 1) mod N + 1 <= N.
Proof.
  intros data N pos outCh n Hrun Hloop HN Hpos Hf Hlen. split.
  - rewrite audioCallback_frames by exact Hlen. fold outCh n pos.
    rewrite (frames_looping G n pos) by assumption. fold data N. simpl fst. simpl snd.
    do 2 f_equal. unfold loop_clock. destruct n as [| n'] eqn:En; [lia |].
    rewrite <- En. unfold n. rewrite Z2Nat.id by lia. reflexivity.
  - pose proof (Z.mod_pos_bound (pos + f - 1) N ltac:(lia)). lia.
Qed.

Lemma looping_is_periodic_witness :
  audioCallback demo_playback (replicate 16 S754_nan) 7
  = (interleave 2
       (map (fun i : nat =>
               F32.mul (at_index [F32.lit 1 2; F32.lit 1 4; F32.lit 1 8] ((1 + Z.of_nat i) mod 3))
                       F32.one)
            (seq 0 7))
       ++ drop (7 * 2) (replicate 16 S754_nan),
     seek demo_playback ((1 + 7 - 1) mod 3 + 1)) /\
  1 <= (1 + 7 - 1) mod 3 + 1 <= 3.
Proof.
  apply (looping_is_periodic demo_playback (replicate 16 S754_nan) 7);
    try reflexivity; vm_compute; (intuition discriminate || lia).
Defined.

(** ** Playing at volume zero *)

Lemma mul_zero_volume (x vol : float) :
  is_number x = true -> is_zero vol = true -> is_zero (F32.mul x vol) = true.
Proof.
  destruct x as [s | s | | s m e], vol as [t | t | | t mv ev]; intros H1 H2;
    solve [discriminate H1 | discriminate H2 | reflexivity].
Qed.

Lemma at_index_number (data : list float) (i : Z) :
  Forall (fun x => is_number x = true) data -> is_number (at_index data i) = true.
Proof.
  intros Hdata. unfold at_index. destruct (data !! Z.to_nat i) as [x |] eqn:Hx; [| reflexivity].
  simpl. exact (proj1 (Forall_lookup _ _) Hdata _ _ Hx).
Qed.

Lemma frames_at_zero_volume (G : Playback) (k : nat) :
  is_zero (volume G) = true -> Forall (fun x => is_number x = true) (audioData (wavFile G)) ->
  forall pos, Forall (fun s => is_zero s = true) (fst (frames_from G k pos)).
Proof.
  intros Hvol Hdata. induction k as [| k IH]; intros pos; [constructor |].
  simpl. assert (Hs : is_zero (fst (frame_sample G pos)) = true).
  { unfold frame_sample.
    destruct (isPaused G || _); [reflexivity |].
    destruct (pos <? _); [apply mul_zero_volume; [apply at_index_number, Hdata | exact Hvol] |].
    destruct (loopAudio G); [| reflexivity].
    apply mul_zero_volume; [apply at_index_number, Hdata | exact Hvol]. }
  destruct (frame_sample G pos) as [s pos1]. specialize (IH pos1).
  destruct (frames_from G k pos1) as [rest pos2]. simpl in *.
  constructor; assumption.
Qed.

Lemma interleave_zero (outCh : nat) (samples : list float) :
  Forall (fun s => is_zero s = true) samples ->
  Forall (fun s => is_zero s = true) (interleave outCh samples).
Proof.
  intros H. unfold interleave. induction H as [| s l Hs _ IH]; [constructor |].
  simpl. apply Forall_app. split; [| exact IH].
  apply Forall_forall. intros x Hx. apply elem_of_replicate in Hx as [-> _]. exact Hs.
Qed.

(** X14.  While the volume is a zero, as it is whenever the mute flag is
    set, every sample the callback writes is a zero (of either sign),
    provided the loaded samples are numbers; the slots behind the requested
    frames are left alone. *)
Theorem muted_output_is_silent (G : Playback) (out : list float) (f : Z) :
  let outCh := Z.to_nat (Z.max 1 (gOutputChannels G)) in
  let n := Z.to_nat f in
  is_zero (volume G) = true ->
  Forall (fun x => is_number x = true) (audioData (wavFile G)) ->
  (n * outCh <= length out)%nat ->
  Forall (fun s => is_zero s = true) (take (n * outCh) (fst (audioCallback G out f))) /\
  drop (n * outCh) (fst (audioCallback G out f)) = drop (n * outCh) out.
Proof.
  intros outCh n Hvol Hdata Hlen.
  rewrite audioCallback_frames by exact Hlen. fold outCh n. simpl fst.
  assert (Hil : length (interleave outCh (fst (frames_from G n (playbackPosition G))))
                = (n * outCh)%nat)
    by (rewrite interleave_length, frames_from_length; reflexivity).
  split.
  - rewrite take_app_length' by (symmetry; exact Hil).
    apply interleave_zero, frames_at_zero_volume; assumption.
  - rewrite drop_app_length' by (symmetry; exact Hil). reflexivity.
Qed.

Lemma muted_output_is_silent_witness :
  Forall (fun s => is_zero s = true)
    (take (3 * 2) (fst (audioCallback (at_volume_zero demo_playback) (replicate 8 S754_nan) 3))) /\
  drop (3 * 2) (fst (audioCallback (at_volume_zero demo_playback) (replicate 8 S754_nan) 3))
  = drop (3 * 2) (replicate 8 S754_nan).
Proof.
  apply (muted_output_is_silent (at_volume_zero demo_playback) (replicate 8 S754_nan) 3).
  - reflexivity.
  - repeat constructor.
  - simpl. lia.
Defined.

(** ** The transport as a whole *)

Lemma startAudio_sound (pa : Transport.pa_outcome) (t : Transport.Transport) :
  Transport.sound t -> Transport.sound (Transport.startAudio pa t).
Proof.
  intros Hs. pose proof Hs as (Hpos & HN & Hsr & Hplay). unfold Transport.startAudio.
  destruct (Z.eqb_spec (Z.of_nat (length (audioData (wavFile (Transport.playback t))))) 0)
    as [? | Hne]; [exact Hs |].
  destruct (Transport.audioStream t) eqn:Hstream; [exact Hs |].
  assert (Hoff : Transport.isPlaying t = false).
  { destruct (Transport.isPlaying t); [| reflexivity].
    destruct (Hplay eq_refl) as [Hopen _]. congruence. }
  destruct pa as [left | | L]; unfold Transport.sound; simpl;
    (split; [exact Hpos | split; [exact HN | split; [exact Hsr |]]]).
  - rewrite Hoff. discriminate.
  - rewrite Hoff. discriminate.
  - intros _. split; [reflexivity | exact Hne].
Qed.

Lemma stopAudio_sound (t : Transport.Transport) :
  Transport.sound t -> Transport.sound (Transport.stopAudio t).
Proof.
  intros (Hpos & HN & Hsr & Hplay). unfold Transport.sound, Transport.stopAudio. simpl.
  split; [lia | split; [exact HN | split; [exact Hsr | discriminate]]].
Qed.

(** Moving the clock inside the buffer, or changing the pause flag, keeps
    the transport sound. *)
Lemma with_clock_sound (t : Transport.Transport) (pos : Z) (paused : bool) :
  Transport.sound t ->
  0 <= pos <= Z.of_nat (length (audioData (wavFile (Transport.playback t)))) ->
  Transport.sound
    (Transport.on_playback (fun G => Transport.with_clock G pos paused) t).
Proof.
  intros (Hpos & HN & Hsr & Hplay) Hin. unfold Transport.sound. simpl.
  split; [exact Hin | split; [exact HN | split; [exact Hsr | exact Hplay]]].
Qed.

Lemma step_sound (e : Transport.event) (t : Transport.Transport) :
  Transport.fits_vector e -> Transport.sound t -> Transport.sound (Transport.step e t).
Proof.
  intros Hfit Hs. pose proof Hs as (Hpos & HN & Hsr & Hplay).
  pose proof vector_max_size_val as Hmax.
  set (G := Transport.playback t) in *.
  assert (Hflip : Transport.sound
            (Transport.on_playback
               (fun G => Transport.with_clock G (playbackPosition G) (negb (isPaused G))) t))
    by (apply (with_clock_sound t (playbackPosition G) (negb (isPaused G))); assumption).
  assert (Hzero : Transport.sound
            (Transport.on_playback (fun G => Transport.with_clock G 0 (isPaused G)) t))
    by (apply (with_clock_sound t 0 (isPaused G)); [exact Hs | fold G; lia]).
  destruct e as [out f | pa | | | | pa | | pa | pa | file]; cbn [Transport.step].
  - (* Callback *)
    destruct (Transport.isPlaying t) eqn:Hp; [| exact Hs].
    unfold Transport.on_playback. rewrite audioCallback_clock.
    apply (with_clock_sound t (snd (frames_from G (Z.to_nat f) (playbackPosition G)))
             (isPaused G)); [exact Hs |].
    apply frames_from_inside; fold G; lia.
  - (* KeySpace *)
    destruct (Transport.isPlaying t); [exact Hflip |].
    destruct (Transport.loaded t); [apply startAudio_sound |]; exact Hs.
  - (* KeyR *)
    destruct (Transport.isPlaying t); [exact Hzero | exact Hs].
  - (* KeyLeft *)
    destruct (Z.eq_dec (Z.of_nat (length (audioData (wavFile G)))) 0) as [H0 | Hne].
    + unfold Transport.on_playback, Transport.seekBackward. fold G. rewrite H0.
      simpl. destruct t; exact Hs.
    + unfold Transport.on_playback. fold G.
      rewrite (seekBackward_spec G) by lia.
      apply (with_clock_sound t (Z.max 0 (playbackPosition G - sampleRate (wavFile G) * 5))
               (isPaused G)); [exact Hs | fold G; lia].
  - (* KeyRight *)
    destruct (Z.eq_dec (Z.of_nat (length (audioData (wavFile G)))) 0) as [H0 | Hne].
    + unfold Transport.on_playback, Transport.seekForward. fold G. rewrite H0.
      simpl. destruct t; exact Hs.
    + unfold Transport.on_playback. fold G.
      rewrite (seekForward_spec G) by lia.
      apply (with_clock_sound t
               (Z.min (Z.of_nat (length (audioData (wavFile G))))
                      (playbackPosition G + sampleRate (wavFile G) * 5))
               (isPaused G)); [exact Hs | fold G; lia].
  - (* ButtonPlayPause *)
    destruct (Transport.isPlaying t); simpl negb; cbv iota;
      [exact Hflip | apply startAudio_sound, Hs].
  - (* ButtonStop *)
    apply stopAudio_sound, Hs.
  - (* ButtonRefresh *)
    subst G. unfold Transport.refreshAudioDevice.
    pose proof (stopAudio_sound t Hs) as Hstop.
    destruct (Transport.isPlaying t && _); [| exact Hstop].
    assert (H2 : Transport.sound
              (Transport.mkTransport
                 (Transport.with_clock (Transport.playback (Transport.stopAudio t))
                    (playbackPosition (Transport.playback t))
                    (isPaused (Transport.playback (Transport.stopAudio t))))
                 (Transport.isPlaying (Transport.stopAudio t))
                 (Transport.audioStream (Transport.stopAudio t))
                 (Transport.gLatencySamplesBase (Transport.stopAudio t)))).
    { apply (with_clock_sound (Transport.stopAudio t)
               (playbackPosition (Transport.playback t)) false);
        [exact Hstop | exact Hpos]. }
    pose proof (startAudio_sound pa _ H2) as H3.
    destruct (isPaused (Transport.playback t)); [| exact H3].
    match goal with |- Transport.sound (Transport.mkTransport
                         (Transport.with_clock (Transport.playback ?t3) _ true) _ _ _) =>
      apply (with_clock_sound t3 (playbackPosition (Transport.playback t3)) true);
        [exact H3 | apply H3]
    end.
  - (* ButtonRestart *)
    destruct (_ && _); [apply startAudio_sound |]; exact Hzero.
  - (* OpenFile *)
    assert (Hrate : forall z, 0 <= Int.to_uint32 z < 2 ^ 32)
      by (intros z; apply Z.mod_pos_bound; lia).
    destruct file as [| info framesRead buffer]; simpl in Hfit;
      unfold Transport.on_playback, Transport.stopAudio, Transport.with_clock, load;
      cbn [Transport.playback Transport.isPlaying Transport.audioStream
           Transport.gLatencySamplesBase wavFile playbackPosition isPaused loopAudio
           volume gOutputChannels snd]; fold G.
    + unfold Transport.sound. simpl.
      split; [fold G; lia | split; [exact HN | split; [exact Hsr | discriminate]]].
    + destruct (Z.leb_spec framesRead 0); unfold Transport.sound; simpl.
      * split; [fold G; lia | split; [exact HN | split; [apply Hrate | discriminate]]].
      * rewrite length_map, length_seq.
        split; [lia | split; [lia | split; [apply Hrate | discriminate]]].
Qed.

(** X15.  Over every sequence of these events from the start of the
    program on, in any order: audio callbacks, the space, [R] and arrow keys,
    the play/pause, stop, refresh and restart buttons, and opening files that
    load or fail to load.  The clock never leaves [[0, N]] for the [N]
    samples loaded at that moment, and playback is on only while a stream is
    open and samples are loaded. *)
Theorem transport_stays_sound (es : list Transport.event) :
  Forall Transport.fits_vector es ->
  Transport.sound (Transport.run es Transport.initial).
Proof.
  assert (Hgen : forall es t, Forall Transport.fits_vector es -> Transport.sound t ->
                              Transport.sound (Transport.run es t)).
  { clear. induction es as [| e es IH]; intros t Hfit Ht; [exact Ht |].
    apply Forall_cons in Hfit as [He Hes]. simpl. apply IH; [exact Hes |].
    apply step_sound; assumption. }
  intros Hfit. apply Hgen; [exact Hfit |].
  unfold Transport.sound, Transport.initial. simpl.
  rewrite vector_max_size_val. repeat split; first [lia | discriminate].
Qed.

Lemma transport_stays_sound_witness :
  Transport.sound
    (Transport.run
       [Transport.OpenFile (sf_opened (mkSF_INFO 2 48000 2) 2
                              [F32.lit 1 2; F32.lit 1 4; F32.one; F32.zero]);
        Transport.KeySpace (Transport.PaStarted 44);
        Transport.Callback (replicate 8 F32.zero) 3;
        Transport.KeyRight;
        Transport.OpenFile empty_stereo_file]
       Transport.initial).
Proof.
  apply (transport_stays_sound
           [Transport.OpenFile (sf_opened (mkSF_INFO 2 48000 2) 2
                                  [F32.lit 1 2; F32.lit 1 4; F32.one; F32.zero]);
            Transport.KeySpace (Transport.PaStarted 44);
            Transport.Callback (replicate 8 F32.zero) 3;
            Transport.KeyRight;
            Transport.OpenFile empty_stereo_file]).
  repeat constructor; vm_compute; discriminate.
Defined.

(** ** The analysis window, on any input *)

Lemma to_int64_range (z : Z) : Int.in_int64 (Int.to_int64 z).
Proof.
  unfold Int.in_int64, Int.to_int64, Int.wrap_signed.
  pose proof (Z.mod_pos_bound (z + 2 ^ (64 - 1)) (2 ^ 64) ltac:(lia)). lia.
Qed.

(** X16.  Whatever the clock, the latency, the latency adjustment and the
    FFT size are, [processAudioFrameSynced] reads no sample outside the
    buffer: on a buffer of at least [FFT_SIZE] samples every one of the
    [FFT_SIZE] indices it reads lies in [[0, N)], and it takes the
    zero-padding path only on a buffer shorter than [FFT_SIZE]. *)
Theorem analysis_reads_inside (samples : list float) (P Lb adj F : Z) :
  let N := Z.of_nat (length samples) in
  N <= Int.vector_max_size -> 0 <= F < 2 ^ 31 ->
  match processAudioFrameSynced samples P Lb adj F with
  | NoSource => N = 0
  | ZeroPadded n => n = N /\ 0 < N < F
  | Circular start idx =>
      F <= N /\ 0 <= start < N /\ length idx = Z.to_nat F /\
      Forall (fun j => 0 <= j < N) idx
  end.
Proof.
  intros N HN HF. rewrite vector_max_size_val in HN.
  unfold processAudioFrameSynced. fold N.
  destruct (Z.eqb_spec N 0) as [H0 | H0]; [exact H0 |].
  rewrite (to_size_t_id F) by (unfold Int.in_size_t; lia).
  destruct (Z.ltb_spec N F) as [Hlt | Hge]; [lia |].
  rewrite wrapIndex_mod by (apply to_int64_range || (unfold Int.INT64_MAX; lia)).
  split; [exact Hge |]. split; [apply Z.mod_pos_bound; lia |].
  split; [rewrite length_map, length_seq; reflexivity |].
  apply Forall_forall. intros j Hj. apply list_elem_of_In, in_map_iff in Hj.
  destruct Hj as (i & <- & _). apply Z.mod_pos_bound. lia.
Qed.

Lemma analysis_reads_inside_witness :
  match processAudioFrameSynced (replicate 8 F32.zero) (2 ^ 64 - 1) (- 2 ^ 31) (2 ^ 31 - 1) 4 with
  | NoSource => 8 = 0
  | ZeroPadded n => n = 8 /\ 0 < 8 < 4
  | Circular start idx =>
      4 <= 8 /\ 0 <= start < 8 /\ length idx = Z.to_nat 4 /\
      Forall (fun j => 0 <= j < 8) idx
  end.
Proof.
  apply (analysis_reads_inside (replicate 8 F32.zero) (2 ^ 64 - 1) (- 2 ^ 31) (2 ^ 31 - 1) 4);
    vm_compute; intuition discriminate.
Defined.

(** ** More on the history ring *)

(** X17.  The fill counter counts the pushes and stops at the depth:
    after [k] pushes a counter that started at [c <= depth] reads
    [min depth (c + k)]. *)
Theorem fill_counter_saturates (NUM_BARS : Z) (lines : list (list float)) (h : History) :
  0 <= historyFillCount h <= HISTORY_LINES h -> HISTORY_LINES h < 2 ^ 31 ->
  historyFillCount (push_lines NUM_BARS lines h)
  = Z.min (HISTORY_LINES h) (historyFillCount h + Z.of_nat (length lines)) /\
  HISTORY_LINES (push_lines NUM_BARS lines h) = HISTORY_LINES h.
Proof.
  intros Hc Hd. induction lines as [| x lines IH] using rev_ind.
  - simpl. split; [lia | reflexivity].
  - unfold push_lines in *. rewrite foldl_app. simpl foldl.
    destruct IH as [IHc IHd]. set (h1 := foldl _ h lines) in *.
    split; [| exact IHd].
    unfold pushLineToHistory. simpl historyFillCount. rewrite IHc, IHd, length_app.
    simpl length. case_ltb.
    + rewrite to_int_id by (unfold Int.in_int; lia). lia.
    + lia.
Qed.

Lemma fill_counter_saturates_witness :
  historyFillCount (push_lines 2 demo_lines demo_history)
  = Z.min 2 (0 + Z.of_nat (length demo_lines)) /\
  HISTORY_LINES (push_lines 2 demo_lines demo_history) = 2.
Proof.
  apply (fill_counter_saturates 2 demo_lines demo_history); simpl; lia.
Defined.

Section RingContents.

Variable NUM_BARS : Z.
Hypothesis bars_range : 0 <= NUM_BARS < 2 ^ 31.

Let n : nat := Z.to_nat NUM_BARS.

(** The whole store after a run of pushes. *)
Lemma push_lines_store (lines : list (list float)) (h : History) :
  let d := Z.to_nat (HISTORY_LINES h) in
  ring_fits NUM_BARS h -> Forall (fun L => length L = n) lines ->
  lineHistory (push_lines NUM_BARS lines h)
  = take (d * n) (concat (reverse lines) ++ lineHistory h) ++ drop (d * n) (lineHistory h).
Proof.
  intros d Hfit. pose proof Hfit as [Hd Hlen]. fold n d in Hlen.
  induction lines as [| x lines IH] using rev_ind; intros Hall.
  - simpl. rewrite take_drop. reflexivity.
  - apply Forall_app in Hall as [Hall Hx]. rewrite Forall_singleton in Hx.
    destruct (push_lines_keep_fit NUM_BARS bars_range lines h Hfit Hall) as [Hfit' Hdepth].
    rewrite push_lines_snoc, (push_lineHistory NUM_BARS bars_range) by assumption.
    rewrite Hdepth. fold d. rewrite (IH Hall).
    set (C := concat (reverse lines) ++ lineHistory h).
    assert (HC : (d * n <= length C)%nat) by (subst C; rewrite length_app; lia).
    rewrite take_app_le by (rewrite length_take; nia).
    rewrite take_take.
    rewrite drop_app_length' by (rewrite length_take; lia).
    rewrite reverse_snoc. simpl concat. rewrite <- app_assoc. fold C.
    rewrite app_assoc. f_equal.
    replace (d * n)%nat with (length x + (d - 1) * n)%nat by (subst d; nia).
    rewrite take_app_add'  by reflexivity. f_equal. f_equal. nia.
Qed.

End RingContents.

(** X18.  After any run of pushes the store is, within the depth, the
    pushed lines newest first followed by what was there, cut at the depth;
    the length of the store is kept and the rows at or beyond the depth are
    never touched. *)
Theorem push_lines_contents (NUM_BARS : Z) (lines : list (list float)) (h : History) :
  let n := Z.to_nat NUM_BARS in
  let d := Z.to_nat (HISTORY_LINES h) in
  0 <= NUM_BARS < 2 ^ 31 -> ring_fits NUM_BARS h -> Forall (fun L => length L = n) lines ->
  lineHistory (push_lines NUM_BARS lines h)
  = take (d * n) (concat (reverse lines) ++ lineHistory h) ++ drop (d * n) (lineHistory h) /\
  length (lineHistory (push_lines NUM_BARS lines h)) = length (lineHistory h) /\
  forall k : nat, (d <= k)%nat ->
    history_row NUM_BARS (push_lines NUM_BARS lines h) k = history_row NUM_BARS h k.
Proof.
  intros n d Hbars Hfit Hall. pose proof Hfit as [Hd Hlen]. fold n d in Hlen.
  pose proof (push_lines_store NUM_BARS Hbars lines h Hfit Hall) as Hstore.
  fold n d in Hstore.
  assert (Htake : length (take (d * n) (concat (reverse lines) ++ lineHistory h)) = (d * n)%nat).
  { rewrite length_take, length_app. lia. }
  split; [exact Hstore |]. split.
  - rewrite Hstore, length_app, Htake, length_drop. lia.
  - intros k Hk. unfold history_row. fold n. rewrite Hstore.
    rewrite drop_app_ge by (rewrite Htake; nia).
    rewrite Htake, drop_drop. do 2 f_equal. nia.
Qed.

Lemma push_lines_contents_witness :
  lineHistory (push_lines 2 demo_lines demo_history)
  = take (2 * 2) (concat (reverse demo_lines) ++ lineHistory demo_history)
      ++ drop (2 * 2) (lineHistory demo_history) /\
  length (lineHistory (push_lines 2 demo_lines demo_history)) = length (lineHistory demo_history) /\
  forall k : nat, (2 <= k)%nat ->
    history_row 2 (push_lines 2 demo_lines demo_history) k = history_row 2 demo_history k.
Proof.
  apply (push_lines_contents 2 demo_lines demo_history).
  - lia.
  - unfold ring_fits. simpl. lia.
  - unfold demo_lines. repeat constructor.
Defined.

(** ** Analysis cycle *)

Section CycleFacts.

Variable log10f : float -> float.
Variables NUM_BARS FFT_SIZE : Z.
Variables magnitudes gBarBinF : list float.

(** A value that [bar_value] returns went through [clamp01]. *)
Lemma bar_value_unit (binF v : float) :
  bar_value log10f FFT_SIZE magnitudes binF = Some v -> unit_float v.
Proof.
  unfold bar_value. intros H.
  apply bind_Some in H as (fl & _ & H). cbv zeta in H.
  apply bind_Some in H as (u & _ & H).
  apply bind_Some in H as (m0 & _ & H).
  apply bind_Some in H as (m1 & _ & H).
  injection H as <-. apply clamp01_range.
Qed.

End CycleFacts.

(** X19.  One analysis cycle keeps the history a table of numbers between
    0 and 1.  Given a magnitude array that covers the bins, a mapping table
    whose entries have a floor that converts to [int], a well-formed ring
    and a history that holds only values in [[0, 1]], the cycle is defined,
    the new line and the new history hold only values in [[0, 1]] (whatever
    the magnitudes and whatever [log10] returns, NaN included), the ring is
    still well formed and its row 0 is the new line. *)
Theorem analysis_cycle_keeps_unit_range (log10f : float -> float) (NUM_BARS FFT_SIZE : Z)
    (magnitudes gBarBinF currentLine : list float) (h : History) :
  let nFreq := getNumFrequencies FFT_SIZE in
  let n := Z.to_nat NUM_BARS in
  0 <= NUM_BARS < 2 ^ 31 -> Int.in_int FFT_SIZE ->
  2 <= nFreq -> nFreq <= Z.of_nat (length magnitudes) ->
  (n <= length gBarBinF)%nat -> length currentLine = n ->
  (forall (i : nat) (binF : float), (i < n)%nat -> gBarBinF !! i = Some binF ->
     is_Some (F32.to_int (F32.floor binF))) ->
  ring_fits NUM_BARS h -> Forall unit_float (lineHistory h) ->
  exists (line : list float) (h' : History),
    analysisCycle log10f NUM_BARS FFT_SIZE magnitudes gBarBinF (currentLine, h)
      = Some (line, h') /\
    length line = n /\ Forall unit_float line /\
    ring_fits NUM_BARS h' /\ Forall unit_float (lineHistory h') /\
    history_row NUM_BARS h' 0 = line.
Proof.
  intros nFreq n Hbars Hfft Hn Hmag Htable Hline Hfloor Hfit Hunit.
  destruct (build_loop log10f FFT_SIZE magnitudes gBarBinF n currentLine ltac:(lia))
    as (line & Hrun & Hsame & Hset & _).
  { intros i Hi.
    destruct (lookup_lt_is_Some_2 gBarBinF i ltac:(lia)) as [binF HbinF].
    destruct (Hfloor i binF Hi HbinF) as [fl Hfl].
    destruct (bar_value_spec log10f FFT_SIZE magnitudes binF fl Hfft Hn Hmag Hfl)
      as (m0 & m1 & _ & _ & Hval).
    rewrite HbinF. simpl. rewrite Hval. eauto. }
  assert (Hlen : length line = n) by congruence.
  assert (Hlu : Forall unit_float line).
  { apply Forall_lookup. intros i v Hv.
    assert (Hi : (i < n)%nat) by (rewrite <- Hlen; eapply lookup_lt_Some; exact Hv).
    rewrite (Hset i Hi) in Hv.
    destruct (gBarBinF !! i) as [binF |]; [| discriminate Hv]. simpl in Hv.
    eapply bar_value_unit. exact Hv. }
  exists line, (pushLineToHistory NUM_BARS line h).
  split; [unfold analysisCycle, buildCurrentLine; simpl; fold n; rewrite Hrun; reflexivity |].
  split; [exact Hlen |]. split; [exact Hlu |].
  split; [apply (push_keeps_fit NUM_BARS Hbars); assumption |].
  split; [| apply (push_row_0 NUM_BARS Hbars); assumption].
  rewrite (push_lineHistory NUM_BARS Hbars) by assumption.
  rewrite !Forall_app. split; [exact Hlu |].
  split; [apply Forall_take | apply Forall_drop]; exact Hunit.
Qed.

Lemma analysis_cycle_keeps_unit_range_witness :
  exists (line : list float) (h' : History),
    analysisCycle demo_log10 2 8 demo_magnitudes demo_table ([F32.zero; F32.zero], demo_history)
      = Some (line, h') /\
    length line = 2%nat /\ Forall unit_float line /\
    ring_fits 2 h' /\ Forall unit_float (lineHistory h') /\
    history_row 2 h' 0 = line.
Proof.
  apply (analysis_cycle_keeps_unit_range demo_log10 2 8 demo_magnitudes demo_table
           [F32.zero; F32.zero] demo_history).
  - lia.
  - unfold Int.in_int. lia.
  - vm_compute. discriminate.
  - vm_compute. discriminate.
  - simpl. lia.
  - reflexivity.
  - intros i binF Hi. destruct i as [| [| i]]; simpl; intros Hb;
      [injection Hb as <- | injection Hb as <- | lia]; vm_compute; eauto.
  - unfold ring_fits. simpl. lia.
  - unfold demo_history. simpl. repeat constructor.
Defined.

(** ** The colormap lookup always assigns its outputs *)

Lemma colormap_search_finds (points : list ColormapPoint) (value : float) :
  is_nan value = false ->
  Forall (fun p => is_nan (position p) = false) points ->
  forall (n i : nat) (p0 pl : ColormapPoint),
  (0 < n)%nat ->
  points !! i = Some p0 -> F32.geb value (position p0) = true ->
  points !! (i + n)%nat = Some pl -> F32.leb value (position pl) = true ->
  exists col : RGB, forall rgb : RGB, colormap_search points n i value rgb = Some col.
Proof.
  intros Hv Hpts. induction n as [| n IH]; intros i p0 pl Hn Hp0 Hge Hpl Hle; [lia |].
  simpl. rewrite Hp0. simpl. rewrite Hge.
  destruct (lookup_lt_is_Some_2 points (S i)) as [p1 Hp1].
  { apply lookup_lt_Some in Hpl. lia. }
  rewrite Hp1. simpl.
  destruct (F32.leb value (position p1)) eqn:Hle1; [eauto |].
  assert (Hn1 : is_nan (position p1) = false).
  { eapply (proj1 (Forall_lookup _ _) Hpts). exact Hp1. }
  destruct n as [| n].
  - replace (i + 1)%nat with (S i) in Hpl by lia. congruence.
  - apply (IH (S i) p1 pl); try lia; try assumption.
    + apply ltb_leb, not_leb_ltb; assumption.
    + replace (S i + S n)%nat with (i + S (S n))%nat by lia. exact Hpl.
Qed.

Lemma getColormapColor_total (points : list ColormapPoint) (numPoints : Z) (value : float) :
  points <> [] -> numPoints = Z.of_nat (length points) ->
  Forall (fun p => is_nan (position p) = false) points ->
  exists col : RGB, forall rgb : RGB,
    getColormapColor points numPoints value rgb = Some col.
Proof.
  intros Hne Hnum Hpts. unfold getColormapColor.
  destruct (leb_not_nan _ _ (proj1 (clamp01_range value))) as [_ Hv].
  set (v := clamp01 value) in *.
  destruct points as [| p0 rest] eqn:Epts; [congruence |]. rewrite <- Epts in *.
  assert (Hlook0 : points !! 0%nat = Some p0) by (rewrite Epts; reflexivity).
  rewrite Hlook0. simpl.
  assert (Hn0 : is_nan (position p0) = false).
  { eapply (proj1 (Forall_lookup _ _) Hpts). exact Hlook0. }
  destruct (F32.leb v (position p0)) eqn:Hle0; [eauto |].
  assert (Hlen : (0 < length points)%nat) by (rewrite Epts; simpl; lia).
  destruct (Z.leb_spec 0 (numPoints - 1)) as [_ | ?]; [| lia]. simpl.
  destruct (lookup_lt_is_Some_2 points (Z.to_nat (numPoints - 1)) ltac:(lia)) as [pl Hpl].
  rewrite Hpl. simpl.
  assert (Hnl : is_nan (position pl) = false).
  { eapply (proj1 (Forall_lookup _ _) Hpts). exact Hpl. }
  destruct (F32.geb v (position pl)) eqn:Hgel; [eauto |].
  assert (Hge0 : F32.geb v (position p0) = true)
    by (apply ltb_leb, not_leb_ltb; assumption).
  assert (Hlel : F32.leb v (position pl) = true)
    by (apply ltb_leb, not_leb_ltb; assumption).
  destruct (Z.to_nat (numPoints - 1)) as [| k] eqn:Ek.
  - unfold F32.geb in *. congruence.
  - apply (colormap_search_finds points v Hv Hpts (S k) 0%nat p0 pl);
      (lia || assumption).
Qed.

Lemma colormap_tables_ordered (c : ColormapType) :
  (colormap_table c).1 <> [] /\
  Forall (fun p => is_nan (position p) = false) (colormap_table c).1.
Proof.
  split; [destruct c; discriminate |].
  apply Forall_forall. intros p Hp. apply list_elem_of_In in Hp.
  assert (Hall : forallb (fun p => negb (is_nan (position p))) (colormap_table c).1 = true)
    by (destruct c; vm_compute; reflexivity).
  rewrite forallb_forall in Hall. apply negb_true_iff, Hall, Hp.
Qed.

(** X20.  [getCurrentColormapColor] assigns its three outputs on every
    colormap and every input, NaN and the infinities included, and what it
    assigns does not depend on what the outputs held before: the search loop
    never runs off its table without a match.  On NaN it returns the colour
    of the last control point. *)
Theorem colormap_always_assigns (c : ColormapType) (value : float) :
  (exists col : RGB, forall rgb : RGB, getCurrentColormapColor c value rgb = Some col) /\
  forall rgb : RGB,
    getCurrentColormapColor c S754_nan rgb = rgb_of <$> last (colormap_table c).1.
Proof.
  destruct (colormap_table_shape c) as (Hhead & Hlast & Hcount).
  destruct (colormap_tables_ordered c) as [Hne Hpts].
  unfold getCurrentColormapColor.
  destruct (colormap_table c) as [points numPoints]. simpl in *. split.
  - apply getColormapColor_total; assumption.
  - intros rgb. apply getColormapColor_last; try assumption. apply clamp01_nan.
Qed.

(** ** Frequency mapping in binary32 *)

(** [std::max(1.0f, std::min(x, hi))] is between 1 and [hi] for every [x]
    when [hi] is at least 1; on NaN it is 1. *)
Lemma bin_clamp_range (x hi : float) :
  F32.leb F32.one hi = true ->
  F32.leb F32.one (F32.max F32.one (F32.min x hi)) = true /\
  F32.leb (F32.max F32.one (F32.min x hi)) hi = true.
Proof.
  intros Hhi. destruct (leb_not_nan _ _ Hhi) as [H1 Hh].
  unfold F32.max, F32.min.
  destruct (F32.ltb hi x) eqn:Hx.
  - destruct (F32.ltb F32.one hi) eqn:Hl.
    + split; [exact Hhi | apply leb_refl; exact Hh].
    + split; [apply leb_refl; exact H1 | exact Hhi].
  - destruct (F32.ltb F32.one x) eqn:Hl.
    + destruct (ltb_not_nan _ _ Hl) as [_ Hxn].
      split; [apply ltb_leb; exact Hl | apply not_ltb_leb; assumption].
    + split; [apply leb_refl; exact H1 | exact Hhi].
Qed.

Lemma fftSizes_bins (FFT_SIZE : Z) :
  In FFT_SIZE fftSizes ->
  F32.leb F32.one (F32.of_Z (Int.to_int (getNumFrequencies FFT_SIZE - 2))) = true /\
  256 <= getNumFrequencies FFT_SIZE <= 8192.
Proof.
  unfold fftSizes. simpl. intros H.
  repeat (destruct H as [<- | H]; [vm_compute; intuition discriminate |]).
  contradiction.
Qed.

(** X21.  After [reinitializeFFT] with one of the six FFT sizes the
    magnitude array has exactly [FFT_SIZE / 2] entries, those it had before
    followed by zeros; and when a file is loaded the mapping table has
    [NUM_BARS] entries that all lie between 1 and [FFT_SIZE / 2 - 2], in
    binary32 and whatever [std::pow] returns and whatever the sample rate is
    (0 included, where the bin is a quotient by zero). *)
Theorem reinitializeFFT_tables (powf : float -> float -> float)
    (NUM_BARS FFT_SIZE sampleRate : Z) (loaded : bool) (a : Rounded.Analyzer) :
  let a' := Rounded.reinitializeFFT powf NUM_BARS FFT_SIZE sampleRate loaded a in
  let nFreq := getNumFrequencies FFT_SIZE in
  let hi := F32.of_Z (nFreq - 2) in
  In FFT_SIZE fftSizes ->
  Z.of_nat (length (Rounded.magnitudes a')) = nFreq /\
  (forall i : nat, (i < length (Rounded.magnitudes a'))%nat ->
     Rounded.magnitudes a' !! i
     = Some (default F32.zero (Rounded.magnitudes a !! i))) /\
  (loaded = true ->
     length (Rounded.gBarBinF (Rounded.tables a')) = Z.to_nat NUM_BARS /\
     Forall (fun binF => F32.leb F32.one binF = true /\ F32.leb binF hi = true)
            (Rounded.gBarBinF (Rounded.tables a'))).
Proof.
  intros a' nFreq hi Hsize.
  destruct (fftSizes_bins FFT_SIZE Hsize) as [Hhi Hn]. fold nFreq in Hhi, Hn.
  rewrite to_int_id in Hhi by (unfold Int.in_int; lia).
  assert (Hmag : Rounded.magnitudes a'
                 = take (Z.to_nat nFreq) (Rounded.magnitudes a)
                     ++ replicate (Z.to_nat nFreq - length (Rounded.magnitudes a)) F32.zero)
    by reflexivity.
  assert (Hlen : length (Rounded.magnitudes a') = Z.to_nat nFreq).
  { rewrite Hmag, length_app, length_take, length_replicate. lia. }
  split; [rewrite Hlen; lia |]. split.
  - intros i Hi. rewrite Hlen in Hi. rewrite Hmag.
    destruct (decide (i < length (Rounded.magnitudes a))%nat) as [Hin | Hout].
    + rewrite lookup_app_l by (rewrite length_take; lia).
      rewrite lookup_take_lt by lia.
      destruct (lookup_lt_is_Some_2 _ _ Hin) as [x ->]. reflexivity.
    + rewrite (lookup_ge_None_2 (Rounded.magnitudes a)) by lia.
      rewrite lookup_app_r by (rewrite length_take; lia).
      rewrite lookup_replicate_2; [reflexivity |].
      rewrite length_take. lia.
  - intros ->. subst a'. unfold Rounded.reinitializeFFT, Rounded.buildFrequencyMapping.
    simpl. rewrite !length_map, length_seq. split; [reflexivity |].
    apply Forall_forall. intros binF Hin. apply list_elem_of_In, in_map_iff in Hin.
    destruct Hin as (i & <- & _). unfold Rounded.bar_bin. fold nFreq.
    rewrite to_int_id by (unfold Int.in_int; lia).
    apply bin_clamp_range. exact Hhi.
Qed.

Lemma reinitializeFFT_tables_witness :
  Z.of_nat (length (Rounded.magnitudes
     (Rounded.reinitializeFFT (fun _ _ => S754_nan) 3 512 0 true
        (Rounded.mkAnalyzer [F32.one] (Rounded.mkFrequencyMap [] [] []))))) = 256 /\
  Forall (fun binF => F32.leb F32.one binF = true /\
                      F32.leb binF (F32.of_Z (getNumFrequencies 512 - 2)) = true)
    (Rounded.gBarBinF (Rounded.tables
       (Rounded.reinitializeFFT (fun _ _ => S754_nan) 3 512 0 true
          (Rounded.mkAnalyzer [F32.one] (Rounded.mkFrequencyMap [] [] []))))).
Proof.
  destruct (reinitializeFFT_tables (fun _ _ => S754_nan) 3 512 0 true
              (Rounded.mkAnalyzer [F32.one] (Rounded.mkFrequencyMap [] [] [])))
    as (H1 & _ & H3).
  - unfold fftSizes. simpl. auto.
  - split; [exact H1 | apply H3; reflexivity].
Defined.

(** ** View and colour settings *)

Lemma currentFFTIndex_range (fft : Z) : 0 <= View.currentFFTIndex fft <= 5.
Proof. unfold View.currentFFTIndex. repeat case_match; lia. Qed.

Lemma prevIndex_range (n index : Z) :
  0 < n < 2 ^ 31 -> 0 <= index < n -> 0 <= View.prevIndex n index < n.
Proof.
  intros Hn Hi. unfold View.prevIndex.
  rewrite to_int_id by (unfold Int.in_int; lia). case_ltb; lia.
Qed.

Lemma nextIndex_range (n index : Z) :
  0 < n < 2 ^ 31 -> 0 <= index < n -> 0 <= View.nextIndex n index < n.
Proof.
  intros Hn Hi. unfold View.nextIndex.
  rewrite to_int_id by (unfold Int.in_int; lia). case_leb; lia.
Qed.

Lemma switchFFT_listed (index fft : Z) :
  0 <= index < 6 -> In (View.switchFFT index fft) fftSizes.
Proof.
  intros Hi. assert (H : index = 0 \/ index = 1 \/ index = 2 \/ index = 3 \/
                         index = 4 \/ index = 5) by lia.
  unfold fftSizes. destruct H as [-> | [-> | [-> | [-> | [-> | ->]]]]]; simpl; tauto.
Qed.

Lemma chooseFFT_consistent (index : Z) (s : View.Settings) :
  0 <= index < 6 -> View.useTraditionalView s = false ->
  View.consistent s -> View.consistent (View.chooseFFT index s).
Proof.
  intros Hi H3D (Hf & Hsf & Hc & Hsc & H2D).
  pose proof (switchFFT_listed index (View.FFT_SIZE (View.live s)) Hi) as Hin.
  unfold View.consistent, View.chooseFFT. simpl.
  repeat apply conj; try assumption. rewrite H3D. discriminate.
Qed.

Lemma choosePreset_consistent (index : Z) (s s' : View.Settings) :
  View.choosePreset index s = Some s' -> View.consistent s -> View.consistent s'.
Proof.
  unfold View.choosePreset. intros Hs (Hf & Hsf & Hc & Hsc & H2D).
  destruct (0 <=? index); [| discriminate Hs]. simpl in Hs.
  destruct (View.colormaps !! Z.to_nat index) as [c |]; [| discriminate Hs].
  injection Hs as <-. unfold View.consistent. simpl.
  repeat apply conj; assumption.
Qed.

Lemma initial_consistent : View.consistent View.initial.
Proof.
  unfold View.consistent, View.initial, View.one_colour_source, fftSizes. simpl.
  repeat apply conj; try reflexivity; try tauto. discriminate.
Qed.

Ltac settle :=
  repeat apply conj;
  first [ assumption | reflexivity | discriminate | tauto
        | intros _; repeat apply conj; reflexivity ].

Lemma step_consistent (e : View.event) (s s' : View.Settings) :
  View.step e s = Some s' -> View.consistent s -> View.consistent s'.
Proof.
  intros Hstep Hs. pose proof Hs as (Hf & Hsf & Hc & Hsc & H2D).
  pose proof (currentFFTIndex_range (View.FFT_SIZE (View.live s))) as Hidx.
  destruct e; simpl in Hstep.
  - (* ViewBox *)
    injection Hstep as <-. unfold View.toggleView.
    destruct (View.useTraditionalView s); simpl; unfold View.consistent, fftSizes; simpl.
    + settle.
    + settle.
  - (* ViewBoxCompact *)
    injection Hstep as <-. unfold View.toggleViewCompact.
    destruct (View.useTraditionalView s); simpl; unfold View.consistent, fftSizes; simpl.
    + settle.
    + settle.
  - (* FftUp *)
    injection Hstep as <-. destruct (View.useTraditionalView s) eqn:Hv; simpl; [exact Hs |].
    apply chooseFFT_consistent; [apply prevIndex_range; lia | exact Hv | exact Hs].
  - (* FftDown *)
    injection Hstep as <-. destruct (View.useTraditionalView s) eqn:Hv; simpl; [exact Hs |].
    apply chooseFFT_consistent; [apply nextIndex_range; lia | exact Hv | exact Hs].
  - (* FftSelect *)
    injection Hstep as <-. destruct (View.useTraditionalView s) eqn:Hv; simpl; [exact Hs |].
    destruct (Nat.ltb_spec n 6); [| exact Hs].
    apply chooseFFT_consistent; [lia | exact Hv | exact Hs].
  - (* FftWheel *)
    injection Hstep as <-. destruct (View.useTraditionalView s) eqn:Hv; simpl; [exact Hs |].
    unfold View.fftWheel. destruct (negb _); [| exact Hs].
    destruct (F32.ltb _ _).
    + apply chooseFFT_consistent; [apply prevIndex_range; lia | exact Hv | exact Hs].
    + apply chooseFFT_consistent; [apply nextIndex_range; lia | exact Hv | exact Hs].
  - (* GridBox *)
    injection Hstep as <-. destruct (View.useTraditionalView s) eqn:Hv; simpl; [exact Hs |].
    unfold View.consistent. simpl. rewrite Hv. settle.
  - (* RotateBox *)
    injection Hstep as <-. destruct (View.useTraditionalView s) eqn:Hv; simpl; [exact Hs |].
    unfold View.consistent. simpl. rewrite Hv. settle.
  - (* LinesInput *)
    destruct (View.useTraditionalView s) eqn:Hv; simpl in Hstep;
      [injection Hstep as <-; exact Hs |].
    unfold View.linesInput in Hstep.
    destruct (F32.to_int _) as [lines |]; [| discriminate Hstep].
    injection Hstep as <-.
    unfold View.consistent. simpl. rewrite Hv. settle.
  - (* LineWidthInput *)
    injection Hstep as <-. destruct (View.useTraditionalView s) eqn:Hv; simpl; [exact Hs |].
    unfold View.consistent. simpl. rewrite Hv. settle.
  - (* YScaleSlider *)
    injection Hstep as <-. destruct (View.useTraditionalView s) eqn:Hv; simpl; [exact Hs |].
    unfold View.consistent. simpl. rewrite Hv. settle.
  - (* YOffsetSlider *)
    injection Hstep as <-. destruct (View.useTraditionalView s) eqn:Hv; simpl; [exact Hs |].
    unfold View.consistent. simpl. rewrite Hv. settle.
  - (* CustomColorBox *)
    injection Hstep as <-. unfold View.customColorBox.
    destruct (negb _); unfold View.consistent; simpl;
      settle.
  - (* ColormapBox *)
    injection Hstep as <-. unfold View.colormapBox.
    destruct (negb _); unfold View.consistent; simpl;
      settle.
  - (* PresetUp *)
    destruct (View.useColormap (View.live s)); [| injection Hstep as <-; exact Hs].
    eapply choosePreset_consistent; [exact Hstep | exact Hs].
  - (* PresetDown *)
    destruct (View.useColormap (View.live s)); [| injection Hstep as <-; exact Hs].
    eapply choosePreset_consistent; [exact Hstep | exact Hs].
  - (* PresetSelect *)
    destruct (View.useColormap (View.live s) && _); [| injection Hstep as <-; exact Hs].
    eapply choosePreset_consistent; [exact Hstep | exact Hs].
  - (* PresetWheel *)
    destruct (View.useColormap (View.live s)); [| injection Hstep as <-; exact Hs].
    unfold View.presetWheel in Hstep.
    destruct (negb _); [| injection Hstep as <-; exact Hs].
    destruct (F32.ltb _ _); (eapply choosePreset_consistent; [exact Hstep | exact Hs]).
  - (* ResetColors *)
    injection Hstep as <-. unfold View.consistent, View.resetColors. simpl.
    settle.
  - (* ResetAll *)
    injection Hstep as <-. unfold View.resetAll.
    destruct (View.useTraditionalView s); unfold View.consistent, fftSizes; simpl.
    + settle.
    + settle.
Qed.

(** X22.  Whatever the user does in the sidebar, from the start of the
    program on: the FFT size and its saved copy are always one of the six
    sizes of the combo, exactly one of "custom line colour" and "colormap"
    is on (also in the saved copy), and while the 2D heat map is shown the
    FFT size is 16384, the history depth 560 (all of the allocated rows),
    the line width and Y scale 1, the Y offset 0 and grid and auto-rotation
    off. *)
Theorem settings_stay_consistent (es : list View.event) (s : View.Settings) :
  View.run es View.initial = Some s -> View.consistent s.
Proof.
  assert (Hgen : forall es s0 s1, View.consistent s0 -> View.run es s0 = Some s1 ->
                                  View.consistent s1).
  { clear. induction es as [| e es IH]; intros s0 s1 H0 Hrun; simpl in Hrun.
    - injection Hrun as <-. exact H0.
    - destruct (View.step e s0) as [s' |] eqn:Hstep; [| discriminate Hrun].
      simpl in Hrun. eapply IH; [| exact Hrun]. eapply step_consistent; eassumption. }
  intros Hrun. eapply Hgen; [apply initial_consistent | exact Hrun].
Qed.

Lemma settings_stay_consistent_witness :
  View.consistent
    (View.resetAll (View.customColorBox (View.fftDown (View.toggleView
       (View.toggleViewCompact (View.fftUp View.initial)))))).
Proof.
  apply (settings_stay_consistent
           [View.FftUp; View.ViewBoxCompact; View.ViewBox; View.FftDown;
            View.CustomColorBox; View.ResetAll]).
  reflexivity.
Defined.

(** X23.  Entering the 2D heat map and leaving it again gives back the
    ten settings as they were in 3D; in between the seven view settings are
    locked and the colormap is on.  The checkbox of the compact sidebar and
    the one of the full sidebar do the same. *)
Theorem view_toggle_round_trip (s : View.Settings) :
  View.useTraditionalView s = false ->
  View.live (View.toggleView (View.toggleView s)) = View.live s /\
  View.useTraditionalView (View.toggleView (View.toggleView s)) = false /\
  View.live (View.toggleView s)
    = View.mkLook 16384 560 F32.one F32.one F32.zero false false false true
                  (View.currentColormap (View.live s)) /\
  View.saved3D (View.toggleView s) = View.live s /\
  forall s0 : View.Settings, View.toggleViewCompact s0 = View.toggleView s0.
Proof.
  intros H3D. destruct s as [v [f h lw ys yo gr ro cu cm cc] sv d]. simpl in H3D. subst v.
  repeat apply conj; try reflexivity.
  intros [[|] [f0 h0 lw0 ys0 yo0 gr0 ro0 cu0 cm0 cc0] sv0 d0]; reflexivity.
Qed.

Lemma view_toggle_round_trip_witness :
  View.live (View.toggleView (View.toggleView View.initial)) = View.live View.initial /\
  View.useTraditionalView (View.toggleView (View.toggleView View.initial)) = false /\
  View.live (View.toggleView View.initial)
    = View.mkLook 16384 560 F32.one F32.one F32.zero false false false true COLORMAP_INFERNO /\
  View.saved3D (View.toggleView View.initial) = View.live View.initial /\
  forall s0 : View.Settings, View.toggleViewCompact s0 = View.toggleView s0.
Proof. apply (view_toggle_round_trip View.initial). reflexivity. Defined.

(** X24.  In the FFT combo "up" and "down" undo each other on the six
    sizes and six steps either way come back to the start; the saved copy
    follows.  A size that is not in the list is taken for the first entry:
    "up" then selects 16384 and "down" 1024. *)
Theorem fft_combo_cycles (s : View.Settings) :
  let fft := View.FFT_SIZE (View.live s) in
  (In fft fftSizes ->
     View.FFT_SIZE (View.live (View.fftDown (View.fftUp s))) = fft /\
     View.FFT_SIZE (View.live (View.fftUp (View.fftDown s))) = fft /\
     View.FFT_SIZE (View.live (Nat.iter 6 View.fftDown s)) = fft /\
     View.FFT_SIZE (View.live (Nat.iter 6 View.fftUp s)) = fft) /\
  (~ In fft fftSizes ->
     View.FFT_SIZE (View.live (View.fftUp s)) = 16384 /\
     View.FFT_SIZE (View.live (View.fftDown s)) = 1024) /\
  View.FFT_SIZE (View.saved3D (View.fftUp s)) = View.FFT_SIZE (View.live (View.fftUp s)) /\
  View.FFT_SIZE (View.saved3D (View.fftDown s)) = View.FFT_SIZE (View.live (View.fftDown s)).
Proof.
  intros fft. subst fft. destruct s as [v [f h lw ys yo gr ro cu cm cc] sv d].
  cbn [View.live View.FFT_SIZE]. split; [| split; [| split]].
  - unfold fftSizes. intros H. simpl in H.
    repeat (destruct H as [<- | H]; [vm_compute; repeat split; reflexivity |]).
    contradiction.
  - unfold fftSizes. intros H. simpl in H.
    assert (Hi : View.currentFFTIndex f = 0).
    { unfold View.currentFFTIndex.
      repeat (match goal with |- context [?a =? ?b] =>
                destruct (Z.eqb_spec a b); [exfalso; apply H; subst; tauto |] end).
      reflexivity. }
    unfold View.fftUp, View.fftDown, View.chooseFFT.
    cbn [View.live View.FFT_SIZE View.set_seven]. rewrite Hi. split; reflexivity.
  - reflexivity.
  - reflexivity.
Qed.

Lemma fft_combo_cycles_witness :
  View.FFT_SIZE (View.live (View.fftDown (View.fftUp View.initial))) = 4096 /\
  View.FFT_SIZE (View.live (View.fftUp (View.fftDown View.initial))) = 4096 /\
  View.FFT_SIZE (View.live (Nat.iter 6 View.fftDown View.initial)) = 4096 /\
  View.FFT_SIZE (View.live (Nat.iter 6 View.fftUp View.initial)) = 4096.
Proof.
  destruct (fft_combo_cycles View.initial) as [H _]. apply H.
  unfold fftSizes. simpl. tauto.
Defined.

(** ** Heat map columns *)

Lemma widths_checked (k : Z) :
  1 <= k <= 2047 ->
  F32.div (F32.of_Z k) (F32.of_Z k) = F32.one /\
  F32.div (F32.of_Z 0) (F32.of_Z k) = F32.zero.
Proof.
  intros Hk.
  assert (Hall : forallb width_ok (seq 1 2047) = true) by (vm_compute; reflexivity).
  rewrite forallb_forall in Hall.
  specialize (Hall (Z.to_nat k)). unfold width_ok in Hall.
  rewrite Z2Nat.id in Hall by lia.
  rewrite andb_true_iff, !bool_decide_eq_true in Hall.
  apply Hall, in_seq. lia.
Qed.

Lemma depths_checked (k : Z) :
  1 <= k <= 559 ->
  lround (F32.mul F32.one (F32.of_Z k)) = Some k /\
  lround (F32.mul F32.zero (F32.of_Z k)) = Some 0.
Proof.
  intros Hk.
  assert (Hall : forallb depth_ok (seq 1 559) = true) by (vm_compute; reflexivity).
  rewrite forallb_forall in Hall.
  specialize (Hall (Z.to_nat k)). unfold depth_ok in Hall.
  rewrite Z2Nat.id in Hall by lia.
  rewrite andb_true_iff, !bool_decide_eq_true in Hall.
  apply Hall, in_seq. lia.
Qed.

(** X25.  In the 2D heat map, for a viewport at least two pixels wide and
    a depth between 2 and 560: the leftmost texture column shows history
    row 0, the line pushed last, and the rightmost column shows row
    [HISTORY_LINES - 1], the oldest line within the depth.  Every column
    that gets a row gets one inside the depth, and the cells read for it lie
    inside a well-formed store. *)
Theorem heat_map_columns (vpW NUM_BARS : Z) (h : History) :
  let texW := textureWidth vpW in
  let H := HISTORY_LINES h in
  2 <= vpW -> 2 <= H <= MAX_HISTORY_LINES -> ring_fits NUM_BARS h ->
  0 <= NUM_BARS < 2 ^ 31 -> Z.of_nat (length (lineHistory h)) < 2 ^ 31 ->
  columnHistIdx texW H 0 = Some 0 /\
  columnHistIdx texW H (texW - 1) = Some (H - 1) /\
  forall px histIdx : Z, columnHistIdx texW H px = Some histIdx ->
    0 <= histIdx <= H - 1 /\
    forall i : Z, 0 <= i < NUM_BARS ->
      0 <= historyCell NUM_BARS histIdx i < Z.of_nat (length (lineHistory h)).
Proof.
  intros texW H HvpW HH [_ Hfit] Hbars Hstore. fold H in Hfit.
  unfold MAX_HISTORY_LINES in HH.
  assert (HtexW : 2 <= texW <= 2048) by (unfold texW, textureWidth; lia).
  destruct (widths_checked (texW - 1) ltac:(lia)) as [Hself Hzero].
  destruct (depths_checked (H - 1) ltac:(lia)) as [Hone Hnull].
  assert (Hw : Int.to_int (texW - 1) = texW - 1) by (apply to_int_id; unfold Int.in_int; lia).
  assert (Hd : Int.to_int (H - 1) = H - 1) by (apply to_int_id; unfold Int.in_int; lia).
  unfold columnHistIdx. rewrite Hw, Hd.
  destruct (Z.leb_spec texW 1) as [? | _]; [lia |].
  destruct (Z.leb_spec H 1) as [? | _]; [lia |].
  split; [| split].
  - rewrite Hzero, Hnull. cbn [fmap option_fmap option_map mbind option_bind].
    rewrite to_int_id by (unfold Int.in_int; lia). f_equal. lia.
  - rewrite Hself, Hone. cbn [fmap option_fmap option_map mbind option_bind].
    rewrite to_int_id by (unfold Int.in_int; lia). f_equal. lia.
  - intros px histIdx Hcol.
    apply bind_Some in Hcol as (z & _ & Hcol).
    injection Hcol as <-. split; [lia |]. intros i Hi.
    set (k := Z.max 0 (Z.min z (H - 1))).
    assert (Hk : 0 <= k <= H - 1) by lia.
    assert (Hcell : 0 <= k * NUM_BARS + i < H * NUM_BARS) by nia.
    assert (Hlen : H * NUM_BARS <= Z.of_nat (length (lineHistory h))) by nia.
    unfold historyCell.
    rewrite (to_int_id (k * NUM_BARS)) by (unfold Int.in_int; nia).
    rewrite to_int_id by (unfold Int.in_int; lia). lia.
Qed.

Lemma heat_map_columns_witness :
  columnHistIdx (textureWidth 5000) 560 0 = Some 0 /\
  columnHistIdx (textureWidth 5000) 560 (textureWidth 5000 - 1) = Some (560 - 1).
Proof.
  destruct (heat_map_columns 5000 3 (mkHistory (replicate 1680 F32.zero) 0 560))
    as (H0 & H1 & _).
  - lia.
  - unfold MAX_HISTORY_LINES. simpl. lia.
  - unfold ring_fits. simpl. lia.
  - lia.
  - simpl. lia.
  - split; [exact H0 | exact H1].
Defined.

(** ** Waveform cache *)

Lemma below_nonpositive (x m : float) :
  F32.ltb x m = true -> F32.leb m F32.zero = true -> F32.leb x F32.zero = true.
Proof.
  destruct x as [[|] | [|] | | [|] mx ex], m as [[|] | [|] | | [|] mm em];
    cbv beta iota delta [F32.ltb F32.leb SFltb SFleb SFcompare F32.zero];
    intros H1 H2; solve [reflexivity | discriminate H1 | discriminate H2].
Qed.

Lemma above_nonnegative (x m : float) :
  F32.ltb m x = true -> F32.leb F32.zero m = true -> F32.leb F32.zero x = true.
Proof.
  destruct x as [[|] | [|] | | [|] mx ex], m as [[|] | [|] | | [|] mm em];
    cbv beta iota delta [F32.ltb F32.leb SFltb SFleb SFcompare F32.zero];
    intros H1 H2; solve [reflexivity | discriminate H1 | discriminate H2].
Qed.

(** The inner loop reads inside the buffer and keeps the minimum at or
    below zero and the maximum at or above it. *)
Lemma scan_spans_zero (data : list float) (sampleIdx : Z) (k : nat) :
  forall (i : Z) (minVal maxVal : float),
  F32.leb minVal F32.zero = true -> Waveform.from_data data minVal ->
  F32.leb F32.zero maxVal = true -> Waveform.from_data data maxVal ->
  exists lo hi : float,
    Waveform.scan data sampleIdx k i minVal maxVal = Some (lo, hi) /\
    F32.leb lo F32.zero = true /\ Waveform.from_data data lo /\
    F32.leb F32.zero hi = true /\ Waveform.from_data data hi.
Proof.
  induction k as [| k IH]; intros i minVal maxVal Hlo Hlod Hhi Hhid.
  - exists minVal, maxVal. simpl. auto.
  - simpl. destruct (Z.ltb_spec (Int.to_size_t (sampleIdx + Int.to_size_t i))
                                (Z.of_nat (length data))) as [Hin | _].
    + assert (H0 : 0 <= Int.to_size_t (sampleIdx + Int.to_size_t i)).
      { unfold Int.to_size_t, Int.wrap_unsigned. apply Z.mod_pos_bound. lia. }
      destruct (lookup_lt_is_Some_2 data
                  (Z.to_nat (Int.to_size_t (sampleIdx + Int.to_size_t i))) ltac:(lia))
        as [sample Hs].
      rewrite Hs. simpl. apply IH.
      * unfold F32.min. destruct (F32.ltb sample minVal) eqn:Hc; [| exact Hlo].
        eapply below_nonpositive; eassumption.
      * unfold F32.min. destruct (F32.ltb sample minVal); [| exact Hlod].
        right. eapply list_elem_of_lookup_2. exact Hs.
      * unfold F32.max. destruct (F32.ltb maxVal sample) eqn:Hc; [| exact Hhi].
        eapply above_nonnegative; eassumption.
      * unfold F32.max. destruct (F32.ltb maxVal sample); [| exact Hhid].
        right. eapply list_elem_of_lookup_2. exact Hs.
    + exists minVal, maxVal. auto.
Qed.

Lemma column_spans_zero (width : Z) (data : list float) (x : Z) :
  is_Some (Waveform.column_start width data x) ->
  exists lo hi : float,
    Waveform.column width data x = Some (lo, hi) /\
    F32.leb lo F32.zero = true /\ Waveform.from_data data lo /\
    F32.leb F32.zero hi = true /\ Waveform.from_data data hi.
Proof.
  intros [start Hstart]. unfold Waveform.column. rewrite Hstart. simpl.
  apply scan_spans_zero; solve [reflexivity | left; reflexivity].
Qed.

Lemma columns_span_zero (width : Z) (data : list float) (xs : list Z) :
  Forall (fun x => is_Some (Waveform.column_start width data x)) xs ->
  exists columns : list (float * float),
    mapM (Waveform.column width data) xs = Some columns /\
    length columns = length xs /\
    Forall (fun c => (F32.leb c.1 F32.zero = true /\ Waveform.from_data data c.1) /\
                     (F32.leb F32.zero c.2 = true /\ Waveform.from_data data c.2)) columns.
Proof.
  induction 1 as [| x xs Hx _ (columns & Hmap & Hlen & Hall)].
  - exists []. repeat split. constructor.
  - destruct (column_spans_zero width data x Hx) as (lo & hi & Hcol & H1 & H2 & H3 & H4).
    exists ((lo, hi) :: columns). simpl. rewrite Hcol. simpl. rewrite Hmap. simpl.
    split; [reflexivity |]. split; [congruence |]. constructor; [simpl; auto | exact Hall].
Qed.

(** X26.  When [updateWaveformCache] rebuilds the cache for a width
    [width >= 0] on a loaded file (the start index of every column being a
    [size_t]): it reads no sample outside the buffer; both caches get
    [width + 1] entries; each cached minimum is at most 0 and each cached
    maximum at least 0, so no entry is NaN even if samples are; and each
    entry is 0 or a sample of the file. *)
Theorem waveform_cache_spans_zero (width : Z) (data : list float) (c : Waveform.Cache) :
  data <> [] -> 0 <= width < 2 ^ 31 - 1 ->
  Waveform.waveformCacheDirty c = true \/ Waveform.waveformCacheWidth c <> width ->
  (forall x : Z, 0 <= x <= width -> is_Some (Waveform.column_start width data x)) ->
  exists c' : Waveform.Cache,
    Waveform.updateWaveformCache width data c = Some c' /\
    Waveform.waveformCacheWidth c' = width /\ Waveform.waveformCacheDirty c' = false /\
    Z.of_nat (length (Waveform.waveformMinCache c')) = width + 1 /\
    Z.of_nat (length (Waveform.waveformMaxCache c')) = width + 1 /\
    Forall (fun v => F32.leb v F32.zero = true /\ Waveform.from_data data v)
           (Waveform.waveformMinCache c') /\
    Forall (fun v => F32.leb F32.zero v = true /\ Waveform.from_data data v)
           (Waveform.waveformMaxCache c').
Proof.
  intros Hdata Hwidth Hstale Hstart.
  destruct (columns_span_zero width data (map Z.of_nat (seq 0 (Z.to_nat (width + 1)))))
    as (columns & Hmap & Hlen & Hall).
  { apply Forall_forall. intros x Hx. apply list_elem_of_In, in_map_iff in Hx.
    destruct Hx as (k & <- & Hk). apply in_seq in Hk. apply Hstart. lia. }
  rewrite length_map, length_seq in Hlen.
  exists (Waveform.mkCache (map fst columns) (map snd columns) width false).
  split.
  - unfold Waveform.updateWaveformCache.
    destruct (Z.eqb_spec (Z.of_nat (length data)) 0) as [H0 | _].
    { destruct data; [congruence | simpl in H0; lia]. }
    assert (Hvalid : (Waveform.waveformCacheWidth c =? width)
                       && negb (Waveform.waveformCacheDirty c) = false).
    { destruct Hstale as [-> | Hw]; [apply andb_false_r |].
      destruct (Z.eqb_spec (Waveform.waveformCacheWidth c) width); [congruence | reflexivity]. }
    rewrite Hvalid, to_int_id by (unfold Int.in_int; lia).
    destruct (Z.leb_spec 0 (width + 1)); [| lia]. simpl. rewrite Hmap. reflexivity.
  - simpl. rewrite !length_map, Hlen.
    repeat split; try lia.
    + apply Forall_fmap. eapply Forall_impl; [exact Hall |]. intros [lo hi] [H _]. exact H.
    + apply Forall_fmap. eapply Forall_impl; [exact Hall |]. intros [lo hi] [_ H]. exact H.
Qed.

Lemma waveform_cache_spans_zero_witness :
  exists c' : Waveform.Cache,
    Waveform.updateWaveformCache 2 [F32.lit 1 2; S754_nan; F32.lit (-1) 4]
      (Waveform.mkCache [] [] 0 true) = Some c' /\
    Waveform.waveformCacheWidth c' = 2 /\ Waveform.waveformCacheDirty c' = false /\
    Z.of_nat (length (Waveform.waveformMinCache c')) = 2 + 1 /\
    Z.of_nat (length (Waveform.waveformMaxCache c')) = 2 + 1 /\
    Forall (fun v => F32.leb v F32.zero = true /\
                     Waveform.from_data [F32.lit 1 2; S754_nan; F32.lit (-1) 4] v)
           (Waveform.waveformMinCache c') /\
    Forall (fun v => F32.leb F32.zero v = true /\
                     Waveform.from_data [F32.lit 1 2; S754_nan; F32.lit (-1) 4] v)
           (Waveform.waveformMaxCache c').
Proof.
  apply (waveform_cache_spans_zero 2 [F32.lit 1 2; S754_nan; F32.lit (-1) 4]
           (Waveform.mkCache [] [] 0 true)).
  - discriminate.
  - lia.
  - left. reflexivity.
  - intros x Hx. assert (H : x = 0 \/ x = 1 \/ x = 2) by lia.
    destruct H as [-> | [-> | ->]]; vm_compute; eauto.
Defined.

(** X27.  In a viewport narrower than 39 pixels [renderWaveform] passes a
    width below -1, and on a loaded file with a cache that is not up to date
    [updateWaveformCache] then asks for caches of a negative size and has no
    result.  At 39 pixels the width is -1 and the caches are emptied. *)
Theorem narrow_viewport_waveform (vpW : Z) (data : list float) (c : Waveform.Cache) :
  let width := Waveform.waveformWidth vpW in
  data <> [] -> - 2 ^ 31 + 40 <= vpW <= 39 ->
  Waveform.waveformCacheDirty c = true \/ Waveform.waveformCacheWidth c <> width ->
  (vpW < 39 -> width < - 1 /\ Waveform.updateWaveformCache width data c = None) /\
  (vpW = 39 ->
     Waveform.updateWaveformCache width data c = Some (Waveform.mkCache [] [] (- 1) false)).
Proof.
  intros width Hdata HvpW Hstale.
  assert (Hw : width = vpW - 40).
  { unfold width, Waveform.waveformWidth. rewrite to_int_id by (unfold Int.in_int; lia). lia. }
  assert (Hrun : Waveform.updateWaveformCache width data c
                 = ((if 0 <=? Int.to_int (width + 1) then Some tt else None) ;;
                    columns ← mapM (Waveform.column width data)
                      (map Z.of_nat (seq 0 (Z.to_nat (Int.to_int (width + 1)))));
                    Some (Waveform.mkCache (map fst columns) (map snd columns) width false))).
  { unfold Waveform.updateWaveformCache.
    destruct (Z.eqb_spec (Z.of_nat (length data)) 0) as [H0 | _].
    { destruct data; [congruence | simpl in H0; lia]. }
    destruct Hstale as [-> | Hne]; [rewrite andb_false_r; reflexivity |].
    destruct (Z.eqb_spec (Waveform.waveformCacheWidth c) width); [congruence | reflexivity]. }
  rewrite Hrun, to_int_id by (unfold Int.in_int; lia). split.
  - intros Hnarrow. split; [lia |].
    destruct (Z.leb_spec 0 (width + 1)); [lia | reflexivity].
  - intros ->. rewrite Hw. reflexivity.
Qed.

Lemma narrow_viewport_waveform_witness :
  (20 < 39 -> Waveform.waveformWidth 20 < - 1 /\
     Waveform.updateWaveformCache (Waveform.waveformWidth 20) [F32.one]
       (Waveform.mkCache [] [] 0 true) = None) /\
  (20 = 39 ->
     Waveform.updateWaveformCache (Waveform.waveformWidth 20) [F32.one]
       (Waveform.mkCache [] [] 0 true) = Some (Waveform.mkCache [] [] (- 1) false)).
Proof.
  apply (narrow_viewport_waveform 20 [F32.one] (Waveform.mkCache [] [] 0 true)).
  - discriminate.
  - lia.
  - left. reflexivity.
Defined.

(** ** Recent files *)

Lemma string_app_nil (s : String.string) : String.append s String.EmptyString = s.
Proof. induction s as [| c s IH]; [reflexivity | simpl; rewrite IH; reflexivity]. Qed.

Lemma string_app_assoc (a b c : String.string) :
  String.append (String.append a b) c = String.append a (String.append b c).
Proof. induction a as [| x a IH]; [reflexivity | simpl; rewrite IH; reflexivity]. Qed.

(** A run of characters without a newline is taken into the line. *)
Lemma read_lines_run (x : String.string) :
  Recent.has_newline x = false ->
  forall (text line : String.string) (files : list String.string),
  Recent.read_lines (String.append x text) line files
  = Recent.read_lines text (String.append line x) files.
Proof.
  induction x as [| c x IH]; intros Hx text line files.
  - rewrite string_app_nil. reflexivity.
  - simpl in Hx. apply orb_false_iff in Hx as [Hc Hx]. simpl. rewrite Hc.
    rewrite IH by exact Hx. rewrite string_app_assoc. reflexivity.
Qed.

Lemma read_lines_saved (l : list String.string) :
  forall files : list String.string,
  Forall Recent.storable l ->
  (length files + length l <= Recent.MAX_RECENT_FILES)%nat ->
  Recent.read_lines (Recent.saved_text l) String.EmptyString files = files ++ l.
Proof.
  induction l as [| x l IH]; intros files Hok Hlen.
  - simpl. rewrite app_nil_r. reflexivity.
  - apply Forall_cons in Hok as [[Hne Hnl] Hok]. simpl in Hlen.
    simpl Recent.saved_text. rewrite read_lines_run by exact Hnl.
    simpl. destruct (decide (length files < Recent.MAX_RECENT_FILES)%nat) as [_ | ?]; [| lia].
    destruct x as [| c x]; [congruence |].
    rewrite IH by (assumption || rewrite length_app; simpl; lia).
    rewrite <- app_assoc. reflexivity.
Qed.

(** What [std::find] and [erase] leave. *)
Lemma erase_first (p : String.string) (rf : list String.string) :
  let erased := match list_find (fun file => file = p) rf with
                | Some (it, _) => delete it rf
                | None => rf
                end in
  erased `sublist_of` rf /\ (NoDup rf -> p ∉ erased).
Proof.
  simpl. destruct (list_find _ rf) as [[it x] |] eqn:Hfind.
  - apply list_find_Some in Hfind as (Hit & -> & _).
    split; [apply sublist_delete |].
    intros Hnd Hin. apply list_elem_of_lookup_1 in Hin as [k Hk].
    rewrite list_lookup_delete in Hk.
    destruct (decide (k < it)%nat);
      pose proof (NoDup_lookup _ _ _ _ Hnd Hit Hk); lia.
  - apply list_find_None in Hfind. split; [reflexivity |].
    intros _ Hin. rewrite Forall_forall in Hfind. exact (Hfind p Hin eq_refl).
Qed.

Lemma find_at_head (p : String.string) (t : list String.string) :
  list_find (fun file => file = p) (p :: t) = Some (0%nat, p).
Proof.
  apply list_find_Some. split; [reflexivity |]. split; [reflexivity |].
  intros j y _ Hj. lia.
Qed.

Lemma add_copy (p : String.string) (rf : list String.string) :
  let erased := match list_find (fun file => file = p) rf with
                | Some (it, _) => delete it rf
                | None => rf
                end in
  let l := take Recent.MAX_RECENT_FILES (p :: erased) in
  Recent.addToRecentFiles (Recent.Copy p) rf = Some (l, Recent.saved_text l).
Proof.
  intros erased l. unfold Recent.addToRecentFiles.
  cbn [Recent.read mbind option_bind]. fold erased.
  destruct (decide _) as [Hlong | Hshort]; [reflexivity |].
  assert (l = p :: erased) as -> by (subst l; apply take_ge; simpl in *; lia).
  reflexivity.
Qed.

Lemma recent_files_list_helper (p : String.string) (rf : list String.string) :
  exists l : list String.string,
    Recent.addToRecentFiles (Recent.Copy p) rf = Some (l, Recent.saved_text l) /\
    (length l <= Recent.MAX_RECENT_FILES)%nat /\
    l `sublist_of` (p :: rf).
Proof.
  pose proof (add_copy p rf) as Hadd. pose proof (erase_first p rf) as [Hsub _].
  simpl in Hadd, Hsub.
  set (erased := match list_find _ rf with Some (it, _) => delete it rf | None => rf end) in *.
  exists (take Recent.MAX_RECENT_FILES (p :: erased)).
  split; [exact Hadd |]. split; [rewrite length_take; lia |].
  etransitivity; [apply sublist_take |]. apply sublist_skip. exact Hsub.
Qed.

(** X28.  [addToRecentFiles] called with a path of the caller's own puts
    that path first, keeps at most ten entries and drops from the others only
    the first earlier occurrence of the path and what falls off the end: a
    list without repetitions stays one and no longer holds the path twice.
    Adding the same path again changes nothing, and the file written is the
    list, one line per entry. *)
Theorem recent_files_most_recent_first (p : String.string) (rf : list String.string) :
  exists l : list String.string,
    Recent.addToRecentFiles (Recent.Copy p) rf = Some (l, Recent.saved_text l) /\
    head l = Some p /\
    (length l <= Recent.MAX_RECENT_FILES)%nat /\
    tail l `sublist_of` rf /\
    (NoDup rf -> NoDup l) /\
    Recent.addToRecentFiles (Recent.Copy p) l = Some (l, Recent.saved_text l).
Proof.
  pose proof (add_copy p rf) as Hadd. pose proof (erase_first p rf) as [Hsub Hnd].
  simpl in Hadd, Hsub, Hnd.
  set (erased := match list_find _ rf with Some (it, _) => delete it rf | None => rf end) in *.
  exists (take Recent.MAX_RECENT_FILES (p :: erased)).
  change (take Recent.MAX_RECENT_FILES (p :: erased)) with (p :: take 9 erased) in *.
  split; [exact Hadd |]. split; [reflexivity |].
  split; [simpl; rewrite length_take; unfold Recent.MAX_RECENT_FILES; lia |].
  split; [simpl; etransitivity; [apply sublist_take | exact Hsub] |].
  split.
  - intros Hrf. apply NoDup_cons. split.
    + intros Hin. apply (Hnd Hrf). eapply elem_of_sublist; [exact Hin | apply sublist_take].
    + eapply sublist_NoDup; [exact Hrf |].
      etransitivity; [apply sublist_take | exact Hsub].
  - pose proof (add_copy p (p :: take 9 erased)) as Hagain. cbv zeta in Hagain.
    rewrite find_at_head in Hagain. cbv beta iota in Hagain.
    change (delete 0%nat (p :: take 9 erased)) with (take 9 erased) in Hagain.
    assert (E : take Recent.MAX_RECENT_FILES (p :: take 9 erased) = p :: take 9 erased).
    { apply take_ge. simpl. rewrite length_take. unfold Recent.MAX_RECENT_FILES. lia. }
    rewrite E in Hagain. exact Hagain.
Qed.

(** X29.  What [addToRecentFiles] writes, [loadRecentFiles] reads back:
    when the paths are not empty and hold no newline, loading the written
    file into an empty list gives exactly the list that was saved. *)
Theorem recent_files_round_trip (p : String.string) (rf : list String.string) :
  Forall Recent.storable (p :: rf) ->
  exists (l : list String.string) (text : String.string),
    Recent.addToRecentFiles (Recent.Copy p) rf = Some (l, text) /\
    Recent.loadRecentFiles text [] = l.
Proof.
  intros Hok. destruct (recent_files_list_helper p rf) as (l & Hadd & Hlen & Hsub).
  exists l, (Recent.saved_text l). split; [exact Hadd |].
  unfold Recent.loadRecentFiles. rewrite read_lines_saved; [reflexivity | | simpl; lia].
  apply Forall_forall. intros x Hx. rewrite Forall_forall in Hok. apply Hok.
  eapply elem_of_sublist; [exact Hx | exact Hsub].
Qed.

Lemma recent_files_round_trip_witness :
  exists (l : list String.string) (text : String.string),
    Recent.addToRecentFiles (Recent.Copy (Recent.sample_path 2))
      [Recent.sample_path 0; Recent.sample_path 1; Recent.sample_path 2] = Some (l, text) /\
    Recent.loadRecentFiles text [] = l.
Proof.
  apply (recent_files_round_trip (Recent.sample_path 2)
           [Recent.sample_path 0; Recent.sample_path 1; Recent.sample_path 2]).
  repeat constructor; discriminate.
Defined.

(** X30.  The "Recent Files" list passes [recentFiles[i]] itself, and the
    reference is read again after the entry was erased.  On a list without
    repetitions, clicking an entry that is not the last one puts a copy of
    the entry that followed it in front: the clicked path is no longer in
    the list and its successor is there twice.  Clicking the last entry
    reads the reference past the end of the vector. *)
Theorem recent_click_reads_moved_slot (rf : list String.string) (i : nat) (p : String.string) :
  NoDup rf -> (length rf <= Recent.MAX_RECENT_FILES)%nat -> rf !! i = Some p ->
  match rf !! S i with
  | Some q =>
      Recent.addToRecentFiles (Recent.Element i) rf
        = Some (q :: delete i rf, Recent.saved_text (q :: delete i rf)) /\
      (p ∉ q :: delete i rf) /\ (q ∈ delete i rf)
  | None => Recent.addToRecentFiles (Recent.Element i) rf = None
  end.
Proof.
  intros Hnd Hlen Hp.
  assert (Hfind : list_find (fun file => file = p) rf = Some (i, p)).
  { apply list_find_Some. split; [exact Hp |]. split; [reflexivity |].
    intros j y Hy Hj ->. pose proof (NoDup_lookup _ _ _ _ Hnd Hp Hy). lia. }
  pose proof (erase_first p rf) as [_ Hgone]. simpl in Hgone. rewrite Hfind in Hgone.
  assert (Hslot : delete i rf !! i = rf !! S i) by (apply list_lookup_delete_ge; lia).
  unfold Recent.addToRecentFiles. cbn [Recent.read]. rewrite Hp.
  cbn [mbind option_bind]. rewrite Hfind, Hslot.
  destruct (rf !! S i) as [q |] eqn:Hq; [| reflexivity].
  cbn [mbind option_bind].
  assert (Hsame : length (q :: delete i rf) = length rf).
  { simpl. rewrite length_delete by eauto. apply lookup_lt_Some in Hp. lia. }
  destruct (decide _) as [? | _]; [lia |].
  split; [reflexivity |]. split.
  - apply not_elem_of_cons. split; [| exact (Hgone Hnd)].
    intros ->. pose proof (NoDup_lookup _ _ _ _ Hnd Hp Hq). lia.
  - eapply list_elem_of_lookup_2. exact Hslot.
Qed.

Lemma recent_click_reads_moved_slot_witness :
  Recent.addToRecentFiles (Recent.Element 0)
    [Recent.sample_path 0; Recent.sample_path 1; Recent.sample_path 2]
  = Some ([Recent.sample_path 1; Recent.sample_path 1; Recent.sample_path 2],
          Recent.saved_text [Recent.sample_path 1; Recent.sample_path 1; Recent.sample_path 2]) /\
  (Recent.sample_path 0 ∉ [Recent.sample_path 1; Recent.sample_path 1; Recent.sample_path 2]) /\
  (Recent.sample_path 1 ∈ [Recent.sample_path 1; Recent.sample_path 2]).
Proof.
  apply (recent_click_reads_moved_slot
           [Recent.sample_path 0; Recent.sample_path 1; Recent.sample_path 2] 0
           (Recent.sample_path 0)).
  - repeat (apply NoDup_cons; split); try apply NoDup_nil_2;
      rewrite ?not_elem_of_cons; repeat split; (discriminate || apply not_elem_of_nil).
  - simpl. unfold Recent.MAX_RECENT_FILES. lia.
  - reflexivity.
Defined.

(** * Rounding and the frequency mapping *)

(** ** Powers of two *)

Lemma bpow_pos (e : Z) : (0 < bpow e)%R.
Proof. apply powerRZ_lt. lra. Qed.

Lemma bpow_add (a b : Z) : bpow (a + b) = (bpow a * bpow b)%R.
Proof. apply powerRZ_add. lra. Qed.

Lemma bpow_IZR (n : Z) : 0 <= n -> bpow n = IZR (2 ^ n).
Proof.
  intros Hn. unfold bpow. destruct n as [| p | p]; [reflexivity | | lia].
  symmetry. apply Zpower_pos_powerRZ.
Qed.

Lemma bpow_0 : bpow 0 = 1%R.
Proof. reflexivity. Qed.

Lemma bpow_1 : bpow 1 = 2%R.
Proof. unfold bpow. simpl. lra. Qed.

Lemma bpow_opp (e : Z) : bpow (- e) = (/ bpow e)%R.
Proof. apply powerRZ_neg'. Qed.

Lemma bpow_m1 : bpow (-1) = (/ 2)%R.
Proof. unfold bpow. simpl. rewrite Rmult_1_r. reflexivity. Qed.

Lemma bpow_ge_1 (n : Z) : 0 <= n -> (1 <= bpow n)%R.
Proof.
  intros Hn. rewrite bpow_IZR by exact Hn. apply IZR_le.
  pose proof (Z.pow_pos_nonneg 2 n). lia.
Qed.

Lemma bpow_le (a b : Z) : a <= b -> (bpow a <= bpow b)%R.
Proof.
  intros Hab. replace b with (a + (b - a)) by lia. rewrite bpow_add.
  pose proof (bpow_pos a). pose proof (bpow_ge_1 (b - a) ltac:(lia)). nra.
Qed.

Lemma bpow_lt (a b : Z) : a < b -> (bpow a < bpow b)%R.
Proof.
  intros Hab. replace b with (a + 1 + (b - a - 1)) by lia. rewrite !bpow_add, bpow_1.
  pose proof (bpow_pos a). pose proof (bpow_ge_1 (b - a - 1) ltac:(lia)). nra.
Qed.

Lemma bpow_lt_inv (a b : Z) : (bpow a < bpow b)%R -> a < b.
Proof.
  intros H. destruct (Z_lt_le_dec a b) as [? | Hle]; [assumption |].
  pose proof (bpow_le b a Hle). lra.
Qed.

Lemma bpow_le_inv (a b : Z) : (bpow a <= bpow b)%R -> a <= b.
Proof.
  intros H. destruct (Z_le_gt_dec a b) as [? | Hgt]; [assumption |].
  pose proof (bpow_lt b a ltac:(lia)). lra.
Qed.

(** ** Digits *)

Lemma digits2_log2 (p : positive) : Z.pos (digits2_pos p) = Z.log2 (Z.pos p) + 1.
Proof.
  induction p as [p IH | p IH |]; [| | reflexivity].
  - change (digits2_pos p~1) with (Pos.succ (digits2_pos p)).
    rewrite Pos2Z.inj_succ, IH.
    change (Z.pos p~1) with (2 * Z.pos p + 1). rewrite Z.log2_succ_double by lia. lia.
  - change (digits2_pos p~0) with (Pos.succ (digits2_pos p)).
    rewrite Pos2Z.inj_succ, IH.
    change (Z.pos p~0) with (2 * Z.pos p). rewrite Z.log2_double by lia. lia.
Qed.

Lemma Zdigits2_log2 (m : Z) : 0 < m -> Zdigits2 m = Z.log2 m + 1.
Proof. destruct m as [| p | p]; try lia. intros _. apply digits2_log2. Qed.

Lemma Zdigits2_bounds (m : Z) : 0 < m -> 2 ^ (Zdigits2 m - 1) <= m < 2 ^ Zdigits2 m.
Proof.
  intros Hm. rewrite Zdigits2_log2 by exact Hm.
  pose proof (Z.log2_spec m Hm). replace (Z.log2 m + 1 - 1) with (Z.log2 m) by lia.
  replace (Z.log2 m + 1) with (Z.succ (Z.log2 m)) by lia. lia.
Qed.

Lemma Zdigits2_pos (m : Z) : 0 < m -> 0 < Zdigits2 m.
Proof. intros Hm. rewrite Zdigits2_log2 by exact Hm. pose proof (Z.log2_nonneg m). lia. Qed.

Lemma Zdigits2_nonneg (m : Z) : 0 <= m -> 0 <= Zdigits2 m.
Proof.
  intros Hm. destruct (Z.eq_dec m 0) as [-> | ?]; [simpl; lia |].
  pose proof (Zdigits2_pos m ltac:(lia)). lia.
Qed.

Lemma Zdigits2_unique (m k : Z) : 2 ^ (k - 1) <= m < 2 ^ k -> 0 < k -> Zdigits2 m = k.
Proof.
  intros Hm Hk. assert (0 < m) by (pose proof (Z.pow_pos_nonneg 2 (k - 1)); lia).
  rewrite Zdigits2_log2 by assumption.
  rewrite (Z.log2_unique m (k - 1)); [lia | lia |].
  replace (Z.succ (k - 1)) with k by lia. exact Hm.
Qed.

Lemma Zdigits2_le (a b : Z) : 0 <= a <= b -> Zdigits2 a <= Zdigits2 b.
Proof.
  intros Hab. destruct (Z.eq_dec a 0) as [-> | ?].
  - apply Zdigits2_nonneg. lia.
  - rewrite !Zdigits2_log2 by lia. pose proof (Z.log2_le_mono a b). lia.
Qed.

(** The value [m * 2 ^ e] of a positive mantissa lies in the binade its
    digit count names. *)
Lemma F2R_bounds (m e : Z) :
  0 < m -> (bpow (Zdigits2 m + e - 1) <= F2R m e < bpow (Zdigits2 m + e))%R.
Proof.
  intros Hm. unfold F2R. pose proof (Zdigits2_bounds m Hm) as [Hlo Hhi].
  pose proof (Zdigits2_pos m Hm).
  replace (Zdigits2 m + e - 1) with ((Zdigits2 m - 1) + e) by lia.
  rewrite !bpow_add, (bpow_IZR (Zdigits2 m - 1)), (bpow_IZR (Zdigits2 m)) by lia.
  apply IZR_le in Hlo. apply IZR_lt in Hhi. pose proof (bpow_pos e). split.
  - apply Rmult_le_compat_r; lra.
  - apply Rmult_lt_compat_r; lra.
Qed.

(** ** Shifting to the right *)

Lemma inbetween_floor (m : Z) (u : R) (l : location) :
  inbetween_int m u l -> (IZR m <= u < IZR m + 1)%R.
Proof. destruct l as [| []]; simpl; lra. Qed.

Lemma record_of_loc_inv (m : Z) (u : R) (l : location) :
  0 <= m -> inbetween_int m u l -> shr_inv (shr_record_of_loc m l) u.
Proof. intros Hm Hu. destruct l as [| []]; split; simpl; assumption. Qed.

Lemma IZR_xO (p : positive) : IZR (Z.pos p~0) = (2 * IZR (Z.pos p))%R.
Proof. change (Z.pos p~0) with (2 * Z.pos p). apply mult_IZR. Qed.

Lemma IZR_xI (p : positive) : IZR (Z.pos p~1) = (2 * IZR (Z.pos p) + 1)%R.
Proof. change (Z.pos p~1) with (2 * Z.pos p + 1). rewrite plus_IZR, mult_IZR. reflexivity. Qed.

(** One shift to the right halves what the record describes. *)
Lemma shr_1_inv (mrs : shr_record) (u : R) :
  shr_inv mrs u -> shr_inv (shr_1 mrs) (u / 2).
Proof.
  destruct mrs as [m r s]. unfold shr_inv. intros [Hm Hu].
  destruct m as [| p | p]; [| | simpl in Hm; lia].
  - destruct r, s;
      cbn [shr_1 shr_m shr_r shr_s loc_of_shr_record inbetween_int orb] in Hu |- *;
      (split; [lia | lra]).
  - destruct p as [p | p |]; destruct r, s;
      cbn [shr_1 shr_m shr_r shr_s loc_of_shr_record inbetween_int orb] in Hu |- *;
      rewrite ?(IZR_xO p), ?(IZR_xI p) in Hu; (split; [lia | lra]).
Qed.

Lemma iter_shr_1_inv (p : positive) :
  forall (mrs : shr_record) (u : R),
  shr_inv mrs u -> shr_inv (SpecFloat.iter_pos shr_1 p mrs) (u * bpow (- Z.pos p)).
Proof.
  induction p as [p IH | p IH |]; intros mrs u Hu; cbn [SpecFloat.iter_pos].
  - replace (u * bpow (- Z.pos p~1))%R
      with (u / 2 * bpow (- Z.pos p) * bpow (- Z.pos p))%R.
    + apply IH, IH, shr_1_inv, Hu.
    + replace (- Z.pos p~1) with (-1 + (- Z.pos p + - Z.pos p)) by lia.
      rewrite !bpow_add, bpow_m1. lra.
  - replace (u * bpow (- Z.pos p~0))%R
      with (u * bpow (- Z.pos p) * bpow (- Z.pos p))%R.
    + apply IH, IH, Hu.
    + replace (- Z.pos p~0) with (- Z.pos p + - Z.pos p) by lia.
      rewrite !bpow_add. lra.
  - change (- Z.pos 1) with (-1). rewrite bpow_m1. apply shr_1_inv, Hu.
Qed.

(** [shr] by [n >= 0] places divides by [2 ^ n] and raises the exponent by
    [n]. *)
Lemma shr_spec (mrs : shr_record) (e n : Z) (u : R) :
  0 <= n -> shr_inv mrs u ->
  exists mrs' : shr_record,
    shr mrs e n = (mrs', e + n) /\ shr_inv mrs' (u * bpow (- n)).
Proof.
  intros Hn Hu. destruct n as [| p | p]; [| | lia].
  - exists mrs. split; [cbn [shr]; f_equal; lia |].
    change (- 0) with 0. rewrite bpow_0, Rmult_1_r. exact Hu.
  - exists (SpecFloat.iter_pos shr_1 p mrs). split; [reflexivity |].
    apply iter_shr_1_inv, Hu.
Qed.

(** ** Rounding to the nearest integer, ties to even *)

Lemma rne_range (m : Z) (l : location) :
  m <= round_nearest_even m l <= m + 1.
Proof. destruct l as [| []]; simpl; try lia. destruct (Z.even m); lia. Qed.

Lemma rne_mono (m1 m2 : Z) (u1 u2 : R) (l1 l2 : location) :
  inbetween_int m1 u1 l1 -> inbetween_int m2 u2 l2 -> (u1 <= u2)%R ->
  round_nearest_even m1 l1 <= round_nearest_even m2 l2.
Proof.
  intros H1 H2 Hu.
  pose proof (inbetween_floor _ _ _ H1) as F1. pose proof (inbetween_floor _ _ _ H2) as F2.
  assert (Hm : m1 <= m2).
  { assert (IZR m1 < IZR (m2 + 1))%R by (rewrite plus_IZR; lra).
    apply lt_IZR in H. lia. }
  destruct (Z.eq_dec m1 m2) as [<- | Hne].
  - destruct l1 as [| []], l2 as [| []]; simpl in *;
      try destruct (Z.even m1); first [lia | lra].
  - pose proof (rne_range m1 l1). pose proof (rne_range m2 l2). lia.
Qed.

Lemma rne_exact (m : Z) : round_nearest_even m loc_Exact = m.
Proof. reflexivity. Qed.

Lemma rne_le_int (m K : Z) (u : R) (l : location) :
  inbetween_int m u l -> (u <= IZR K)%R -> round_nearest_even m l <= K.
Proof.
  intros Hu HK. rewrite <- (rne_exact K).
  apply (rne_mono m K u (IZR K) l loc_Exact); [exact Hu | reflexivity | exact HK].
Qed.

Lemma rne_ge_int (m K : Z) (u : R) (l : location) :
  inbetween_int m u l -> (IZR K <= u)%R -> K <= round_nearest_even m l.
Proof.
  intros Hu HK. rewrite <- (rne_exact K).
  apply (rne_mono K m (IZR K) u loc_Exact l); [reflexivity | exact Hu | exact HK].
Qed.

Lemma rne_small (m : Z) (u : R) (l : location) :
  0 <= m -> inbetween_int m u l -> (u <= / 2)%R -> round_nearest_even m l = 0.
Proof.
  intros Hm Hu Hhalf. pose proof (inbetween_floor _ _ _ Hu) as F.
  assert (m = 0).
  { assert (IZR m < IZR 1)%R by lra. apply lt_IZR in H. lia. }
  subst m. destruct l as [| []]; simpl in *; first [reflexivity | lra].
Qed.

(** ** The two stages of [binary_round_aux] *)

Lemma fexp32 (k : Z) : fexp F32.prec F32.emax k = Z.max (k - 24) (-149).
Proof. reflexivity. Qed.

Lemma binary_round_aux_finish (s : bool) (mx ex : Z) (lx : location) :
  binary_round_aux F32.prec F32.emax s mx ex lx
  = let '(mrs, e) := shr_fexp F32.prec F32.emax mx ex lx in
    round_finish s (round_nearest_even (shr_m mrs) (loc_of_shr_record mrs)) e.
Proof. reflexivity. Qed.

Lemma bpow_split (a b : Z) : bpow a = (bpow (a - b) * bpow b)%R.
Proof. rewrite <- bpow_add. f_equal. lia. Qed.

Lemma Zdigits2_upper (m : Z) : 0 <= m -> m + 1 <= 2 ^ Zdigits2 m.
Proof.
  intros Hm. destruct (Z.eq_dec m 0) as [-> | ?]; [simpl; lia |].
  pose proof (Zdigits2_bounds m ltac:(lia)). lia.
Qed.

(** The first shift of [binary_round_aux] moves the number to the exponent
    of its magnitude. *)
Lemma shr_fexp_spec (m e : Z) (l : location) (u : R) :
  0 <= m -> inbetween_int m u l ->
  e <= fexp F32.prec F32.emax (Zdigits2 m + e) ->
  exists mrs : shr_record,
    shr_fexp F32.prec F32.emax m e l = (mrs, fexp F32.prec F32.emax (Zdigits2 m + e)) /\
    shr_inv mrs (u * bpow (e - fexp F32.prec F32.emax (Zdigits2 m + e))).
Proof.
  intros Hm Hu He. set (E := fexp F32.prec F32.emax (Zdigits2 m + e)) in *.
  destruct (shr_spec (shr_record_of_loc m l) e (E - e) u ltac:(lia)
              (record_of_loc_inv m u l Hm Hu)) as (mrs & Hshr & Hinv).
  exists mrs. unfold shr_fexp. fold E. rewrite Hshr. split.
  - f_equal. lia.
  - replace (e - E) with (- (E - e)) by lia. exact Hinv.
Qed.

(** What the first shift and the rounding leave. *)
Lemma round_stage (mx ex : Z) (lx : location) (u : R) :
  0 <= mx -> inbetween_int mx u lx ->
  ex <= fexp F32.prec F32.emax (Zdigits2 mx + ex) ->
  let k := Zdigits2 mx + ex in
  let E := fexp F32.prec F32.emax k in
  exists mrs : shr_record,
    shr_fexp F32.prec F32.emax mx ex lx = (mrs, E) /\
    inbetween_int (shr_m mrs) (u * bpow (ex - E)) (loc_of_shr_record mrs) /\
    rounded_at k (round_nearest_even (shr_m mrs) (loc_of_shr_record mrs)) E.
Proof.
  intros Hmx Hu He k E.
  destruct (shr_fexp_spec mx ex lx u Hmx Hu He) as (mrs & Hshr & Hm1 & Hu1).
  fold k in Hshr, Hu1. fold E in Hshr, Hu1.
  exists mrs. split; [exact Hshr |]. split; [exact Hu1 |].
  set (u1 := (u * bpow (ex - E))%R) in *.
  set (M := round_nearest_even _ _).
  pose proof (rne_range (shr_m mrs) (loc_of_shr_record mrs)) as HM. fold M in HM.
  pose proof (inbetween_floor _ _ _ Hu) as Hfl.
  pose proof (Zdigits2_nonneg mx Hmx) as Hd.
  (* the number lies below [2 ^ k] *)
  assert (Hup : (u1 < bpow (k - E))%R).
  { unfold u1, k. replace (Zdigits2 mx + ex - E) with (Zdigits2 mx + (ex - E)) by lia.
    rewrite bpow_add, (bpow_IZR (Zdigits2 mx)) by exact Hd.
    pose proof (Zdigits2_upper mx Hmx) as Hlt. apply IZR_le in Hlt. rewrite plus_IZR in Hlt.
    pose proof (bpow_pos (ex - E)). nra. }
  split; [reflexivity |]. split; [lia |]. intros HM0. split.
  - destruct (Z_le_gt_dec E (k - 1)) as [Hk | Hk].
    + assert (Hpos : 0 < mx).
      { destruct (Z.eq_dec mx 0) as [-> | ?]; [| lia]. unfold k in Hk. simpl in Hk.
        fold k in He. fold E in He. unfold k in He. simpl in He. lia. }
      assert (Hlow : (bpow (k - 1 - E) <= u1)%R).
      { unfold u1, k. replace (Zdigits2 mx + ex - 1 - E) with ((Zdigits2 mx - 1) + (ex - E)) by lia.
        pose proof (Zdigits2_pos mx Hpos).
        rewrite bpow_add, (bpow_IZR (Zdigits2 mx - 1)) by lia.
        pose proof (Zdigits2_bounds mx Hpos) as [Hlo _]. apply IZR_le in Hlo.
        pose proof (bpow_pos (ex - E)). nra. }
      rewrite bpow_IZR in Hlow by lia.
      pose proof (rne_ge_int _ _ _ _ Hu1 Hlow) as Hge. fold M in Hge.
      unfold F2R. rewrite (bpow_split (k - 1) E), (bpow_IZR (k - 1 - E)) by lia.
      apply IZR_le in Hge. pose proof (bpow_pos E). nra.
    + assert (1 <= M) by lia. unfold F2R.
      pose proof (bpow_le (k - 1) E ltac:(lia)). pose proof (bpow_pos E).
      apply IZR_le in H. nra.
  - destruct (Z_le_gt_dec E k) as [Hk | Hk].
    + rewrite bpow_IZR in Hup by lia.
      pose proof (rne_le_int _ _ _ _ Hu1 (Rlt_le _ _ Hup)) as Hle. fold M in Hle.
      unfold F2R. rewrite (bpow_split k E), (bpow_IZR (k - E)) by lia.
      apply IZR_le in Hle. pose proof (bpow_pos E). nra.
    + exfalso. apply HM0. apply (rne_small _ u1); [exact Hm1 | exact Hu1 |].
      pose proof (bpow_le (k - E) (-1) ltac:(lia)). rewrite bpow_m1 in H. lra.
Qed.

(** ** Canonical mantissas *)

Lemma F2R_pos (m e : Z) : 0 < m -> (0 < F2R m e)%R.
Proof.
  intros Hm. unfold F2R. apply IZR_lt in Hm. pose proof (bpow_pos e). nra.
Qed.

Lemma F2R_le (m1 m2 e : Z) : m1 <= m2 -> (F2R m1 e <= F2R m2 e)%R.
Proof.
  intros Hm. unfold F2R. apply IZR_le in Hm. pose proof (bpow_pos e). nra.
Qed.

Lemma F2R_lt (m1 m2 e : Z) : m1 < m2 -> (F2R m1 e < F2R m2 e)%R.
Proof.
  intros Hm. unfold F2R. apply IZR_lt in Hm. pose proof (bpow_pos e). nra.
Qed.

(** Canonical mantissas are ordered like their values: by exponent first. *)
Lemma canonical_order (m1 e1 m2 e2 : Z) :
  0 < m1 -> 0 < m2 -> canonical m1 e1 -> canonical m2 e2 ->
  (F2R m1 e1 <= F2R m2 e2)%R <-> (e1 < e2 \/ (e1 = e2 /\ m1 <= m2)).
Proof.
  intros H1 H2 C1 C2. unfold canonical in C1, C2. rewrite fexp32 in C1, C2.
  pose proof (F2R_bounds m1 e1 H1) as B1. pose proof (F2R_bounds m2 e2 H2) as B2.
  split.
  - intros Hle. destruct (Z_lt_le_dec e1 e2) as [? | He]; [left; assumption | right].
    destruct (Z.eq_dec e1 e2) as [-> | Hne].
    + split; [reflexivity |]. destruct (Z_le_gt_dec m1 m2) as [? | Hgt]; [assumption |].
      pose proof (F2R_lt m2 m1 e2 ltac:(lia)). lra.
    + exfalso. assert (Hk : Zdigits2 m2 + e2 <= Zdigits2 m1 + e1 - 1) by lia.
      pose proof (bpow_le _ _ Hk). lra.
  - intros [Hlt | [-> Hm]].
    + assert (Hk : Zdigits2 m1 + e1 <= Zdigits2 m2 + e2 - 1) by lia.
      pose proof (bpow_le _ _ Hk). lra.
    + apply F2R_le. exact Hm.
Qed.

Lemma leb_finite_pos (m1 m2 : positive) (e1 e2 : Z) :
  SFleb (S754_finite false m1 e1) (S754_finite false m2 e2) = true
  <-> (e1 < e2 \/ (e1 = e2 /\ Z.pos m1 <= Z.pos m2)).
Proof.
  unfold SFleb. cbn [SFcompare].
  destruct (Z.compare_spec e1 e2) as [-> | Hlt | Hgt].
  - change (Pos.compare_cont Eq m1 m2) with (Pos.compare m1 m2).
    destruct (Pos.compare_spec m1 m2) as [-> | Hm | Hm]; split; intros H;
      first [reflexivity | discriminate H | lia].
  - split; intros _; [lia | reflexivity].
  - split; intros H; [discriminate H | lia].
Qed.

(** The last shift of [binary_round_aux] yields zero or a canonical
    mantissa of the same value. *)
Lemma round_finish_spec (s : bool) (k M E : Z) :
  rounded_at k M E ->
  (M = 0 /\ round_finish s M E = S754_zero s) \/
  (0 < M /\
   exists (m : positive) (e : Z),
     F2R (Z.pos m) e = F2R M E /\ canonical (Z.pos m) e /\
     round_finish s M E
     = if e <=? F32.emax - F32.prec then S754_finite s m e else S754_infinity s).
Proof.
  intros (HE & HM & Hb). unfold round_finish, shr_fexp.
  set (n := fexp F32.prec F32.emax (Zdigits2 M + E) - E).
  cbn [shr_record_of_loc].
  destruct (Z.eq_dec M 0) as [-> | HM0].
  - left. split; [reflexivity |].
    destruct (Z_le_gt_dec 0 n) as [Hn | Hn].
    + destruct (shr_spec (Build_shr_record 0 false false) E n 0 Hn) as (mrs & -> & Hm & Hu).
      { split; [cbn; lia | cbn; reflexivity]. }
      apply inbetween_floor in Hu. rewrite Rmult_0_l in Hu.
      assert (shr_m mrs = 0).
      { destruct Hu as [Hu1 Hu2].
        assert (IZR (shr_m mrs) < IZR 1)%R by lra. apply lt_IZR in H. lia. }
      rewrite H. reflexivity.
    + destruct n; try lia. reflexivity.
  - right. split; [lia |]. specialize (Hb HM0).
    pose proof (F2R_bounds M E ltac:(lia)) as B.
    assert (Hd : Zdigits2 M + E = k \/ Zdigits2 M + E = k + 1).
    { assert (k - 1 < Zdigits2 M + E) by (apply bpow_lt_inv; lra).
      assert (Zdigits2 M + E - 1 <= k) by (apply bpow_le_inv; lra). lia. }
    rewrite fexp32 in HE.
    destruct Hd as [Hd | Hd].
    + assert (Hn : n = 0) by (unfold n; rewrite Hd, fexp32; lia).
      rewrite Hn. cbn [shr shr_m]. destruct M as [| m | m]; try lia.
      exists m, E. split; [reflexivity |]. split; [| reflexivity].
      unfold canonical. rewrite Hd, fexp32. lia.
    + assert (HMv : F2R M E = bpow k).
      { rewrite Hd in B. replace (k + 1 - 1) with k in B by lia. lra. }
      pose proof (Zdigits2_pos M ltac:(lia)) as Hdp.
      assert (HkE : 0 <= k - E) by lia.
      assert (HMp : M = 2 ^ (k - E)).
      { unfold F2R in HMv. rewrite (bpow_split k E), (bpow_IZR (k - E)) in HMv by lia.
        pose proof (bpow_pos E). apply eq_IZR. nra. }
      assert (Hn : n = 0 \/ n = 1) by (unfold n; rewrite Hd, !fexp32; lia).
      destruct Hn as [Hn | Hn].
      * rewrite Hn. cbn [shr shr_m]. destruct M as [| m | m]; try lia.
        exists m, E. split; [reflexivity |]. split; [| reflexivity].
        unfold canonical. unfold n in Hn. lia.
      * assert (Hke : k - E = 24) by (unfold n in Hn; rewrite Hd, fexp32 in Hn; lia).
        destruct (shr_spec (Build_shr_record M false false) E n (IZR M) ltac:(lia))
          as (mrs & -> & Hm & Hu).
        { split; [cbn; lia | cbn; reflexivity]. }
        apply inbetween_floor in Hu. rewrite Hn in Hu. change (- (1)) with (-1) in Hu.
        rewrite bpow_m1 in Hu.
        assert (Hhalf : shr_m mrs = 2 ^ 23).
        { rewrite HMp, Hke in Hu. change (2 ^ 24) with (2 * 2 ^ 23) in Hu.
          rewrite mult_IZR in Hu. destruct Hu as [Hu1 Hu2].
          assert (IZR (shr_m mrs) < IZR (2 ^ 23 + 1))%R by (rewrite plus_IZR; lra).
          assert (IZR (2 ^ 23 - 1) < IZR (shr_m mrs))%R by (rewrite minus_IZR; lra).
          apply lt_IZR in H, H0. lia. }
        rewrite Hhalf, Hn. change (2 ^ 23) with (Z.pos 8388608).
        exists 8388608%positive, (E + 1). split; [| split; [| reflexivity]].
        -- unfold F2R. rewrite HMp, Hke, bpow_add, bpow_1.
           change (2 ^ 24) with (2 * 8388608). rewrite mult_IZR. lra.
        -- unfold canonical. rewrite fexp32. change (Zdigits2 (Z.pos 8388608)) with 24. lia.
Qed.

Lemma round_finish_le (k1 M1 E1 k2 M2 E2 : Z) :
  rounded_at k1 M1 E1 -> rounded_at k2 M2 E2 ->
  (F2R M1 E1 <= F2R M2 E2)%R ->
  SFleb (round_finish false M1 E1) (round_finish false M2 E2) = true.
Proof.
  intros R1 R2 Hle.
  destruct (round_finish_spec false k1 M1 E1 R1) as [[-> ->] | (HM1 & m1 & e1 & V1 & C1 & ->)];
  destruct (round_finish_spec false k2 M2 E2 R2) as [[-> ->] | (HM2 & m2 & e2 & V2 & C2 & ->)].
  - reflexivity.
  - destruct (e2 <=? _); reflexivity.
  - exfalso. pose proof (F2R_pos M1 E1 HM1). unfold F2R in Hle at 2. rewrite Rmult_0_l in Hle. lra.
  - rewrite <- V1, <- V2 in Hle.
    apply (canonical_order (Z.pos m1) e1 (Z.pos m2) e2) in Hle; try lia; try assumption.
    destruct (Z.leb_spec e1 (F32.emax - F32.prec)), (Z.leb_spec e2 (F32.emax - F32.prec)).
    + apply leb_finite_pos. exact Hle.
    + reflexivity.
    + lia.
    + reflexivity.
Qed.

Lemma round_finish_valid (s : bool) (k M E : Z) :
  rounded_at k M E -> valid_binary F32.prec F32.emax (round_finish s M E) = true.
Proof.
  intros R. destruct (round_finish_spec s k M E R) as [[-> ->] | (HM & m & e & V & C & ->)].
  - reflexivity.
  - destruct (Z.leb_spec e (F32.emax - F32.prec)); [| reflexivity].
    cbn [valid_binary]. unfold bounded, canonical_mantissa.
    unfold canonical in C. cbn [Zdigits2] in C. rewrite C, Z.eqb_refl. cbn [andb].
    apply Z.leb_le. assumption.
Qed.

Lemma round_finish_opp (M E : Z) :
  round_finish true M E = SFopp (round_finish false M E).
Proof.
  unfold round_finish. destruct (shr_fexp _ _ _ _ _) as [mrs e].
  destruct (shr_m mrs); [reflexivity | | reflexivity].
  destruct (e <=? _); reflexivity.
Qed.

(** A float that is a zero, a finite number or an infinity with the sign
    bit clear. *)
Lemma round_finish_sign (k M E : Z) :
  rounded_at k M E ->
  SFleb (S754_zero false) (round_finish false M E) = true.
Proof.
  intros R. destruct (round_finish_spec false k M E R) as [[-> ->] | (HM & m & e & V & C & ->)].
  - reflexivity.
  - destruct (e <=? _); reflexivity.
Qed.

(** [binary_round_aux] is monotone: of two numbers given by mantissa,
    exponent and location, the smaller one rounds to the smaller float. *)
Lemma binary_round_aux_mono (mx ex : Z) (lx : location) (u : R)
    (my ey : Z) (ly : location) (v : R) :
  0 <= mx -> inbetween_int mx u lx -> ex <= fexp F32.prec F32.emax (Zdigits2 mx + ex) ->
  0 <= my -> inbetween_int my v ly -> ey <= fexp F32.prec F32.emax (Zdigits2 my + ey) ->
  (u * bpow ex <= v * bpow ey)%R ->
  SFleb (binary_round_aux F32.prec F32.emax false mx ex lx)
        (binary_round_aux F32.prec F32.emax false my ey ly) = true.
Proof.
  intros Hmx Hu Hex Hmy Hv Hey Hle.
  destruct (round_stage mx ex lx u Hmx Hu Hex) as (mrsx & Hsx & Hux & Rx).
  destruct (round_stage my ey ly v Hmy Hv Hey) as (mrsy & Hsy & Hvy & Ry).
  rewrite !binary_round_aux_finish, Hsx, Hsy.
  set (kx := Zdigits2 mx + ex) in *. set (ky := Zdigits2 my + ey) in *.
  set (Ex := fexp F32.prec F32.emax kx) in *. set (Ey := fexp F32.prec F32.emax ky) in *.
  set (Mx := round_nearest_even (shr_m mrsx) _) in *.
  set (My := round_nearest_even (shr_m mrsy) _) in *.
  apply (round_finish_le kx Mx Ex ky My Ey Rx Ry).
  pose proof (inbetween_floor _ _ _ Hu) as Fu. pose proof (inbetween_floor _ _ _ Hv) as Fv.
  (* both numbers against the powers of two around them *)
  assert (Hyk : (v * bpow ey < bpow ky)%R).
  { unfold ky. rewrite bpow_add, (bpow_IZR (Zdigits2 my)) by (apply Zdigits2_nonneg; exact Hmy).
    pose proof (Zdigits2_upper my Hmy) as Hlt. apply IZR_le in Hlt. rewrite plus_IZR in Hlt.
    pose proof (bpow_pos ey). nra. }
  assert (Hxk : 0 < mx -> (bpow (kx - 1) <= u * bpow ex)%R).
  { intros Hpos. pose proof (F2R_bounds mx ex Hpos) as [B _]. fold kx in B. unfold F2R in B.
    pose proof (bpow_pos ex). nra. }
  assert (Hyk' : 0 < my -> (bpow (ky - 1) <= v * bpow ey)%R).
  { intros Hpos. pose proof (F2R_bounds my ey Hpos) as [B _]. fold ky in B. unfold F2R in B.
    pose proof (bpow_pos ey). nra. }
  assert (HEx0 : mx = 0 -> Ex = -149).
  { intros ->. unfold Ex, kx in *. cbn [Zdigits2] in *. rewrite fexp32 in *. lia. }
  assert (HEy0 : my = 0 -> Ey = -149).
  { intros ->. unfold Ey, ky in *. cbn [Zdigits2] in *. rewrite fexp32 in *. lia. }
  assert (HE : Ex <= Ey).
  { destruct (Z.eq_dec mx 0) as [H0 | H0].
    - rewrite (HEx0 H0). unfold Ey. rewrite fexp32. lia.
    - specialize (Hxk ltac:(lia)).
      assert (kx - 1 < ky) by (apply bpow_lt_inv; lra).
      unfold Ex, Ey. rewrite !fexp32. lia. }
  destruct (Z.eq_dec Ex Ey) as [Heq | Hne].
  - rewrite <- Heq in *. apply F2R_le. apply (rne_mono _ _ _ _ _ _ Hux Hvy).
    rewrite (bpow_split ex Ex), (bpow_split ey Ex) in Hle.
    pose proof (bpow_pos Ex). nra.
  - assert (Hmy0 : 0 < my).
    { destruct (Z.eq_dec my 0) as [H0 | H0]; [| lia].
      specialize (HEy0 H0). unfold Ex in *. rewrite fexp32 in *. lia. }
    specialize (Hyk' Hmy0).
    assert (Hkk : kx <= ky - 1).
    { unfold Ex, Ey in *. rewrite !fexp32 in *. lia. }
    assert (HEk : Ey = ky - 24) by (unfold Ex, Ey in *; rewrite !fexp32 in *; lia).
    (* the larger number rounds to at least [2 ^ (ky - 1)] *)
    assert (HMy : (bpow (ky - 1) <= F2R My Ey)%R).
    { assert (Hlow : (IZR (2 ^ 23) <= v * bpow (ey - Ey))%R).
      { rewrite <- bpow_IZR by lia. replace 23 with (ky - 1 - Ey) by lia.
        rewrite (bpow_split ey Ey) in Hyk'. rewrite (bpow_split (ky - 1) Ey) in Hyk'.
        pose proof (bpow_pos Ey). nra. }
      pose proof (rne_ge_int _ _ _ _ Hvy Hlow) as Hge. fold My in Hge.
      unfold F2R. rewrite (bpow_split (ky - 1) Ey). replace (ky - 1 - Ey) with 23 by lia.
      rewrite (bpow_IZR 23) by lia. apply IZR_le in Hge. pose proof (bpow_pos Ey). nra. }
    destruct Rx as (_ & HMx & Bx).
    destruct (Z.eq_dec Mx 0) as [-> | HMx0].
    + unfold F2R at 1. rewrite Rmult_0_l. pose proof (bpow_pos (ky - 1)). lra.
    + specialize (Bx HMx0). pose proof (bpow_le kx (ky - 1) Hkk). lra.
Qed.

(** ** The order of [SFcompare] *)

Ltac rank_cases :=
  repeat match goal with
         | |- context [Z.compare ?a ?b] => destruct (Z.compare_spec a b)
         | |- context [Pos.compare ?a ?b] => destruct (Pos.compare_spec a b)
         end.

Lemma leb_rank (x y : float) :
  F32.leb x y = true
  <-> is_nan x = false /\ is_nan y = false /\ rank_le (rank x) (rank y).
Proof.
  unfold F32.leb, SFleb, rank_le.
  destruct x as [sx | sx | | sx mx ex], y as [sy | sy | | sy my ey];
    try destruct sx; try destruct sy;
    cbn [SFcompare is_nan rank fst snd];
    try change (Pos.compare_cont Eq ?p ?q) with (Pos.compare p q);
    rank_cases; cbn [CompOpp];
    (split; [intros Hcmp; try discriminate Hcmp; repeat split; lia
            | intros (Hn1 & Hn2 & Hr); try discriminate Hn1; try discriminate Hn2;
              first [reflexivity | lia]]).
Qed.

Lemma ltb_rank (x y : float) :
  F32.ltb x y = true
  <-> is_nan x = false /\ is_nan y = false /\ rank_lt (rank x) (rank y).
Proof.
  unfold F32.ltb, SFltb, rank_lt.
  destruct x as [sx | sx | | sx mx ex], y as [sy | sy | | sy my ey];
    try destruct sx; try destruct sy;
    cbn [SFcompare is_nan rank fst snd];
    try change (Pos.compare_cont Eq ?p ?q) with (Pos.compare p q);
    rank_cases; cbn [CompOpp];
    (split; [intros Hcmp; try discriminate Hcmp; repeat split; lia
            | intros (Hn1 & Hn2 & Hr); try discriminate Hn1; try discriminate Hn2;
              first [reflexivity | lia]]).
Qed.

Ltac to_ranks :=
  repeat match goal with
         | H : F32.leb _ _ = true |- _ => apply leb_rank in H; destruct H as (? & ? & H)
         | H : F32.ltb _ _ = true |- _ => apply ltb_rank in H; destruct H as (? & ? & H)
         end;
  try (apply leb_rank; repeat (split; [assumption |]));
  try (apply ltb_rank; repeat (split; [assumption |]));
  unfold rank_le, rank_lt in *;
  repeat match goal with
         | |- context [rank ?x] => destruct (rank x) as [[? ?] ?]
         | H : context [rank ?x] |- _ => destruct (rank x) as [[? ?] ?]
         end;
  cbn [fst snd] in *.

Lemma leb_trans (x y z : float) :
  F32.leb x y = true -> F32.leb y z = true -> F32.leb x z = true.
Proof. intros H1 H2. to_ranks. lia. Qed.

Lemma ltb_leb_trans (x y z : float) :
  F32.ltb x y = true -> F32.leb y z = true -> F32.ltb x z = true.
Proof. intros H1 H2. to_ranks. lia. Qed.

Lemma leb_ltb_trans (x y z : float) :
  F32.leb x y = true -> F32.ltb y z = true -> F32.ltb x z = true.
Proof. intros H1 H2. to_ranks. lia. Qed.

Lemma ltb_not_leb (x y : float) : F32.ltb x y = true -> F32.leb y x = false.
Proof.
  intros H. destruct (F32.leb y x) eqn:Hyx; [| reflexivity].
  exfalso. to_ranks. lia.
Qed.

(** [std::min] and [std::max] against a fixed bound keep the order. *)
Lemma min_mono (a b hi : float) :
  is_nan hi = false -> F32.leb a b = true ->
  F32.leb (F32.min a hi) (F32.min b hi) = true.
Proof.
  intros Hhi Hab. destruct (leb_not_nan a b Hab) as [Ha Hb]. unfold F32.min.
  destruct (F32.ltb hi a) eqn:H1, (F32.ltb hi b) eqn:H2.
  - apply leb_refl. exact Hhi.
  - pose proof (ltb_leb_trans hi a b H1 Hab). congruence.
  - apply not_ltb_leb; assumption.
  - exact Hab.
Qed.

Lemma max_mono (lo a b : float) :
  is_nan lo = false -> F32.leb a b = true ->
  F32.leb (F32.max lo a) (F32.max lo b) = true.
Proof.
  intros Hlo Hab. destruct (leb_not_nan a b Hab) as [Ha Hb]. unfold F32.max.
  destruct (F32.ltb lo a) eqn:H1, (F32.ltb lo b) eqn:H2.
  - exact Hab.
  - pose proof (ltb_leb_trans lo a b H1 Hab). congruence.
  - apply ltb_leb. exact H2.
  - apply leb_refl. exact Hlo.
Qed.

(** ** Signs *)

Lemma SFopp_involutive (x : float) : SFopp (SFopp x) = x.
Proof. destruct x as [[] | [] | | [] m e]; reflexivity. Qed.

Lemma valid_opp (x : float) : valid x -> valid (SFopp x).
Proof. destruct x; intros H; exact H. Qed.

Lemma leb_opp (a b : float) : F32.leb (SFopp a) (SFopp b) = F32.leb b a.
Proof.
  destruct (F32.leb b a) eqn:H.
  - apply leb_rank in H as (Hb & Ha & H). apply leb_rank.
    destruct a as [[] | [] | | [] ma ea], b as [[] | [] | | [] mb eb];
      try discriminate; unfold rank_le in *; cbn [SFopp is_nan rank negb fst snd] in *;
      repeat split; lia.
  - destruct (F32.leb (SFopp a) (SFopp b)) eqn:H'; [| reflexivity].
    apply leb_rank in H' as (Ha & Hb & H'). rewrite <- H. symmetry. apply leb_rank.
    destruct a as [[] | [] | | [] ma ea], b as [[] | [] | | [] mb eb];
      try discriminate; unfold rank_le in *; cbn [SFopp is_nan rank negb fst snd] in *;
      repeat split; lia.
Qed.

(** A float that is at least zero stays above the opposite of any other
    such float. *)
Lemma opp_below (a b : float) :
  F32.leb F32.zero a = true -> F32.leb F32.zero b = true ->
  F32.leb (SFopp a) b = true.
Proof.
  intros Ha Hb. apply leb_rank in Ha as (_ & Ha & Hra). apply leb_rank in Hb as (_ & Hb & Hrb).
  apply leb_rank.
  destruct a as [[] | [] | | [] ma ea], b as [[] | [] | | [] mb eb];
    try discriminate; unfold rank_le in *; cbn [SFopp is_nan rank negb fst snd F32.zero] in *;
    repeat split; lia.
Qed.

(** An odd function on floats that is monotone on the positive binary32
    numbers, keeps zero and infinity and never leaves the non-negative
    floats is monotone on all binary32 numbers. *)
Lemma odd_monotone (f : float -> float) :
  (forall x : float, f (SFopp x) = SFopp (f x)) ->
  f (S754_zero false) = S754_zero false ->
  f (S754_infinity false) = S754_infinity false ->
  (forall (m : positive) (e : Z), valid (S754_finite false m e) ->
     F32.leb F32.zero (f (S754_finite false m e)) = true) ->
  (forall (m1 : positive) (e1 : Z) (m2 : positive) (e2 : Z),
     valid (S754_finite false m1 e1) -> valid (S754_finite false m2 e2) ->
     F32.leb (S754_finite false m1 e1) (S754_finite false m2 e2) = true ->
     F32.leb (f (S754_finite false m1 e1)) (f (S754_finite false m2 e2)) = true) ->
  forall x y : float, valid x -> valid y ->
    F32.leb x y = true -> F32.leb (f x) (f y) = true.
Proof.
  intros Hodd Hzero Hinf Hsign Hmono.
  assert (Hnn : forall x : float, valid x -> F32.leb F32.zero x = true ->
                  F32.leb F32.zero (f x) = true).
  { intros x Vx Hx. destruct x as [[] | [] | | [] m e]; try discriminate Hx.
    - change (S754_zero true) with (SFopp (S754_zero false)). rewrite Hodd, Hzero. reflexivity.
    - rewrite Hzero. reflexivity.
    - rewrite Hinf. reflexivity.
    - apply Hsign. exact Vx. }
  assert (Hpos : forall x y : float, valid x -> valid y ->
                   F32.leb F32.zero x = true -> F32.leb x y = true ->
                   F32.leb (f x) (f y) = true).
  { intros x y Vx Vy Hx Hxy.
    assert (Hy : F32.leb F32.zero y = true) by (apply (leb_trans _ x); assumption).
    pose proof (Hnn x Vx Hx) as Hfx. pose proof (Hnn y Vy Hy) as Hfy.
    destruct x as [[] | [] | | [] mx ex]; try discriminate Hx.
    - change (S754_zero true) with (SFopp (S754_zero false)). rewrite Hodd, Hzero.
      apply (opp_below F32.zero); [reflexivity | exact Hfy].
    - rewrite Hzero. exact Hfy.
    - destruct y as [[] | [] | | [] my ey]; try discriminate Hxy.
      apply leb_refl. rewrite Hinf. reflexivity.
    - destruct y as [[] | [] | | [] my ey]; try discriminate Hxy.
      + rewrite Hinf. destruct (leb_not_nan _ _ Hfx) as [_ Hn].
        destruct (f (S754_finite false mx ex)) as [[] | [] | |[] ? ?];
          first [discriminate Hn | discriminate Hfx | reflexivity].
      + apply Hmono; assumption. }
  intros x y Vx Vy Hxy.
  destruct (F32.leb F32.zero x) eqn:Hx; [apply Hpos; assumption |].
  destruct (leb_not_nan _ _ Hxy) as [Nx Ny].
  assert (Hx' : F32.leb F32.zero (SFopp x) = true).
  { destruct x as [[] | [] | | [] mx ex]; first [discriminate | reflexivity]. }
  destruct (F32.leb F32.zero y) eqn:Hy.
  - replace (f x) with (SFopp (f (SFopp x))) by (rewrite Hodd; apply SFopp_involutive).
    apply opp_below; [apply Hnn; [apply valid_opp; exact Vx | exact Hx'] | apply Hnn; assumption].
  - assert (Hy' : F32.leb F32.zero (SFopp y) = true).
    { destruct y as [[] | [] | | [] my ey]; first [discriminate | reflexivity]. }
    replace (f x) with (SFopp (f (SFopp x))) by (rewrite Hodd; apply SFopp_involutive).
    replace (f y) with (SFopp (f (SFopp y))) by (rewrite Hodd; apply SFopp_involutive).
    rewrite leb_opp.
    apply Hpos; [apply valid_opp; exact Vy | apply valid_opp; exact Vx | exact Hy' |].
    rewrite leb_opp. exact Hxy.
Qed.

(** ** Binary32 numbers *)

Lemma valid_finite (s : bool) (m : positive) (e : Z) :
  valid (S754_finite s m e) <-> canonical (Z.pos m) e /\ e <= 104.
Proof.
  unfold valid, valid_binary, bounded, canonical_mantissa, canonical. cbn [Zdigits2].
  rewrite andb_true_iff, Z.eqb_eq, Z.leb_le. change (F32.emax - F32.prec) with 104. tauto.
Qed.

(** On binary32 numbers [SFcompare] is the order of the values. *)
Lemma leb_value (m1 : positive) (e1 : Z) (m2 : positive) (e2 : Z) :
  valid (S754_finite false m1 e1) -> valid (S754_finite false m2 e2) ->
  F32.leb (S754_finite false m1 e1) (S754_finite false m2 e2) = true ->
  (F2R (Z.pos m1) e1 <= F2R (Z.pos m2) e2)%R.
Proof.
  intros V1 V2 H. apply valid_finite in V1 as [C1 _]. apply valid_finite in V2 as [C2 _].
  apply leb_finite_pos in H. apply canonical_order; try assumption; lia.
Qed.

(** ** What [binary_round_aux] returns *)

Section RoundAux.

Variables (mx ex : Z) (lx : location) (u : R).
Hypothesis mantissa : 0 <= mx.
Hypothesis located : inbetween_int mx u lx.
Hypothesis exponent : ex <= fexp F32.prec F32.emax (Zdigits2 mx + ex).

Lemma binary_round_aux_valid (s : bool) :
  valid (binary_round_aux F32.prec F32.emax s mx ex lx).
Proof.
  destruct (round_stage mx ex lx u mantissa located exponent) as (mrs & Hs & _ & R).
  rewrite binary_round_aux_finish, Hs. apply (round_finish_valid s _ _ _ R).
Qed.

Lemma binary_round_aux_sign :
  F32.leb F32.zero (binary_round_aux F32.prec F32.emax false mx ex lx) = true.
Proof.
  destruct (round_stage mx ex lx u mantissa located exponent) as (mrs & Hs & _ & R).
  rewrite binary_round_aux_finish, Hs. apply (round_finish_sign _ _ _ R).
Qed.

(** A number of moderate magnitude rounds to a finite float. *)
Lemma binary_round_aux_finite (s : bool) :
  0 < mx -> -148 <= Zdigits2 mx + ex <= 127 ->
  exists (m : positive) (e : Z),
    binary_round_aux F32.prec F32.emax s mx ex lx = S754_finite s m e.
Proof.
  intros Hpos Hk.
  destruct (round_stage mx ex lx u mantissa located exponent) as (mrs & Hs & Hu1 & R).
  rewrite binary_round_aux_finish, Hs.
  set (k := Zdigits2 mx + ex) in *. set (E := fexp F32.prec F32.emax k) in *.
  set (M := round_nearest_even _ _) in *.
  assert (HE : E <= k - 1) by (unfold E; rewrite fexp32; lia).
  assert (HM : 1 <= M).
  { assert (Hlow : (IZR (2 ^ (k - 1 - E)) <= u * bpow (ex - E))%R).
    { rewrite <- bpow_IZR by lia.
      pose proof (F2R_bounds mx ex Hpos) as [B _]. fold k in B. unfold F2R in B.
      pose proof (inbetween_floor _ _ _ located) as Fu.
      rewrite (bpow_split (k - 1) E), (bpow_split ex E), <- Rmult_assoc in B.
      apply Rmult_le_reg_r in B; [| apply bpow_pos].
      pose proof (bpow_pos (ex - E)).
      apply Rle_trans with (1 := B). apply Rmult_le_compat_r; lra. }
    pose proof (rne_ge_int _ _ _ _ Hu1 Hlow) as Hge. fold M in Hge.
    pose proof (Z.pow_pos_nonneg 2 (k - 1 - E)). lia. }
  destruct (round_finish_spec s k M E R) as [[H0 _] | (_ & m & e & V & C & ->)]; [lia |].
  exists m, e. destruct (Z.leb_spec e (F32.emax - F32.prec)) as [_ | He]; [reflexivity |].
  exfalso. destruct R as (_ & _ & B). specialize (B ltac:(lia)).
  pose proof (F2R_bounds (Z.pos m) e ltac:(lia)) as [B' _]. rewrite V in B'.
  assert (Zdigits2 (Z.pos m) + e - 1 <= k) by (apply bpow_le_inv; lra).
  unfold canonical in C. rewrite fexp32 in C. change (F32.emax - F32.prec) with 104 in He. lia.
Qed.

End RoundAux.

Lemma binary_round_aux_opp (mx ex : Z) (lx : location) :
  binary_round_aux F32.prec F32.emax true mx ex lx
  = SFopp (binary_round_aux F32.prec F32.emax false mx ex lx).
Proof.
  rewrite !binary_round_aux_finish. destruct (shr_fexp _ _ _ _ _) as [mrs e].
  apply round_finish_opp.
Qed.

(** ** Multiplication *)

Lemma Zdigits2_pow2 (n : Z) : 0 <= n -> Zdigits2 (2 ^ n) = n + 1.
Proof.
  intros Hn. apply Zdigits2_unique; [| lia].
  replace (n + 1 - 1) with n by lia. rewrite Z.pow_add_r by lia. lia.
Qed.

Lemma Zdigits2_mul (a b : Z) :
  0 < a -> 0 < b -> Zdigits2 a + Zdigits2 b - 1 <= Zdigits2 (a * b).
Proof.
  intros Ha Hb. pose proof (Zdigits2_bounds a Ha) as [La _].
  pose proof (Zdigits2_bounds b Hb) as [Lb _].
  pose proof (Zdigits2_pos a Ha). pose proof (Zdigits2_pos b Hb).
  assert (Hp : 2 ^ (Zdigits2 a + Zdigits2 b - 2) <= a * b).
  { replace (Zdigits2 a + Zdigits2 b - 2) with ((Zdigits2 a - 1) + (Zdigits2 b - 1)) by lia.
    rewrite Z.pow_add_r by lia. apply Z.mul_le_mono_nonneg; lia. }
  pose proof (Zdigits2_le (2 ^ (Zdigits2 a + Zdigits2 b - 2)) (a * b)) as Hle.
  rewrite Zdigits2_pow2 in Hle by lia.
  pose proof (Z.pow_pos_nonneg 2 (Zdigits2 a + Zdigits2 b - 2)). lia.
Qed.

(** The product of two binary32 mantissas needs no shift to the left. *)
Lemma mul_exponent (mc : positive) (ec : Z) (mx : positive) (ex : Z) :
  canonical (Z.pos mc) ec -> canonical (Z.pos mx) ex ->
  ec + ex <= fexp F32.prec F32.emax (Zdigits2 (Z.pos (mc * mx)) + (ec + ex)).
Proof.
  unfold canonical. rewrite !fexp32. intros Cc Cx.
  pose proof (Zdigits2_mul (Z.pos mc) (Z.pos mx) ltac:(lia) ltac:(lia)) as Hd.
  pose proof (Zdigits2_pos (Z.pos mc) ltac:(lia)).
  pose proof (Zdigits2_pos (Z.pos mx) ltac:(lia)).
  change (Z.pos mc * Z.pos mx) with (Z.pos (mc * mx)) in Hd. lia.
Qed.

Lemma mul_finite (sc : bool) (mc : positive) (ec : Z) (sx : bool) (mx : positive) (ex : Z) :
  F32.mul (S754_finite sc mc ec) (S754_finite sx mx ex)
  = binary_round_aux F32.prec F32.emax (xorb sc sx) (Z.pos (mc * mx)) (ec + ex) loc_Exact.
Proof. reflexivity. Qed.

Lemma mul_valid (x y : float) : valid x -> valid y -> valid (F32.mul x y).
Proof.
  intros Vx Vy. destruct x as [sx | sx | | sx mx ex], y as [sy | sy | | sy my ey];
    try reflexivity.
  rewrite mul_finite. apply valid_finite in Vx as [Cx _]. apply valid_finite in Vy as [Cy _].
  apply (binary_round_aux_valid _ _ _ (IZR (Z.pos (mx * my))));
    [lia | reflexivity | apply mul_exponent; assumption].
Qed.

Lemma mul_comm (x y : float) : F32.mul x y = F32.mul y x.
Proof.
  destruct x as [sx | sx | | sx mx ex], y as [sy | sy | | sy my ey];
    try destruct sx; try destruct sy; try reflexivity;
    rewrite !mul_finite, (Pos.mul_comm mx my), (Z.add_comm ex ey); reflexivity.
Qed.

Lemma mul_opp (c x : float) : F32.mul c (SFopp x) = SFopp (F32.mul c x).
Proof.
  destruct c as [sc | sc | | sc mc ec], x as [sx | sx | | sx mx ex];
    try destruct sc; try destruct sx; try reflexivity;
    cbn [SFopp negb]; rewrite !mul_finite; cbn [xorb negb];
    rewrite binary_round_aux_opp, ?SFopp_involutive; reflexivity.
Qed.

(** Multiplying by a positive binary32 constant keeps the order. *)
Lemma mul_mono (mc : positive) (ec : Z) (x y : float) :
  valid (S754_finite false mc ec) -> valid x -> valid y ->
  F32.leb x y = true ->
  F32.leb (F32.mul (S754_finite false mc ec) x) (F32.mul (S754_finite false mc ec) y) = true.
Proof.
  intros Vc. revert x y. apply odd_monotone.
  - apply mul_opp.
  - reflexivity.
  - reflexivity.
  - intros m e V. rewrite mul_finite. cbn [xorb].
    apply valid_finite in Vc as [Cc _]. apply valid_finite in V as [C _].
    apply (binary_round_aux_sign _ _ _ (IZR (Z.pos (mc * m))));
      [lia | reflexivity | apply mul_exponent; assumption].
  - intros m1 e1 m2 e2 V1 V2 Hle. rewrite !mul_finite. cbn [xorb].
    pose proof (leb_value _ _ _ _ V1 V2 Hle) as Hv.
    apply valid_finite in Vc as [Cc _].
    apply valid_finite in V1 as [C1 _]. apply valid_finite in V2 as [C2 _].
    apply (binary_round_aux_mono _ _ _ (IZR (Z.pos (mc * m1))) _ _ _ (IZR (Z.pos (mc * m2))));
      try lia; try reflexivity; try (apply mul_exponent; assumption).
    rewrite !Pos2Z.inj_mul, !mult_IZR, !bpow_add. unfold F2R in Hv.
    pose proof (F2R_pos (Z.pos mc) ec ltac:(lia)) as Hc. unfold F2R in Hc.
    replace (IZR (Z.pos mc) * IZR (Z.pos m1) * (bpow ec * bpow e1))%R
      with (IZR (Z.pos mc) * bpow ec * (IZR (Z.pos m1) * bpow e1))%R by ring.
    replace (IZR (Z.pos mc) * IZR (Z.pos m2) * (bpow ec * bpow e2))%R
      with (IZR (Z.pos mc) * bpow ec * (IZR (Z.pos m2) * bpow e2))%R by ring.
    apply Rmult_le_compat_l; lra.
Qed.

(** ** Division *)

(** Where [q + r / c] lies between [q] and [q + 1], as [new_location]
    works it out from the remainder. *)
Lemma new_location_spec (c q r : Z) :
  0 < c -> 0 <= r < c ->
  inbetween_int q (IZR q + IZR r / IZR c) (new_location c r).
Proof.
  intros Hc Hr. assert (HC : (0 < IZR c)%R) by (apply IZR_lt; exact Hc).
  set (rho := (IZR r / IZR c)%R).
  assert (Hrho : (rho * IZR c = IZR r)%R) by (unfold rho; field; lra).
  assert (Hdouble : (IZR (2 * r) = 2 * IZR r)%R) by (rewrite mult_IZR; reflexivity).
  assert (Hlt1 : (rho < 1)%R).
  { assert (IZR r < IZR c)%R by (apply IZR_lt; lia). nra. }
  assert (Hpos : r <> 0 -> (0 < rho)%R).
  { intros Hr0. assert (IZR 0 < IZR r)%R by (apply IZR_lt; lia). nra. }
  assert (Hlow : 2 * r < c -> (rho < / 2)%R).
  { intros H. apply IZR_lt in H. rewrite Hdouble in H. nra. }
  assert (Hhigh : c < 2 * r -> (/ 2 < rho)%R).
  { intros H. apply IZR_lt in H. rewrite Hdouble in H. nra. }
  assert (Hmid : 2 * r = c -> (rho = / 2)%R).
  { intros H. apply (f_equal IZR) in H. rewrite Hdouble in H. nra. }
  unfold new_location. destruct (Z.even c) eqn:Hev.
  - unfold new_location_even. destruct (Z.eqb_spec r 0) as [H0 | H0].
    + cbn [inbetween_int]. unfold rho. rewrite H0. unfold Rdiv. rewrite Rmult_0_l. lra.
    + specialize (Hpos H0).
      destruct (Z.compare_spec (2 * r) c) as [H | H | H]; cbn [inbetween_int].
      * rewrite (Hmid H). reflexivity.
      * specialize (Hlow H). lra.
      * specialize (Hhigh H). lra.
  - unfold new_location_odd. destruct (Z.eqb_spec r 0) as [H0 | H0].
    + cbn [inbetween_int]. unfold rho. rewrite H0. unfold Rdiv. rewrite Rmult_0_l. lra.
    + specialize (Hpos H0).
      assert (Hodd : 2 * r <> c).
      { intros <-. rewrite Z.even_mul in Hev. discriminate Hev. }
      destruct (Z.compare_spec (2 * r + 1) c) as [H | H | H]; cbn [inbetween_int].
      * specialize (Hlow ltac:(lia)). lra.
      * specialize (Hlow ltac:(lia)). lra.
      * specialize (Hhigh ltac:(lia)). lra.
Qed.

(** [SFdiv_core_binary] hands [binary_round_aux] the quotient: its integer
    part, an exponent that needs no shift to the left, and the place of the
    rest. *)
Lemma div_core_spec (mx : positive) (ex : Z) (mc : positive) (ec : Z) :
  exists (q e' : Z) (l : location),
    SFdiv_core_binary F32.prec F32.emax (Z.pos mx) ex (Z.pos mc) ec = (q, e', l) /\
    0 <= q /\
    inbetween_int q (F2R (Z.pos mx) ex / F2R (Z.pos mc) ec * bpow (- e')) l /\
    e' <= fexp F32.prec F32.emax (Zdigits2 q + e').
Proof.
  unfold SFdiv_core_binary.
  set (d1 := Zdigits2 (Z.pos mx)). set (d2 := Zdigits2 (Z.pos mc)).
  set (e' := Z.min (fexp F32.prec F32.emax (d1 + ex - (d2 + ec))) (ex - ec)).
  set (s := ex - ec - e').
  assert (Hs : 0 <= s) by (unfold s, e'; lia).
  set (m' := match s with Z.pos _ => Z.shiftl (Z.pos mx) s | 0 => Z.pos mx | Z.neg _ => 0 end).
  assert (Hm' : m' = Z.pos mx * 2 ^ s).
  { unfold m'. destruct s as [| p | p]; [lia | | lia]. apply Z.shiftl_mul_pow2. lia. }
  pose proof (Z_div_mod m' (Z.pos mc) ltac:(lia)) as Hdiv.
  destruct (Z.div_eucl m' (Z.pos mc)) as [q r]. destruct Hdiv as [Hqr Hr].
  pose proof (Z.pow_pos_nonneg 2 s ltac:(lia) Hs) as Hpow.
  assert (Hq : 0 <= q) by nia.
  exists q, e', (new_location (Z.pos mc) r).
  split; [reflexivity |]. split; [exact Hq |]. split.
  - replace (F2R (Z.pos mx) ex / F2R (Z.pos mc) ec * bpow (- e'))%R
      with (IZR q + IZR r / IZR (Z.pos mc))%R.
    + apply new_location_spec; lia.
    + assert (HC : (0 < IZR (Z.pos mc))%R) by (apply IZR_lt; lia).
      pose proof (bpow_pos ec) as Hec.
      unfold F2R. replace ex with (s + ec + e') by (unfold s; lia).
      rewrite !bpow_add, bpow_opp, (bpow_IZR s Hs).
      pose proof (bpow_pos e') as He'.
      apply (f_equal IZR) in Hqr. rewrite Hm', plus_IZR, !mult_IZR in Hqr.
      field_simplify; [| lra | lra]. rewrite Hqr. field. lra.
  - pose proof (Zdigits2_bounds (Z.pos mx) ltac:(lia)) as [L1 _]. fold d1 in L1.
    pose proof (Zdigits2_bounds (Z.pos mc) ltac:(lia)) as [_ U2]. fold d2 in U2.
    pose proof (Zdigits2_pos (Z.pos mx) ltac:(lia)) as P1. fold d1 in P1.
    pose proof (Zdigits2_pos (Z.pos mc) ltac:(lia)) as P2. fold d2 in P2.
    assert (Hd : d1 - d2 + s <= Zdigits2 q).
    { destruct (Z_le_gt_dec (d1 - d2 + s) 0) as [Hn | Hn].
      - pose proof (Zdigits2_nonneg q Hq). lia.
      - set (n := d1 - d2 + s - 1). assert (Hn0 : 0 <= n) by (unfold n; lia).
        assert (Hge : 2 ^ n <= q).
        { assert (Hm : 2 ^ n * 2 ^ d2 <= m').
          { rewrite Hm', <- Z.pow_add_r by lia.
            replace (n + d2) with ((d1 - 1) + s) by (unfold n; lia).
            rewrite Z.pow_add_r by lia. apply Z.mul_le_mono_nonneg_r; lia. }
          pose proof (Z.pow_pos_nonneg 2 n ltac:(lia) Hn0) as Hp.
          destruct (Z_le_gt_dec (2 ^ n) q) as [? | Hgt]; [assumption | exfalso].
          assert (H1 : Z.pos mc * (q + 1) <= Z.pos mc * 2 ^ n)
            by (apply Z.mul_le_mono_nonneg_l; lia).
          assert (H2 : Z.pos mc * 2 ^ n < 2 ^ d2 * 2 ^ n)
            by (apply Z.mul_lt_mono_pos_r; lia).
          lia. }
        pose proof (Zdigits2_le (2 ^ n) q) as Hle. rewrite Zdigits2_pow2 in Hle by exact Hn0.
        pose proof (Z.pow_pos_nonneg 2 n ltac:(lia) Hn0).
        specialize (Hle ltac:(lia)). unfold n in Hle.
        replace (d1 - d2 + s) with (d1 - d2 + s - 1 + 1) by ring. exact Hle. }
    clear Hm' Hqr L1 U2 Hpow. clearbody d1 d2. subst m' s e'.
    rewrite !fexp32 in *. lia.
Qed.

Lemma div_finite (sx : bool) (mx : positive) (ex : Z) (sc : bool) (mc : positive) (ec : Z) :
  F32.div (S754_finite sx mx ex) (S754_finite sc mc ec)
  = let '(mz, ez, lz) := SFdiv_core_binary F32.prec F32.emax (Z.pos mx) ex (Z.pos mc) ec in
    binary_round_aux F32.prec F32.emax (xorb sx sc) mz ez lz.
Proof. reflexivity. Qed.

Lemma div_valid (x y : float) : valid (F32.div x y).
Proof.
  destruct x as [sx | sx | | sx mx ex], y as [sy | sy | | sy my ey]; try reflexivity.
  rewrite div_finite.
  destruct (div_core_spec mx ex my ey) as (q & e' & l & -> & Hq & Hu & He).
  apply (binary_round_aux_valid _ _ _ _ Hq Hu He).
Qed.

Lemma div_opp (x c : float) : F32.div (SFopp x) c = SFopp (F32.div x c).
Proof.
  destruct c as [sc | sc | | sc mc ec], x as [sx | sx | | sx mx ex];
    try destruct sc; try destruct sx; try reflexivity;
    cbn [SFopp negb]; rewrite !div_finite;
    destruct (SFdiv_core_binary _ _ _ _ _ _) as [[mz ez] lz]; cbn [xorb negb];
    rewrite binary_round_aux_opp, ?SFopp_involutive; reflexivity.
Qed.

(** Dividing by a positive finite constant keeps the order. *)
Lemma div_mono (mc : positive) (ec : Z) (x y : float) :
  valid x -> valid y -> F32.leb x y = true ->
  F32.leb (F32.div x (S754_finite false mc ec)) (F32.div y (S754_finite false mc ec)) = true.
Proof.
  revert x y. apply (odd_monotone (fun x => F32.div x (S754_finite false mc ec))).
  - intros x. apply div_opp.
  - reflexivity.
  - reflexivity.
  - intros m e V. rewrite div_finite.
    destruct (div_core_spec m e mc ec) as (q & e' & l & -> & Hq & Hu & He).
    cbn [xorb]. apply (binary_round_aux_sign _ _ _ _ Hq Hu He).
  - intros m1 e1 m2 e2 V1 V2 Hle. rewrite !div_finite.
    pose proof (leb_value _ _ _ _ V1 V2 Hle) as Hv.
    destruct (div_core_spec m1 e1 mc ec) as (q1 & e1' & l1 & -> & Hq1 & Hu1 & He1).
    destruct (div_core_spec m2 e2 mc ec) as (q2 & e2' & l2 & -> & Hq2 & Hu2 & He2).
    cbn [xorb].
    apply (binary_round_aux_mono _ _ _ _ _ _ _ _ Hq1 Hu1 He1 Hq2 Hu2 He2).
    rewrite !Rmult_assoc, <- !bpow_add, !Z.add_opp_diag_l, bpow_0, !Rmult_1_r.
    pose proof (F2R_pos (Z.pos mc) ec ltac:(lia)) as Hc.
    unfold Rdiv. apply Rmult_le_compat_r; [| exact Hv].
    apply Rlt_le, Rinv_0_lt_compat, Hc.
Qed.

(** ** Conversion from integers *)

Lemma iter_xO (d m : positive) : Z.pos (Pos.iter xO m d) = Z.pos m * 2 ^ Z.pos d.
Proof.
  revert m. induction d as [| d IH] using Pos.peano_ind; intros m.
  - cbn [Pos.iter]. change (Z.pos m~0) with (2 * Z.pos m). lia.
  - rewrite Pos.iter_succ, Pos2Z.inj_succ, Z.pow_succ_r by lia.
    change (Z.pos (Pos.iter xO m d)~0) with (2 * Z.pos (Pos.iter xO m d)).
    rewrite IH. ring.
Qed.

(** [shl_align] lowers the exponent to [ex'] where it was above, and keeps
    the value. *)
Lemma shl_align_spec (mx : positive) (ex ex' : Z) :
  exists (mz : positive) (ez : Z),
    shl_align mx ex ex' = (mz, ez) /\
    F2R (Z.pos mz) ez = F2R (Z.pos mx) ex /\
    ez <= ex' /\
    Zdigits2 (Z.pos mz) + ez = Zdigits2 (Z.pos mx) + ex.
Proof.
  unfold shl_align. destruct (ex' - ex) as [| d | d] eqn:Hd.
  - exists mx, ex. repeat split; lia.
  - exists mx, ex. repeat split; lia.
  - exists (Pos.iter xO mx d), ex'. split; [reflexivity |].
    assert (Hex : ex = ex' + Z.pos d) by lia.
    split; [| split; [lia |]].
    + unfold F2R. rewrite iter_xO, mult_IZR, Hex, bpow_add, <- (bpow_IZR (Z.pos d)) by lia. ring.
    + rewrite iter_xO, !Zdigits2_log2 by lia.
      rewrite Z.log2_mul_pow2 by lia. lia.
Qed.

Lemma of_Z_pos (m : positive) :
  exists (mz : positive) (ez : Z),
    F32.of_Z (Z.pos m) = binary_round_aux F32.prec F32.emax false (Z.pos mz) ez loc_Exact /\
    F2R (Z.pos mz) ez = IZR (Z.pos m) /\
    ez <= fexp F32.prec F32.emax (Zdigits2 (Z.pos mz) + ez) /\
    Zdigits2 (Z.pos mz) + ez = Zdigits2 (Z.pos m).
Proof.
  unfold F32.of_Z, binary_normalize, binary_round.
  destruct (shl_align_spec m 0 (fexp F32.prec F32.emax (Z.pos (digits2_pos m) + 0)))
    as (mz & ez & -> & Hv & He & Hd).
  exists mz, ez. split; [reflexivity |]. split; [| split].
  - rewrite Hv. unfold F2R. rewrite bpow_0. ring.
  - rewrite Hd. exact He.
  - rewrite Hd. lia.
Qed.

Lemma of_Z_neg (m : positive) : F32.of_Z (Z.neg m) = SFopp (F32.of_Z (Z.pos m)).
Proof.
  unfold F32.of_Z, binary_normalize, binary_round.
  destruct (shl_align _ _ _) as [mz ez]. apply binary_round_aux_opp.
Qed.

Lemma of_Z_valid (z : Z) : valid (F32.of_Z z).
Proof.
  assert (Hpos : forall m : positive, valid (F32.of_Z (Z.pos m))).
  { intros m. destruct (of_Z_pos m) as (mz & ez & -> & _ & He & _).
    apply (binary_round_aux_valid _ _ _ (IZR (Z.pos mz))); [lia | reflexivity | exact He]. }
  destruct z as [| m | m]; [reflexivity | apply Hpos |].
  rewrite of_Z_neg. apply valid_opp, Hpos.
Qed.

Lemma of_Z_sign (z : Z) : 0 <= z -> F32.leb F32.zero (F32.of_Z z) = true.
Proof.
  intros Hz. destruct z as [| m | m]; [reflexivity | | lia].
  destruct (of_Z_pos m) as (mz & ez & -> & _ & He & _).
  apply (binary_round_aux_sign _ _ _ (IZR (Z.pos mz))); [lia | reflexivity | exact He].
Qed.

(** [(float)z] grows with [z]. *)
Lemma of_Z_mono (a b : Z) : 0 <= a <= b -> F32.leb (F32.of_Z a) (F32.of_Z b) = true.
Proof.
  intros Hab. destruct a as [| ma | ma]; [apply of_Z_sign; lia | | lia].
  destruct b as [| mb | mb]; try lia.
  destruct (of_Z_pos ma) as (mza & eza & -> & Hva & Hea & _).
  destruct (of_Z_pos mb) as (mzb & ezb & -> & Hvb & Heb & _).
  apply (binary_round_aux_mono _ _ _ (IZR (Z.pos mza)) _ _ _ (IZR (Z.pos mzb)));
    try lia; try reflexivity; try assumption.
  unfold F2R in Hva, Hvb. rewrite Hva, Hvb. apply IZR_le. lia.
Qed.

(** A positive integer below [2 ^ 127] converts to a positive finite
    float. *)
Lemma of_Z_finite (z : Z) :
  0 < z < 2 ^ 127 ->
  exists (m : positive) (e : Z), F32.of_Z z = S754_finite false m e.
Proof.
  intros Hz. destruct z as [| mz | mz]; try lia.
  destruct (of_Z_pos mz) as (m & e & -> & _ & He & Hd).
  apply (binary_round_aux_finite _ _ _ (IZR (Z.pos m))); try lia; try reflexivity; try exact He.
  rewrite Hd. pose proof (Zdigits2_pos (Z.pos mz) ltac:(lia)).
  assert (Zdigits2 (Z.pos mz) <= 127); [| lia].
  pose proof (Zdigits2_bounds (Z.pos mz) ltac:(lia)) as [L _].
  destruct (Z_le_gt_dec (Zdigits2 (Z.pos mz)) 127) as [? | Hgt]; [assumption | exfalso].
  pose proof (Z.pow_le_mono_r 2 127 (Zdigits2 (Z.pos mz) - 1) ltac:(lia) ltac:(lia)). lia.
Qed.

Lemma of_Z_negative (z : Z) : z < 0 -> F32.ltb (F32.of_Z z) F32.one = true.
Proof.
  intros Hz. destruct z as [| m | m]; try lia. rewrite of_Z_neg.
  apply (leb_ltb_trans _ F32.zero); [| reflexivity].
  apply opp_below; [apply of_Z_sign; lia | reflexivity].
Qed.

(** ** The frequency mapping *)

Lemma bar_bin_clamp (powf : float -> float -> float) (NUM_BARS FFT_SIZE sampleRate i : Z) :
  Rounded.bar_bin powf NUM_BARS FFT_SIZE sampleRate i
  = F32.max F32.one
      (F32.min (bar_bin_raw powf NUM_BARS FFT_SIZE sampleRate i)
               (F32.of_Z (Int.to_int (getNumFrequencies FFT_SIZE - 2)))).
Proof. reflexivity. Qed.

Lemma of_Z_not_nan (z : Z) : is_nan (F32.of_Z z) = false.
Proof.
  destruct (Z_le_gt_dec 0 z) as [Hz | Hz].
  - apply (leb_not_nan _ _ (of_Z_sign z Hz)).
  - apply (ltb_not_nan _ _ (of_Z_negative z ltac:(lia))).
Qed.

(** Below a bound that is under 1 the clamp always gives 1. *)
Lemma clamp_low (x hi : float) :
  F32.ltb hi F32.one = true -> F32.max F32.one (F32.min x hi) = F32.one.
Proof.
  intros Hhi. unfold F32.max, F32.min. destruct (F32.ltb hi x) eqn:Hx.
  - destruct (F32.ltb F32.one hi) eqn:H1; [| reflexivity].
    pose proof (ltb_not_leb _ _ Hhi) as Hn. rewrite (ltb_leb _ _ H1) in Hn. discriminate Hn.
  - destruct (F32.ltb F32.one x) eqn:H1; [| reflexivity].
    pose proof (ltb_leb_trans hi F32.one x Hhi (ltb_leb _ _ H1)). congruence.
Qed.

Lemma rank_finite (x : float) (m : positive) (e : Z) :
  is_nan x = false -> rank x = (1, e, Z.pos m) -> x = S754_finite false m e.
Proof.
  destruct x as [s | [] | | [] mx ex]; cbn [rank is_nan]; intros Hn H;
    try discriminate; injection H as H1 H2; subst; reflexivity.
Qed.

(** Between the bounds the clamp returns its argument. *)
Lemma clamp_inside (x hi : float) :
  F32.leb F32.one x = true -> F32.leb x hi = true ->
  F32.max F32.one (F32.min x hi) = x.
Proof.
  intros H1 Hhi. unfold F32.max, F32.min.
  destruct (F32.ltb hi x) eqn:Hx.
  { pose proof (ltb_not_leb _ _ Hx). congruence. }
  destruct (F32.ltb F32.one x) eqn:Hlt; [reflexivity |].
  destruct (leb_not_nan _ _ H1) as [_ Hn].
  change F32.one with (S754_finite false 8388608 (-23)) at 1.
  symmetry. apply rank_finite; [exact Hn |].
  apply leb_rank in H1 as (_ & _ & Hle).
  assert (Hnlt : ~ rank_lt (rank F32.one) (rank x)).
  { intros Hr. assert (F32.ltb F32.one x = true) by (apply ltb_rank; auto). congruence. }
  change (rank F32.one) with (1, -23, 8388608) in *.
  unfold rank_le, rank_lt in *. destruct (rank x) as [[c e] m]. cbn [fst snd] in *.
  repeat f_equal; lia.
Qed.

(** Two different floats that are at least 1 and ordered are strictly
    ordered. *)
Lemma leb_neq_ltb (x y : float) :
  F32.leb F32.one x = true -> F32.leb x y = true -> x <> y -> F32.ltb x y = true.
Proof.
  intros H1 Hxy Hne. apply ltb_rank. destruct (leb_not_nan _ _ Hxy) as [Nx Ny].
  split; [exact Nx |]. split; [exact Ny |].
  apply leb_rank in H1 as (_ & _ & H1). apply leb_rank in Hxy as (_ & _ & Hxy).
  change (rank F32.one) with (1, -23, 8388608) in H1.
  destruct x as [sx | [] | | [] mx ex], y as [sy | [] | | [] my ey];
    unfold rank_le, rank_lt in *; cbn [rank fst snd] in *; try lia; try congruence.
  destruct (Z.eq_dec ex ey) as [-> | ?]; [| lia].
  destruct (Pos.eq_dec mx my) as [-> | ?]; [congruence | lia].
Qed.

Section MappingOrder.

Variable powf : float -> float -> float.
Variables NUM_BARS FFT_SIZE sampleRate : Z.
Hypothesis bars : 2 <= NUM_BARS < 2 ^ 31.
Hypothesis rate : 0 < sampleRate < 2 ^ 32.

Let ratio : float := mapping_ratio sampleRate.

Hypothesis pow_valid : forall t : float, valid t -> valid (powf ratio t).
Hypothesis pow_mono :
  forall t t' : float, valid t -> valid t' ->
    F32.leb t t' = true -> F32.leb (powf ratio t) (powf ratio t') = true.

Lemma bar_t_valid (i : Z) : valid (Rounded.bar_t NUM_BARS i).
Proof.
  unfold Rounded.bar_t. destruct (NUM_BARS =? 1); [reflexivity | apply div_valid].
Qed.

(** [t] grows with the bar index. *)
Lemma bar_t_mono (i j : Z) :
  0 <= i <= j -> F32.leb (Rounded.bar_t NUM_BARS i) (Rounded.bar_t NUM_BARS j) = true.
Proof.
  intros Hij. unfold Rounded.bar_t. destruct (Z.eqb_spec NUM_BARS 1) as [? | _]; [lia |].
  rewrite to_int_id by (unfold Int.in_int; lia).
  destruct (of_Z_finite (NUM_BARS - 1)) as (m & e & ->).
  { pose proof (Z.pow_lt_mono_r 2 31 127). lia. }
  apply div_mono; [apply of_Z_valid | apply of_Z_valid | apply of_Z_mono; exact Hij].
Qed.

(** The ratio of the band edges exceeds 1 whatever the sample rate. *)
Lemma mapping_ratio_above_1 : F32.ltb F32.one ratio = true.
Proof.
  unfold ratio, mapping_ratio.
  set (maxFreq := F32.mul (F32.of_Z sampleRate) (F32.lit 5 10)).
  change (F32.max Rounded.MIN_FREQ F32.one) with (S754_finite false 10485760 (-19)).
  set (low := F32.mul (S754_finite false 10485760 (-19)) (F32.lit 1001 1000)).
  assert (Vmax : valid maxFreq) by (apply mul_valid; [apply of_Z_valid | reflexivity]).
  assert (Hle : F32.leb low (F32.max low maxFreq) = true).
  { unfold F32.max. destruct (F32.ltb low maxFreq) eqn:H; [apply ltb_leb; exact H |].
    reflexivity. }
  assert (Vm : valid (F32.max low maxFreq)).
  { unfold F32.max. destruct (F32.ltb low maxFreq); [exact Vmax | reflexivity]. }
  apply (ltb_leb_trans _ (F32.div low (S754_finite false 10485760 (-19)))).
  - vm_compute. reflexivity.
  - apply div_mono; [reflexivity | exact Vm | exact Hle].
Qed.

(** With a positive FFT size the unclamped bin grows with the bar index. *)
Lemma bar_bin_raw_mono (i j : Z) :
  0 < FFT_SIZE < 2 ^ 31 -> 0 <= i <= j ->
  F32.leb (bar_bin_raw powf NUM_BARS FFT_SIZE sampleRate i)
          (bar_bin_raw powf NUM_BARS FFT_SIZE sampleRate j) = true.
Proof.
  intros HF Hij. unfold bar_bin_raw. fold ratio.
  change (F32.max Rounded.MIN_FREQ F32.one) with (S754_finite false 10485760 (-19)).
  destruct (of_Z_finite sampleRate) as (ms & es & Hs).
  { pose proof (Z.pow_lt_mono_r 2 32 127). lia. }
  destruct (of_Z_finite FFT_SIZE) as (mf & ef & Hf).
  { pose proof (Z.pow_lt_mono_r 2 31 127). lia. }
  pose proof (of_Z_valid FFT_SIZE) as Vf. rewrite Hs, Hf in *.
  set (ti := Rounded.bar_t NUM_BARS i). set (tj := Rounded.bar_t NUM_BARS j).
  pose proof (bar_t_valid i) as Vi. pose proof (bar_t_valid j) as Vj. fold ti in Vi. fold tj in Vj.
  pose proof (pow_mono ti tj Vi Vj (bar_t_mono i j Hij)) as Hp.
  pose proof (pow_valid ti Vi) as Vpi. pose proof (pow_valid tj Vj) as Vpj.
  apply div_mono; [apply mul_valid; [apply mul_valid; [reflexivity | exact Vpi] | exact Vf]
                  | apply mul_valid; [apply mul_valid; [reflexivity | exact Vpj] | exact Vf] |].
  rewrite (mul_comm _ (S754_finite false mf ef)), (mul_comm _ (S754_finite false mf ef)).
  apply mul_mono; [exact Vf | apply mul_valid; [reflexivity | exact Vpi]
                  | apply mul_valid; [reflexivity | exact Vpj] |].
  apply mul_mono; [reflexivity | exact Vpi | exact Vpj | exact Hp].
Qed.

Lemma bar_bin_mono (i j : Z) :
  Int.in_int FFT_SIZE -> 0 <= i <= j ->
  F32.leb (Rounded.bar_bin powf NUM_BARS FFT_SIZE sampleRate i)
          (Rounded.bar_bin powf NUM_BARS FFT_SIZE sampleRate j) = true.
Proof.
  intros HF Hij. rewrite !bar_bin_clamp. unfold getNumFrequencies, Int.in_int in *.
  destruct (Z_lt_le_dec 0 FFT_SIZE) as [Hpos | Hneg].
  - apply max_mono; [reflexivity |]. apply min_mono; [apply of_Z_not_nan |].
    apply bar_bin_raw_mono; [lia | exact Hij].
  - assert (Hq : - 2 ^ 30 <= Z.quot FFT_SIZE 2 <= 0).
    { pose proof (Z.quot_rem' FFT_SIZE 2).
      pose proof (Z.rem_bound_pos_neg FFT_SIZE 2 ltac:(lia) Hneg). lia. }
    rewrite to_int_id by (unfold Int.in_int; lia).
    rewrite !clamp_low by (apply of_Z_negative; lia). reflexivity.
Qed.

End MappingOrder.

Lemma gBarBinF_lookup (powf : float -> float -> float) (NUM_BARS FFT_SIZE sampleRate : Z)
    (i : nat) (a : float) :
  Rounded.gBarBinF (Rounded.buildFrequencyMapping powf NUM_BARS FFT_SIZE sampleRate) !! i
    = Some a
  <-> (i < Z.to_nat NUM_BARS)%nat /\
      a = Rounded.bar_bin powf NUM_BARS FFT_SIZE sampleRate (Z.of_nat i).
Proof.
  unfold Rounded.buildFrequencyMapping. cbn [Rounded.gBarBinF].
  rewrite !list_lookup_fmap. split.
  - intros H. destruct (seq 0 (Z.to_nat NUM_BARS) !! i) as [k |] eqn:Hk; [| discriminate].
    apply lookup_seq in Hk as [-> Hlt]. cbn in H. injection H as <-. split; [exact Hlt | reflexivity].
  - intros [Hlt ->]. rewrite (lookup_seq_lt _ _ _ Hlt). reflexivity.
Qed.


(** The staircase returns binary32 numbers and grows with the exponent, at
    the ratio of a 44100 Hz file. *)
Lemma stair_pow_valid (t : float) : valid (stair_pow (mapping_ratio 44100) t).
Proof.
  unfold stair_pow.
  destruct (F32.ltb t (F32.lit 1 4)); [reflexivity |].
  destruct (F32.ltb t (F32.lit 1 2)); [vm_compute; reflexivity |].
  destruct (F32.ltb t F32.one); vm_compute; reflexivity.
Qed.

Lemma stair_pow_mono (t t' : float) :
  F32.leb t t' = true ->
  F32.leb (stair_pow (mapping_ratio 44100) t) (stair_pow (mapping_ratio 44100) t') = true.
Proof.
  intros H. unfold stair_pow.
  pose proof (leb_ltb_trans t t' (F32.lit 1 4) H) as A1.
  pose proof (leb_ltb_trans t t' (F32.lit 1 2) H) as A2.
  pose proof (leb_ltb_trans t t' F32.one H) as A3.
  destruct (F32.ltb t' (F32.lit 1 4)); [rewrite (A1 eq_refl); reflexivity |].
  destruct (F32.ltb t' (F32.lit 1 2));
    [rewrite (A2 eq_refl); destruct (F32.ltb t (F32.lit 1 4)); vm_compute; reflexivity |].
  destruct (F32.ltb t' F32.one);
    [rewrite (A3 eq_refl); destruct (F32.ltb t (F32.lit 1 4)), (F32.ltb t (F32.lit 1 2));
       vm_compute; reflexivity |].
  destruct (F32.ltb t (F32.lit 1 4)), (F32.ltb t (F32.lit 1 2)), (F32.ltb t F32.one);
    vm_compute; reflexivity.
Qed.


